(** * QSM Japan: trade costs and model inversion

    A shallow embedding of [calculate_trade_costs]
    (Japan/Scripts/spatial_processing.py) and of [invert_model]
    (Japan/Scripts/model_inversion.py), and the properties of the two that
    the specification states; then of [calculate_distance_matrix], of the
    steps of the pipeline that join the three, and of
    [replace_small_ke_with_big_ke] (Japan/Scripts/utils.py), with further
    properties of the code.

    Numbers.  The scripts compute on IEEE doubles through NumPy.  They are
    modelled by [fval]: a real number, or one of the three special values
    [+inf], [-inf], [NaN], with the IEEE rules for the special values and
    exact real arithmetic on the finite ones: no rounding, no overflow, one
    unsigned zero that behaves as [+0].  NumPy warns on a division by zero
    or an invalid operation and goes on with an infinity or a NaN; so does
    the model.  A property that would rest on the exactness of this
    arithmetic is stated so that it also bears the rounding and the range
    of the doubles: with a weak inequality or a tolerance, and on data
    bounded away from overflow and underflow.  Python's own floats raise
    where NumPy goes on; where the code computes on them (the distances),
    the overflow is modelled.

    Arrays.  A one-dimensional ndarray is a [list fval], a two-dimensional
    one a list of rows.  Elementwise operations broadcast as NumPy does and
    raise (here: return [None]) when the shapes do not fit.

    Control.  The [while] loop of a year is a function of the loop's
    variables with fuel; [year_fuel] is shown to be enough.  An exception
    inside the [try] block ends the loop of the year; an exception outside
    of it ends [invert_model].  The table is given year by year as the two
    columns [Population_<year>] and [Wage_<year>]; what is printed and the
    files that are written are left out, but for the warning on missing
    values. *)

From Stdlib Require Import Reals Lra Lia List Bool ZArith Arith Sorted.
Import ListNotations.

Open Scope R_scope.

(** ** Numbers *)

Inductive fval : Type :=
| Fin (r : R)
| PInf
| NInf
| NaN.

Definition isnan (x : fval) : bool :=
  match x with NaN => true | _ => false end.

Definition Rltb (a b : R) : bool := if Rlt_dec a b then true else false.
Definition Reqb (a b : R) : bool := if Req_dec_T a b then true else false.

Definition fneg (x : fval) : fval :=
  match x with
  | Fin r => Fin (- r)
  | PInf => NInf
  | NInf => PInf
  | NaN => NaN
  end.

Definition fadd (x y : fval) : fval :=
  match x, y with
  | NaN, _ | _, NaN => NaN
  | PInf, NInf | NInf, PInf => NaN
  | PInf, _ | _, PInf => PInf
  | NInf, _ | _, NInf => NInf
  | Fin a, Fin b => Fin (a + b)
  end.

Definition fsub (x y : fval) : fval := fadd x (fneg y).

(** Sign of a finite factor applied to an infinity; [inf * 0] is [NaN]. *)
Definition inf_times (pos : bool) (r : R) : fval :=
  if Reqb r 0 then NaN
  else if Rltb 0 r then (if pos then PInf else NInf)
  else (if pos then NInf else PInf).

Definition fmul (x y : fval) : fval :=
  match x, y with
  | NaN, _ | _, NaN => NaN
  | PInf, PInf | NInf, NInf => PInf
  | PInf, NInf | NInf, PInf => NInf
  | PInf, Fin r | Fin r, PInf => inf_times true r
  | NInf, Fin r | Fin r, NInf => inf_times false r
  | Fin a, Fin b => Fin (a * b)
  end.

(** Division; a zero divisor is [+0]: [x/0] is an infinity of the sign of
    [x], and [0/0] is [NaN] (NumPy warns, it does not raise). *)
Definition fdiv (x y : fval) : fval :=
  match x, y with
  | NaN, _ | _, NaN => NaN
  | Fin a, Fin b =>
      if Reqb b 0 then
        (if Reqb a 0 then NaN else if Rltb 0 a then PInf else NInf)
      else Fin (a / b)
  | Fin _, _ => Fin 0
  | PInf, Fin b => if Rltb b 0 then NInf else PInf
  | NInf, Fin b => if Rltb b 0 then PInf else NInf
  | _, _ => NaN
  end.

Definition fsqrt (x : fval) : fval :=
  match x with
  | Fin r => if Rltb r 0 then NaN else Fin (sqrt r)
  | PInf => PInf
  | _ => NaN
  end.

Definition fexp (x : fval) : fval :=
  match x with
  | Fin r => Fin (exp r)
  | PInf => PInf
  | NInf => Fin 0
  | NaN => NaN
  end.

(** [x ** n] for an integer exponent [n] (C [pow] on the special values). *)
Definition powZ (x : fval) (n : Z) : fval :=
  if (n =? 0)%Z then Fin 1 else
  match x with
  | Fin r => if Reqb r 0 && (n <? 0)%Z then PInf else Fin (powerRZ r n)
  | PInf => if (0 <? n)%Z then PInf else Fin 0
  | NInf => if (0 <? n)%Z then (if Z.even n then PInf else NInf) else Fin 0
  | NaN => NaN
  end.

(** [x ** y] for an exponent [y] that is not an integer. *)
Definition powR (x : fval) (y : R) : fval :=
  match x with
  | Fin r =>
      if Rltb r 0 then NaN
      else if Reqb r 0 then (if Rltb 0 y then Fin 0 else PInf)
      else Fin (Rpower r y)
  | PInf | NInf => if Rltb 0 y then PInf else Fin 0
  | NaN => NaN
  end.

(** [np.clip(x, lo, hi)], that is [minimum(maximum(x, lo), hi)]: a NaN
    stays a NaN, the infinities go to the bounds. *)
Definition clip (x : fval) (lo hi : R) : fval :=
  match x with
  | Fin r => Fin (Rmin (Rmax r lo) hi)
  | PInf => Fin (Rmin (Rmax hi lo) hi)
  | NInf => Fin (Rmin lo hi)
  | NaN => NaN
  end.

(** Python's [x < y] and [x > y] on floats: false when a NaN is involved. *)
Definition fltb (x y : fval) : bool :=
  match x, y with
  | NaN, _ | _, NaN => false
  | Fin a, Fin b => Rltb a b
  | NInf, NInf | PInf, _ => false
  | NInf, _ => true
  | Fin _, PInf => true
  | Fin _, NInf => false
  end.

Definition fgtb (x y : fval) : bool := fltb y x.

Definition Rleb (a b : R) : bool := if Rle_dec a b then true else false.

(** Python's [x <= y] on floats. *)
Definition fleb (x y : fval) : bool :=
  match x, y with
  | NaN, _ | _, NaN => false
  | Fin a, Fin b => Rleb a b
  | NInf, _ | _, PInf => true
  | _, _ => false
  end.

Definition isfinite (x : fval) : bool :=
  match x with Fin _ => true | _ => false end.

(** ** Arrays *)

Definition vec := list fval.
Definition mat := list (list fval).

Definition nth_v (v : vec) (i : nat) : fval := nth i v NaN.
Definition nth_m (m : mat) (i j : nat) : fval := nth j (nth i m []) NaN.

(** ** Trade costs (spatial_processing.py, calculate_trade_costs) *)

Definition calculate_trade_costs (distance_matrix : mat) (phi : fval) : mat :=
  let distance_matrix_array :=
    map (map (fun d => fmul d phi)) distance_matrix in
  map (map (fun x => fexp (clip x (-700) 700))) distance_matrix_array.

(** The entries of a distance matrix: finite, non-negative. *)
Definition fin_nonneg (x : fval) : Prop :=
  match x with Fin r => 0 <= r | _ => False end.

Definition fin_pos (x : fval) : Prop :=
  match x with Fin r => 0 < r | _ => False end.

(** The real number held by a finite value, [0] for the others. *)
Definition Rval (x : fval) : R :=
  match x with Fin r => r | _ => 0 end.

(** The scalar clip of the spec's formula. *)
Definition Rclip (x lo hi : R) : R := Rmin (Rmax x lo) hi.

(** The spec's elementwise formula [exp(clip(phi * D[i][j], -700, 700))]. *)
Definition trade_cost_spec (phi d : R) : R := exp (Rclip (phi * d) (-700) 700).

(** A matrix with as many columns in every row as it has rows. *)
Definition square (m : mat) : Prop := Forall (fun r => length r = length m) m.

(** ** NumPy broadcasting *)

(** The common length of two axes: equal, or one of them is [1]. *)
Definition bdim (a b : nat) : option nat :=
  if (a =? b)%nat then Some a
  else if (a =? 1)%nat then Some b
  else if (b =? 1)%nat then Some a
  else None.

(** An axis of length [n] is kept, an axis of length [1] is repeated. *)
Definition stretch {X : Type} (d : X) (n : nat) (l : list X) : list X :=
  if (length l =? n)%nat then l else repeat (hd d l) n.

Fixpoint zip_with {X Y Z : Type} (f : X -> Y -> Z) (a : list X) (b : list Y) : list Z :=
  match a, b with
  | x :: a', y :: b' => f x y :: zip_with f a' b'
  | _, _ => []
  end.

(** An elementwise operation on two 1-D arrays; [None] is NumPy's
    [ValueError: operands could not be broadcast together]. *)
Definition bvec (f : fval -> fval -> fval) (a b : vec) : option vec :=
  match bdim (length a) (length b) with
  | Some n => Some (zip_with f (stretch NaN n a) (stretch NaN n b))
  | None => None
  end.

(** The shape of a 2-D array; a ragged list of rows is no array. *)
Definition shape (m : mat) : option (nat * nat) :=
  match m with
  | [] => Some (0%nat, 0%nat)
  | r :: rs =>
      if forallb (fun r' => (length r' =? length r)%nat) rs
      then Some (length m, length r) else None
  end.

(** An elementwise operation on two 2-D arrays. *)
Definition bmat (f : fval -> fval -> fval) (a b : mat) : option mat :=
  match shape a, shape b with
  | Some (ra, ca), Some (rb, cb) =>
      match bdim ra rb, bdim ca cb with
      | Some r, Some c =>
          Some (zip_with
                  (fun x y => zip_with f (stretch NaN c x) (stretch NaN c y))
                  (stretch [] r a) (stretch [] r b))
      | _, _ => None
      end
  | _, _ => None
  end.

(** A 2-D array of [r] rows and [c] columns. *)
Definition rect (r c : nat) (m : mat) : Prop :=
  length m = r /\ Forall (fun x => length x = c) m.

(** [v[:, None]]: a 1-D array as a column.  (A list of rows cannot tell
    the shape [(0, 1)] from [(0, 0)]; the loop is not reached with an empty
    table, see [invert_year].) *)
Definition column (v : vec) : mat := map (fun x => [x]) v.

(** A 1-D array met by a 2-D one is a single row. *)
Definition row (v : vec) : mat := [v].

(** [np.ones(N)]. *)
Definition ones (N : nat) : vec := repeat (Fin 1) N.

Definition fsum (v : vec) : fval := fold_right fadd (Fin 0) v.

(** [np.mean] of a 1-D array; of an empty one it is [0/0 = NaN]. *)
Definition mean (v : vec) : fval := fdiv (fsum v) (Fin (INR (length v))).

(** [np.linalg.norm] of a 1-D array. *)
Definition norm (v : vec) : fval := fsqrt (fsum (map (fun x => fmul x x) v)).

(** Multiplication of an array by a scalar. *)
Definition scale (a : R) (v : vec) : vec := map (fun x => fmul (Fin a) x) v.

(** Error monad of the [try] block. *)
Definition bind {X Y : Type} (o : option X) (k : X -> option Y) : option Y :=
  match o with Some x => k x | None => None end.

Notation "x <- e ;; k" := (bind e (fun x => k))
  (at level 61, e at next level, right associativity).

(** ** Model inversion (model_inversion.py, invert_model) *)

Definition sigma : Z := 9.
Definition tol : R := 1e-6.
Definition max_iter : nat := 1000.
Definition min_alpha : R := 0.01.
Definition initial_alpha : R := 0.1.

(** The clip bounds of every update. *)
Definition lo : R := 1e-10.
Definition hi : R := 1e10.

Definition clipv (v : vec) : vec := map (fun x => clip x lo hi) v.
Definition clipm (m : mat) : mat := map clipv m.

(** *** Preprocessing (lines 52-65) *)

Definition count_nan (v : vec) : nat := length (filter isnan v).

(** [np.nanmean]: the mean of the entries that are not NaN. *)
Definition nanmean (v : vec) : fval := mean (filter (fun x => negb (isnan x)) v).

(** The largest double, which [np.nan_to_num] puts for an infinity. *)
Definition float_max : R := (2 - / 2 ^ 52) * 2 ^ 1023.

Definition nan_to_num (v : vec) (nan : fval) : vec :=
  map (fun x => match x with
                | NaN => nan
                | PInf => Fin float_max
                | NInf => Fin (- float_max)
                | Fin _ => x
                end) v.

(** Lines 52-61: the repaired vectors and whether the warning was printed. *)
Definition repair (L w : vec) : vec * vec * bool :=
  let missing_L := count_nan L in
  let missing_w := count_nan w in
  if (0 <? missing_L)%nat || (0 <? missing_w)%nat
  then (nan_to_num L (nanmean L), nan_to_num w (nanmean w), true)
  else (L, w, false).

(** Lines 64-65: [x / np.mean(x)]. *)
Definition normalize (v : vec) : vec := map (fun x => fdiv x (mean v)) v.

(** *** One iteration (lines 88-126) *)

Definition alpha_update (iter_count : nat) : R :=
  Rmax min_alpha (initial_alpha / sqrt (1 + INR iter_count)).

(** Lines 95-99. *)
Definition combined_terms (T : mat) (w A : vec) (N : nat) : option mat :=
  let term1 := clipm (map (map (fun t => powZ t (1 - sigma))) T) in
  w1 <- bvec fmul w (ones N) ;;
  let term2 := clipv (map (fun x => powZ x (sigma - 1)) w1) in
  q <- bvec fdiv A w ;;
  t3 <- bmat fmul (column (ones N)) (row (map (fun x => powZ x (sigma - 1)) q)) ;;
  let term3 := clipm t3 in
  p <- bmat fmul term1 (column term2) ;;
  c <- bmat fmul p term3 ;;
  Some (clipm c).

(** Lines 100-101. *)
Definition update_u (combined : mat) : vec :=
  let u_new :=
    clipv (map (fun r => powR (mean r) (1 / IZR (1 - sigma))) combined) in
  map (fun x => fdiv x (mean u_new)) u_new.

(** Lines 104-105. *)
Definition update_A (L w u : vec) : option vec :=
  lw <- bvec fmul L (map (fun x => powZ x (2 * sigma - 1)) w) ;;
  lwu <- bvec fmul lw (map (fun x => powZ x (sigma - 1)) u) ;;
  let A_new := clipv (map (fun x => powR x (1 / IZR (sigma - 1))) lwu) in
  Some (map (fun x => fdiv x (mean A_new)) A_new).

(** Line 108. *)
Definition residual (A A_new u u_new : vec) : option fval :=
  dA <- bvec fsub A A_new ;;
  dU <- bvec fsub u u_new ;;
  Some (fadd (norm dA) (norm dU)).

(** Lines 120-121: [alpha * x_new + (1 - alpha) * x]. *)
Definition blend (alpha : R) (x_new x : vec) : option vec :=
  bvec fadd (scale alpha x_new) (scale (1 - alpha) x).

(** The variables of one year's loop. *)
Record loop_state : Type := mkState {
  A : vec;
  u : vec;
  diff : fval;
  iter_count : nat;
  no_improvement_count : nat;
  best_diff : fval;
  best_A : option vec;
  best_u : option vec
}.

(** Lines 73-84. *)
Definition init_state (N : nat) : loop_state :=
  mkState (ones N) (ones N) (Fin 1) 0 0 PInf None None.

(** Lines 95-108: what an iteration computes before it changes a variable
    of the loop; [None] when one of the operations raises. *)
Definition compute_updates (L w : vec) (T : mat) (N : nat) (s : loop_state)
  : option (mat * vec * vec * fval) :=
  combined <- combined_terms T w (A s) N ;;
  let u_new := update_u combined in
  A_new <- update_A L w (u s) ;;
  d <- residual (A s) A_new (u s) u_new ;;
  Some (combined, u_new, A_new, d).

(** Lines 108-117. *)
Definition track_best (s : loop_state) (u_new A_new : vec) (d : fval) : loop_state :=
  if fltb d (best_diff s)
  then mkState (A s) (u s) d (iter_count s) 0 d (Some A_new) (Some u_new)
  else mkState (A s) (u s) d (iter_count s) (S (no_improvement_count s))
               (best_diff s) (best_A s) (best_u s).

Definition set_A (s : loop_state) (a : vec) : loop_state :=
  mkState a (u s) (diff s) (iter_count s) (no_improvement_count s)
          (best_diff s) (best_A s) (best_u s).

Definition set_u (s : loop_state) (b : vec) : loop_state :=
  mkState (A s) b (diff s) (iter_count s) (no_improvement_count s)
          (best_diff s) (best_A s) (best_u s).

Definition next_iter (s : loop_state) : loop_state :=
  mkState (A s) (u s) (diff s) (S (iter_count s)) (no_improvement_count s)
          (best_diff s) (best_A s) (best_u s).

(** How the body of the [while] ends: at [iter_count += 1], or at a [break]
    (the early stop, or the [except] branch). *)
Inductive outcome : Type :=
| Continue (s : loop_state)
| EarlyStop (s : loop_state)
| Except (s : loop_state).

(** Lines 87-132, the body of the [while]. *)
Definition iteration (L w : vec) (T : mat) (N : nat) (s : loop_state) : outcome :=
  let alpha := alpha_update (iter_count s) in
  match compute_updates L w T N s with
  | None => Except s
  | Some (_, u_new, A_new, d) =>
      let s1 := track_best s u_new A_new d in
      match blend alpha A_new (A s1) with
      | None => Except s1
      | Some a =>
          let s2 := set_A s1 a in
          match blend alpha u_new (u s2) with
          | None => Except s2
          | Some b =>
              let s3 := set_u s2 b in
              if (50 <? no_improvement_count s3)%nat
              then EarlyStop s3
              else Continue (next_iter s3)
          end
      end
  end.

(** Line 86, the loop condition. *)
Definition loop_cond (s : loop_state) : bool :=
  fgtb (diff s) (Fin tol) && (iter_count s <? max_iter)%nat.

(** The [while] loop; [None] when the fuel runs out before it ends. *)
Fixpoint while_loop (fuel : nat) (L w : vec) (T : mat) (N : nat) (s : loop_state)
  : option loop_state :=
  match fuel with
  | O => None
  | S fuel' =>
      if loop_cond s then
        match iteration L w T N s with
        | Continue s' => while_loop fuel' L w T N s'
        | EarlyStop s' => Some s'
        | Except s' => Some s'
        end
      else Some s
  end.

(** What one executed iteration computed, and the best residual after it. *)
Record iter_event : Type := mkEvent {
  ev_A : vec;
  ev_u : vec;
  ev_combined : mat;
  ev_A_new : vec;
  ev_u_new : vec;
  ev_diff : fval;
  ev_best_diff : fval
}.

(** The iterations of the loop that reached line 108, in order. *)
Fixpoint loop_history (fuel : nat) (L w : vec) (T : mat) (N : nat) (s : loop_state)
  : list iter_event :=
  match fuel with
  | O => []
  | S fuel' =>
      if loop_cond s then
        match compute_updates L w T N s with
        | None => []
        | Some (combined, u_new, A_new, d) =>
            let e := mkEvent (A s) (u s) combined A_new u_new d
                             (best_diff (track_best s u_new A_new d)) in
            match iteration L w T N s with
            | Continue s' => e :: loop_history fuel' L w T N s'
            | _ => [e]
            end
        end
      else []
  end.

(** *** One year (lines 45-156) *)

(** Lines 134-138: the best solution found, if any. *)
Definition use_best (s : loop_state) : loop_state :=
  match best_A s, best_u s with
  | Some a, Some b =>
      mkState a b (best_diff s) (iter_count s) (no_improvement_count s)
              (best_diff s) (best_A s) (best_u s)
  | _, _ => s
  end.

(** What a year leaves in the table and in [convergence_stats]. *)
Record year_output : Type := mkOutput {
  A_col : vec;
  u_col : vec;
  iterations : nat;
  final_diff : fval;
  warned : bool
}.

(** A year ends with its output, or with an exception that nothing in
    [invert_model] catches. *)
Inductive year_result : Type :=
| Done (o : year_output)
| Raised.

(** Enough fuel for the loop of a year: it starts at [iter_count = 0]. *)
Definition year_fuel : nat := S max_iter.

(** Lines 52-65: the vectors [L] and [w] that enter the loop of a year. *)
Definition prepared (L w : vec) : vec * vec :=
  (normalize (fst (fst (repair L w))), normalize (snd (fst (repair L w)))).

(** The state at the end of a year's loop, after lines 134-138. *)
Definition run_year (L w : vec) (T : mat) (N : nat) : option loop_state :=
  let '(L1, w1, _) := repair L w in
  let L2 := normalize L1 in
  let w2 := normalize w1 in
  option_map use_best (while_loop year_fuel L2 w2 T N (init_state N)).

(** The history of a year's loop. *)
Definition year_history (L w : vec) (T : mat) (N : nat) : list iter_event :=
  let '(L1, w1, _) := repair L w in
  loop_history year_fuel (normalize L1) (normalize w1) T N (init_state N).

(** One pass of the [for year in years] body.  [N] is [len(final_gdf)];
    [np.min] of an empty array raises (lines 69-70), and so does the
    assignment of a column whose length is not [N] (lines 155-156). *)
Definition invert_year (L w : vec) (T : mat) (N : nat) : year_result :=
  let '(_, _, warning) := repair L w in
  if (length L =? 0)%nat || (length w =? 0)%nat then Raised
  else
    match run_year L w T N with
    | None => Raised
    | Some s =>
        if (length (A s) =? N)%nat && (length (u s) =? N)%nat
        then Done (mkOutput (A s) (u s) (iter_count s) (diff s) warning)
        else Raised
    end.

(** The columns [Population_<year>] and [Wage_<year>] of the table. *)
Record year_input : Type := mkInput {
  year : Z;
  Population : vec;
  Wage : vec
}.

(** The loop over the years: the outputs in the order of the years, or
    [None] when a year raised. *)
Fixpoint invert_model (N : nat) (T : mat) (years : list year_input)
  : option (list (Z * year_output)) :=
  match years with
  | [] => Some []
  | y :: rest =>
      match invert_year (Population y) (Wage y) T N with
      | Raised => None
      | Done o =>
          option_map (cons (year y, o)) (invert_model N T rest)
      end
  end.

(** ** Notions used in the statements *)

(** The state after an iteration that did not raise. *)
Definition after_iteration (s : loop_state) (u_new A_new : vec) (d : fval)
           (a b : vec) : loop_state :=
  set_u (set_A (track_best s u_new A_new d) a) b.

(** Why the loop of a year has ended. *)
Definition stopped (L w : vec) (T : mat) (N : nat) (s : loop_state) : Prop :=
  fgtb (diff s) (Fin tol) = false \/
  iter_count s = max_iter \/
  (50 < no_improvement_count s)%nat \/
  compute_updates L w T N s = None.

(** What the loop knows of the iterations [seen] so far: the best residual
    is not a NaN, no residual seen is below it, it is at most every best
    residual recorded before, and the best pair is the pair of an iteration
    seen whose residual it is (or nothing was recorded yet). *)
Definition best_inv (seen : list iter_event) (s : loop_state) : Prop :=
  best_diff s <> NaN /\
  (forall e, In e seen -> fltb (ev_diff e) (best_diff s) = false) /\
  (forall e, In e seen -> fleb (best_diff s) (ev_best_diff e) = true) /\
  match best_A s, best_u s with
  | Some a, Some b =>
      exists e, In e seen /\ ev_A_new e = a /\ ev_u_new e = b /\
                ev_diff e = best_diff s
  | None, None => best_diff s = PInf
  | _, _ => False
  end.

(** A sequence of residuals that never goes up. *)
Definition non_increasing (l : list fval) : Prop :=
  StronglySorted (fun x y => fleb y x = true) l.


(** A value that a clip has brought between the bounds. *)
Definition in_range (x : fval) : Prop :=
  match x with Fin r => lo <= r <= hi | _ => False end.

(** The sum of the numbers of a vector of finite values. *)
Definition Rsum (v : vec) : R := fold_right (fun x acc => Rval x + acc) 0 v.

(** An entry of a column of the table that the repair can deal with: a
    NaN, or a finite number that is not negative. *)
Definition nan_or_nonneg (x : fval) : Prop := x = NaN \/ fin_nonneg x.

(** A column with such entries and a positive one among them. *)
Definition usable_column (v : vec) : Prop :=
  Forall nan_or_nonneg v /\ Exists fin_pos v.

(** A vector of [N] positive finite numbers. *)
Definition pos_vec (N : nat) (v : vec) : Prop :=
  length v = N /\ Forall fin_pos v.

(** A vector of [N] positive finite numbers whose mean is [1]. *)
Definition normalized (N : nat) (v : vec) : Prop :=
  pos_vec N v /\ mean v = Fin 1.

(** *** The update as the spec writes it, entry by entry *)

(** [combined[i][j] = T[i][j]^(1-sigma) * w[i]^(sigma-1) *
    (A[j]/w[j])^(sigma-1)], each factor clipped and the product clipped. *)
Definition combined_spec (T : mat) (w A0 : vec) (i j : nat) : fval :=
  clip (fmul (fmul (clip (powZ (nth_m T i j) (1 - sigma)) lo hi)
                   (clip (powZ (nth_v w i) (sigma - 1)) lo hi))
             (clip (powZ (fdiv (nth_v A0 j) (nth_v w j)) (sigma - 1)) lo hi))
       lo hi.

(** [(mean_j combined[i][j])^(1/(1-sigma))], clipped. *)
Definition u_raw_spec (T : mat) (w A0 : vec) (N : nat) (i : nat) : fval :=
  clip (powR (mean (map (combined_spec T w A0 i) (seq 0 N))) (1 / IZR (1 - sigma)))
       lo hi.

(** ... then renormalized to mean 1 across all [i]. *)
Definition u_new_spec (T : mat) (w A0 : vec) (N : nat) (i : nat) : fval :=
  fdiv (u_raw_spec T w A0 N i) (mean (map (u_raw_spec T w A0 N) (seq 0 N))).

(** [(L[i] * w[i]^(2*sigma-1) * u[i]^(sigma-1))^(1/(sigma-1))], clipped. *)
Definition A_raw_spec (L w u0 : vec) (i : nat) : fval :=
  clip (powR (fmul (fmul (nth_v L i) (powZ (nth_v w i) (2 * sigma - 1)))
                   (powZ (nth_v u0 i) (sigma - 1)))
             (1 / IZR (sigma - 1)))
       lo hi.

(** ... then renormalized to mean 1. *)
Definition A_new_spec (L w u0 : vec) (N : nat) (i : nat) : fval :=
  fdiv (A_raw_spec L w u0 i) (mean (map (A_raw_spec L w u0) (seq 0 N))).

(** *** The terms of lines 95-99 when all the shapes agree *)

Definition term1_of (T : mat) : mat :=
  clipm (map (map (fun t => powZ t (1 - sigma))) T).

Definition term2_of (w : vec) (N : nat) : vec :=
  clipv (map (fun x => powZ x (sigma - 1)) (zip_with fmul w (ones N))).

Definition term3_of (w A0 : vec) (N : nat) : mat :=
  clipm (map (fun x => map (fmul x)
                           (map (fun y => powZ y (sigma - 1)) (zip_with fdiv A0 w)))
             (ones N)).

Definition combined_of (T : mat) (w A0 : vec) (N : nat) : mat :=
  clipm (zip_with (zip_with fmul)
                  (zip_with (fun x y => map (fun t => fmul t y) x)
                            (term1_of T) (term2_of w N))
                  (term3_of w A0 N)).

Definition A_raw_of (L w u0 : vec) : vec :=
  clipv (map (fun x => powR x (1 / IZR (sigma - 1)))
             (zip_with fmul
                       (zip_with fmul L (map (fun x => powZ x (2 * sigma - 1)) w))
                       (map (fun x => powZ x (sigma - 1)) u0))).

(** The state that an iteration leaves. *)
Definition outcome_state (o : outcome) : loop_state :=
  match o with Continue s | EarlyStop s | Except s => s end.

(** The estimates of a state have the length of the table. *)
Definition shape_inv (N : nat) (s : loop_state) : Prop :=
  length (A s) = N /\ length (u s) = N.

(** No entry of the matrix is a NaN. *)
Definition no_nan (m : mat) : Prop := Forall (Forall (fun x => x <> NaN)) m.

(** What holds of the loop of a year on usable data: the estimates are
    positive, and the best pair, once recorded, is positive with mean 1;
    before that the estimates are still the initial ones. *)
Definition good_inv (N : nat) (s : loop_state) : Prop :=
  pos_vec N (A s) /\ pos_vec N (u s) /\
  match best_A s, best_u s with
  | Some a, Some b => normalized N a /\ normalized N b
  | None, None => best_diff s = PInf /\ A s = ones N /\ u s = ones N
  | _, _ => False
  end.

(** The columns of a year: as long as the table, and usable. *)
Definition usable_year (N : nat) (y : year_input) : Prop :=
  length (Population y) = N /\ length (Wage y) = N /\
  usable_column (Population y) /\ usable_column (Wage y).

(** A finite value that is zero. *)
Definition is_zero (x : fval) : Prop :=
  match x with Fin r => r = 0 | _ => False end.

(** *** Data within the range of the doubles *)

(** The tolerance within which the mean of a vector of doubles is taken
    for [1]. *)
Definition mean_tolerance : R := 1e-9.

Definition mean_near_one (v : vec) : Prop :=
  exists m, mean v = Fin m /\ Rabs (m - 1) <= mean_tolerance.

(** An entry of a column that is a NaN, or a number that is not negative
    and not above [1e200]. *)
Definition safe_entry (x : fval) : Prop :=
  x = NaN \/ exists r, x = Fin r /\ 0 <= r <= 1e200.

(** An entry that is a number between [1e-200] and [1e200]. *)
Definition large_entry (x : fval) : Prop :=
  exists r, x = Fin r /\ 1e-200 <= r <= 1e200.

(** A column of at most a million such entries, one of them at least not
    below [1e-200]: on doubles, neither the sum of the column nor the sum
    of its entries that are not NaN overflows, and their means do not
    underflow. *)
Definition safe_column (v : vec) : Prop :=
  (Z.of_nat (length v) <= 1000000)%Z /\
  Forall safe_entry v /\ Exists large_entry v.

(** The columns of a year: as long as the table, and safe. *)
Definition safe_year (N : nat) (y : year_input) : Prop :=
  length (Population y) = N /\ length (Wage y) = N /\
  safe_column (Population y) /\ safe_column (Wage y).

(** ** Distances (spatial_processing.py, calculate_distance_matrix) *)

(** A centroid: the [x] and [y] of a point, in meters. *)
Record point : Type := mkPoint { px : fval; py : fval }.

(** The least magnitude that rounds to an infinity on doubles: the
    largest double and half the gap above it. *)
Definition overflow_threshold : R := float_max + 2 ^ 970.

(** The result of an arithmetic operation on doubles whose exact result
    is [x]: an infinity when [x] is too large.  (The rounding of the
    results that are not too large is left out.) *)
Definition overflow (x : fval) : fval :=
  match x with
  | Fin r =>
      if Rleb overflow_threshold (Rabs r)
      then (if Rltb 0 r then PInf else NInf)
      else x
  | _ => x
  end.

(** Python's [x ** 2] on a [float]: [OverflowError] when [x] is finite
    and its square is too large for a double; [None] is that exception. *)
Definition float_pow2 (x : fval) : option fval :=
  match x, overflow (powZ x 2) with
  | Fin _, PInf => None
  | _, y => Some y
  end.

(** Line 153: [((x1 - x2)**2 + (y1 - y2)**2)**0.5 / 1000], on Python
    floats. *)
Definition distance (city1 city2 : point) : option fval :=
  dx2 <- float_pow2 (overflow (fsub (px city1) (px city2))) ;;
  dy2 <- float_pow2 (overflow (fsub (py city1) (py city2))) ;;
  Some (fdiv (powR (overflow (fadd dx2 dy2)) 0.5) (Fin 1000)).

(** One cell of the matrix, lines 149-157.  A row of the table that found
    no geometry in the merge has no centroid ([None]); taking its [x]
    raises, but only off the diagonal, where line 153 is reached. *)
Definition distance_cell (i j : nat) (city1 city2 : option point) : option fval :=
  if (i =? j)%nat then Some (Fin 0)
  else match city1, city2 with
       | Some c1, Some c2 => distance c1 c2
       | _, _ => None
       end.

(** [enumerate(centroids)]. *)
Definition enumerate {X : Type} (l : list X) : list (nat * X) :=
  combine (seq 0 (length l)) l.

(** The results of a loop, or the first exception in it. *)
Fixpoint sequence {X : Type} (l : list (option X)) : option (list X) :=
  match l with
  | [] => Some []
  | o :: rest =>
      x <- o ;;
      xs <- sequence rest ;;
      Some (x :: xs)
  end.

(** Lines 137-161; an exception in the loops is printed and raised again
    (lines 163-165). *)
Definition calculate_distance_matrix (centroids : list (option point)) : option mat :=
  sequence
    (map (fun ic1 =>
            sequence
              (map (fun jc2 => distance_cell (fst ic1) (fst jc2) (snd ic1) (snd jc2))
                   (enumerate centroids)))
         (enumerate centroids)).

(** A centroid whose coordinates are numbers of magnitude [1e150] at
    most: the squares of the differences of two of them do not overflow. *)
Definition bounded_point (c : option point) : Prop :=
  match c with
  | Some p => exists x y, px p = Fin x /\ py p = Fin y /\
                          -1e150 <= x <= 1e150 /\ -1e150 <= y <= 1e150
  | None => False
  end.

(** The coordinates of a centroid. *)
Definition coords (c : option point) : R * R :=
  match c with
  | Some p => (Rval (px p), Rval (py p))
  | None => (0, 0)
  end.

(** The Euclidean distance in kilometers of two points given in meters. *)
Definition km_between (a b : R * R) : R :=
  sqrt (Rsqr (fst a - fst b) + Rsqr (snd a - snd b)) / 1000.

Definition symmetric (m : mat) : Prop := forall i j, nth_m m i j = nth_m m j i.

(** The value of a cell of the distance matrix that did not raise. *)
Definition cell_value (i j : nat) (city1 city2 : option point) : fval :=
  match distance_cell i j city1 city2 with Some d => d | None => NaN end.

(** A trade cost that the clip has kept from overflow and underflow. *)
Definition bounded_cost (t : fval) : Prop :=
  exists r, t = Fin r /\ exp (-700) <= r <= exp 700.

(** Steps 2 and 3 of the pipeline (main.py lines 66-68 and 93,
    run_pipeline.py lines 27-29 and 38): the distance matrix of the
    table's centroids, the trade costs with the default [phi = 0.01], and
    the inversion of the table, whose number of rows is the number of
    centroids.  [None] is an exception that leaves one of the steps. *)
Definition model_steps (centroids : list (option point)) (years : list year_input)
  : option (list (Z * year_output)) :=
  distance_matrix <- calculate_distance_matrix centroids ;;
  let T := calculate_trade_costs distance_matrix (Fin 0.01) in
  invert_model (length centroids) T years.

(** An entry that is a NaN or a zero. *)
Definition nan_or_zero (x : fval) : Prop := x = NaN \/ is_zero x.

(** What holds at the head of the loop of a year on usable data: no
    iteration was made yet, or the residual of the last one is a finite
    number, the best residual is a finite number that is not above it, and
    the iterations without improvement are fewer than the iterations. *)
Definition head_inv (s : loop_state) : Prop :=
  (iter_count s <= max_iter)%nat /\
  ((iter_count s = 0%nat /\ diff s = Fin 1 /\ best_diff s = PInf) \/
   ((no_improvement_count s < iter_count s)%nat /\
    exists b r, best_diff s = Fin b /\ diff s = Fin r /\ 0 <= b <= r)).

(** What holds when that loop has ended: the best residual is within the
    tolerance, unless 51 iterations or more were made. *)
Definition end_inv (s : loop_state) : Prop :=
  (1 <= iter_count s <= max_iter)%nat /\
  exists b, best_diff s = Fin b /\ 0 <= b /\ (b <= tol \/ (51 <= iter_count s)%nat).

(** A length that is [1] or [M]. *)
Definition one_or (M n : nat) : Prop := n = 1%nat \/ n = M.

(** The lengths of the estimates when one location meets an [M x M]
    matrix: at the head of the loop, and when the loop has ended. *)
Definition wide_head (M : nat) (s : loop_state) : Prop :=
  one_or M (length (A s)) /\
  (forall bu, best_u s = Some bu -> length bu = M) /\
  ((length (u s) = 1%nat /\ loop_cond s = true) \/ length (u s) = M).

Definition wide_end (M : nat) (s : loop_state) : Prop :=
  length (u s) = M /\ (forall bu, best_u s = Some bu -> length bu = M).

(** ** What a year prints when its loop has ended (lines 144-147) *)

Inductive message : Type :=
| MaxIterWarning
| Converged (k : nat) (d : fval).

Definition final_message (o : year_output) : message :=
  if (max_iter <=? iterations o)%nat then MaxIterWarning
  else Converged (iterations o) (final_diff o).

(** ** Text (utils.py) *)

(** A Python value: a [str], as the list of its code points, or a value
    of another type. *)
Inductive pyvalue (X : Type) : Type :=
| PyStr (s : list Z)
| PyOther (x : X).

Arguments PyStr {X} s.
Arguments PyOther {X} x.

(** The code points of the small and of the big katakana ke. *)
Definition small_ke : Z := 0x30f6.
Definition big_ke : Z := 0x30b1.

(** [s.replace(old, new)] for two strings of one character each. *)
Definition str_replace (old new : Z) (s : list Z) : list Z :=
  map (fun c => if (c =? old)%Z then new else c) s.

Definition replace_small_ke_with_big_ke {X : Type} (text : pyvalue X) : pyvalue X :=
  match text with
  | PyStr s => PyStr (str_replace small_ke big_ke s)
  | PyOther x => PyOther x
  end.

(** ** Facts on the numbers *)

Lemma Rltb_true (a b : R) : a < b -> Rltb a b = true.
Proof. intros H. unfold Rltb. destruct (Rlt_dec a b); [reflexivity | contradiction]. Qed.

Lemma Rltb_false (a b : R) : ~ a < b -> Rltb a b = false.
Proof. intros H. unfold Rltb. destruct (Rlt_dec a b); [contradiction | reflexivity]. Qed.

Lemma Reqb_true (a b : R) : a = b -> Reqb a b = true.
Proof. intros H. unfold Reqb. destruct (Req_dec_T a b); [reflexivity | contradiction]. Qed.

Lemma Reqb_false (a b : R) : a <> b -> Reqb a b = false.
Proof. intros H. unfold Reqb. destruct (Req_dec_T a b); [contradiction | reflexivity]. Qed.

Lemma Rclip_bounds (x lo hi : R) : lo <= hi -> lo <= Rclip x lo hi <= hi.
Proof.
  intros H. unfold Rclip. split.
  - apply Rmin_glb; [apply Rmax_r | assumption].
  - apply Rmin_r.
Qed.

Lemma Rclip_id (x lo hi : R) : lo <= x <= hi -> Rclip x lo hi = x.
Proof.
  intros [H1 H2]. unfold Rclip.
  rewrite Rmax_left by assumption. apply Rmin_left; assumption.
Qed.

Lemma fdiv_fin (a b : R) : b <> 0 -> fdiv (Fin a) (Fin b) = Fin (a / b).
Proof. intros H. cbn. now rewrite (Reqb_false b 0 H). Qed.

(** ** Facts on the arrays *)

Lemma nth_v_map (f : fval -> fval) (v : vec) (i : nat) :
  (i < length v)%nat -> nth_v (map f v) i = f (nth_v v i).
Proof.
  intros H. unfold nth_v.
  rewrite (nth_indep _ NaN (f NaN)) by (rewrite length_map; exact H).
  apply map_nth.
Qed.

Lemma nth_m_map (f : fval -> fval) (m : mat) (i j : nat) :
  (i < length m)%nat -> (j < length (nth i m []))%nat ->
  nth_m (map (map f) m) i j = f (nth_m m i j).
Proof.
  intros Hi Hj. unfold nth_m.
  rewrite (nth_indep _ [] (map f [])) by (rewrite length_map; exact Hi).
  rewrite map_nth. apply nth_v_map. exact Hj.
Qed.

Lemma square_row (m : mat) (i : nat) :
  square m -> (i < length m)%nat -> length (nth i m []) = length m.
Proof.
  intros Hs Hi. unfold square in Hs. rewrite Forall_forall in Hs.
  apply Hs. apply nth_In. exact Hi.
Qed.

(** ** Facts on broadcasting *)

Section ZipWith.
Context {X Y Z : Type}.
Variable f : X -> Y -> Z.

Lemma zip_with_length (a : list X) (b : list Y) :
  length a = length b -> length (zip_with f a b) = length a.
Proof.
  revert b. induction a as [| x a IH]; intros [| y b] H; cbn in *;
    try reflexivity; try discriminate.
  f_equal. apply IH. congruence.
Qed.

Lemma zip_with_repeat_r (a : list X) (y : Y) :
  zip_with f a (repeat y (length a)) = map (fun x => f x y) a.
Proof. induction a as [| x a IH]; cbn; [reflexivity | now rewrite IH]. Qed.

Lemma zip_with_repeat_l (x : X) (b : list Y) :
  zip_with f (repeat x (length b)) b = map (f x) b.
Proof. induction b as [| y b IH]; cbn; [reflexivity | now rewrite IH]. Qed.

Lemma nth_zip_with (a : list X) (b : list Y) (i : nat) (dx : X) (dy : Y) (dz : Z) :
  (i < length a)%nat -> (i < length b)%nat ->
  nth i (zip_with f a b) dz = f (nth i a dx) (nth i b dy).
Proof.
  revert b i. induction a as [| x a IH]; intros [| y b] [| i] Ha Hb; cbn in *;
    try lia; try reflexivity.
  apply IH; lia.
Qed.

Lemma Forall_zip_with (P : X -> Prop) (Q : Y -> Prop) (R : Z -> Prop)
      (a : list X) (b : list Y) :
  (forall x y, P x -> Q y -> R (f x y)) ->
  Forall P a -> Forall Q b -> Forall R (zip_with f a b).
Proof.
  intros HR Ha. revert b. induction Ha as [| x a Hx Ha IH]; intros b Hb.
  - constructor.
  - destruct Hb as [| y b Hy Hb]; cbn; constructor; auto.
Qed.

Lemma zip_with_ext_l (g : X -> Y -> Z) (P : X -> Prop) (a : list X) (b : list Y) :
  (forall x y, P x -> f x y = g x y) ->
  Forall P a -> zip_with f a b = zip_with g a b.
Proof.
  intros Hfg Ha. revert b. induction Ha as [| x a Hx Ha IH]; intros [| y b];
    cbn; try reflexivity.
  rewrite Hfg by assumption. f_equal. apply IH.
Qed.
End ZipWith.

Lemma zip_with_map_l {X X' Y Z : Type} (f : X' -> Y -> Z) (g : X -> X')
      (a : list X) (b : list Y) :
  zip_with f (map g a) b = zip_with (fun x y => f (g x) y) a b.
Proof.
  revert b. induction a as [| x a IH]; intros [| y b]; cbn; try reflexivity.
  now rewrite IH.
Qed.

Lemma zip_with_map_r {X Y Y' Z : Type} (f : X -> Y' -> Z) (g : Y -> Y')
      (a : list X) (b : list Y) :
  zip_with f a (map g b) = zip_with (fun x y => f x (g y)) a b.
Proof.
  revert b. induction a as [| x a IH]; intros [| y b]; cbn; try reflexivity.
  now rewrite IH.
Qed.

Lemma bdim_same (n : nat) : bdim n n = Some n.
Proof. unfold bdim. now rewrite Nat.eqb_refl. Qed.

Lemma bdim_1_r (n : nat) : bdim n 1 = Some n.
Proof.
  unfold bdim. destruct (Nat.eqb_spec n 1) as [-> | H]; [reflexivity |].
  reflexivity.
Qed.

Lemma bdim_1_l (n : nat) : bdim 1 n = Some n.
Proof.
  unfold bdim. destruct (Nat.eqb_spec 1 n) as [<- | H]; reflexivity.
Qed.

(** Two axes that differ, none of length [1], do not broadcast. *)
Lemma bdim_mismatch (a b : nat) :
  a <> b -> a <> 1%nat -> b <> 1%nat -> bdim a b = None.
Proof.
  intros Hab Ha Hb. unfold bdim.
  destruct (Nat.eqb_spec a b); [contradiction |].
  destruct (Nat.eqb_spec a 1); [contradiction |].
  destruct (Nat.eqb_spec b 1); [contradiction | reflexivity].
Qed.

Lemma stretch_same {X : Type} (d : X) (n : nat) (l : list X) :
  length l = n -> stretch d n l = l.
Proof. intros H. unfold stretch. rewrite H, Nat.eqb_refl. reflexivity. Qed.

Lemma stretch_single {X : Type} (d : X) (n : nat) (x : X) :
  stretch d n [x] = repeat x n.
Proof.
  unfold stretch. change (length [x]) with 1%nat.
  destruct (Nat.eqb_spec 1 n) as [<- | H]; reflexivity.
Qed.

Lemma bvec_same (f : fval -> fval -> fval) (a b : vec) :
  length a = length b -> bvec f a b = Some (zip_with f a b).
Proof.
  intros H. unfold bvec. rewrite H, bdim_same.
  rewrite !stretch_same by congruence. reflexivity.
Qed.

Lemma shape_rect (r c : nat) (m : mat) :
  rect r c m -> (0 < r)%nat -> shape m = Some (r, c).
Proof.
  intros [Hr Hc] Hpos. destruct m as [| x m]; [cbn in Hr; lia |].
  unfold shape. inversion Hc as [| ? ? Hx Hm]; subst.
  replace (forallb _ m) with true; [reflexivity |].
  symmetry. apply forallb_forall. intros y Hy.
  rewrite Forall_forall in Hm. rewrite (Hm y Hy). apply Nat.eqb_refl.
Qed.

Lemma square_rect (m : mat) : square m -> rect (length m) (length m) m.
Proof. intros H. split; [reflexivity | exact H]. Qed.

Lemma rect_column (v : vec) : rect (length v) 1 (column v).
Proof.
  unfold rect, column. rewrite length_map. split; [reflexivity |].
  rewrite Forall_map. apply Forall_forall. intros; reflexivity.
Qed.

Lemma rect_row (v : vec) : rect 1 (length v) (row v).
Proof. split; [reflexivity | repeat constructor]. Qed.

Lemma rect_map (f : fval -> fval) (r c : nat) (m : mat) :
  rect r c m -> rect r c (map (map f) m).
Proof.
  intros [Hr Hc]. split; [now rewrite length_map |].
  rewrite Forall_map. eapply Forall_impl; [| exact Hc].
  intros x Hx. cbn. now rewrite length_map.
Qed.

(** A matrix and a column of as many rows. *)
Lemma bmat_column (f : fval -> fval -> fval) (r c : nat) (a : mat) (v : vec) :
  (0 < r)%nat -> rect r c a -> length v = r ->
  bmat f a (column v)
  = Some (zip_with (fun x y => map (fun t => f t y) x) a v).
Proof.
  intros Hpos Ha Hv. unfold bmat.
  rewrite (shape_rect r c a Ha Hpos).
  rewrite (shape_rect r 1 (column v));
    [| rewrite <- Hv; apply rect_column | exact Hpos].
  rewrite bdim_same, bdim_1_r.
  destruct Ha as [Hr Hc].
  rewrite !stretch_same by (unfold column; rewrite ?length_map; congruence).
  f_equal. unfold column. rewrite zip_with_map_r.
  apply zip_with_ext_l with (P := fun x => length x = c); [| exact Hc].
  intros x y Hx. rewrite stretch_same by exact Hx.
  rewrite stretch_single. rewrite <- Hx. apply zip_with_repeat_r.
Qed.

(** A column and a row: the outer product. *)
Lemma bmat_column_row (f : fval -> fval -> fval) (o q : vec) :
  (0 < length o)%nat ->
  bmat f (column o) (row q) = Some (map (fun x => map (f x) q) o).
Proof.
  intros Hpos. unfold bmat.
  rewrite (shape_rect (length o) 1 (column o));
    [| apply rect_column | exact Hpos].
  rewrite (shape_rect 1 (length q) (row q)); [| apply rect_row | lia].
  rewrite bdim_1_r, bdim_1_l.
  rewrite stretch_same by (unfold column; now rewrite length_map).
  unfold row. rewrite stretch_single.
  f_equal. unfold column. rewrite zip_with_map_l.
  rewrite (zip_with_repeat_r _ o q).
  apply map_ext. intros x. rewrite stretch_single.
  rewrite stretch_same by reflexivity. apply zip_with_repeat_l.
Qed.

Lemma zip_rows_same (f : fval -> fval -> fval) (c : nat) (a b : mat) :
  Forall (fun x => length x = c) a -> Forall (fun x => length x = c) b ->
  zip_with (fun x y => zip_with f (stretch NaN c x) (stretch NaN c y)) a b
  = zip_with (zip_with f) a b.
Proof.
  intros Ha. revert b. induction Ha as [| x a Hx Ha IH]; intros b Hb;
    destruct Hb as [| y b Hy Hb]; cbn; try reflexivity.
  rewrite !stretch_same by assumption. f_equal. apply IH. exact Hb.
Qed.

(** Two matrices of one shape. *)
Lemma bmat_same (f : fval -> fval -> fval) (r c : nat) (a b : mat) :
  (0 < r)%nat -> rect r c a -> rect r c b ->
  bmat f a b = Some (zip_with (zip_with f) a b).
Proof.
  intros Hpos Ha Hb. unfold bmat.
  rewrite (shape_rect r c a Ha Hpos), (shape_rect r c b Hb Hpos).
  rewrite !bdim_same. destruct Ha as [Hra Hca]. destruct Hb as [Hrb Hcb].
  rewrite !stretch_same by assumption. f_equal.
  apply zip_rows_same; assumption.
Qed.

(** Two square matrices of sizes that differ, none of them [1 x 1], do not
    broadcast: NumPy raises. *)
Lemma bmat_mismatch (f : fval -> fval -> fval) (ra ca rb cb : nat) (a b : mat) :
  shape a = Some (ra, ca) -> shape b = Some (rb, cb) ->
  ra <> rb -> ra <> 1%nat -> rb <> 1%nat ->
  bmat f a b = None.
Proof.
  intros Ha Hb H1 H2 H3. unfold bmat. rewrite Ha, Hb.
  now rewrite (bdim_mismatch ra rb).
Qed.

(** ** Facts on the loop *)

Lemma bdim_sym (a b : nat) : bdim a b = bdim b a.
Proof.
  unfold bdim. rewrite (Nat.eqb_sym b a).
  destruct (Nat.eqb_spec a b) as [-> | Hab]; [reflexivity |].
  destruct (Nat.eqb_spec a 1) as [-> | Ha];
    destruct (Nat.eqb_spec b 1) as [-> | Hb]; reflexivity.
Qed.

Lemma bvec_some_iff (f : fval -> fval -> fval) (a b : vec) :
  bvec f a b <> None <-> bdim (length a) (length b) <> None.
Proof.
  unfold bvec. destruct (bdim (length a) (length b)); split; intros H;
    try discriminate; try assumption; contradiction.
Qed.

Lemma length_scale (a : R) (v : vec) : length (scale a v) = length v.
Proof. unfold scale. apply length_map. Qed.

(** Where [x - x_new] broadcasts, so does the blend of [x_new] and [x]. *)
Lemma blend_after_residual (alpha : R) (x x_new d : vec) :
  bvec fsub x x_new = Some d -> exists y, blend alpha x_new x = Some y.
Proof.
  intros H. unfold blend.
  assert (Hd : bvec fadd (scale alpha x_new) (scale (1 - alpha) x) <> None).
  { apply bvec_some_iff. rewrite !length_scale, bdim_sym.
    apply (bvec_some_iff fsub). congruence. }
  destruct (bvec fadd _ _) as [y |]; [eauto | contradiction].
Qed.

Lemma track_best_A (s : loop_state) (u_new A_new : vec) (d : fval) :
  A (track_best s u_new A_new d) = A s /\ u (track_best s u_new A_new d) = u s.
Proof. unfold track_best. destruct (fltb d (best_diff s)); split; reflexivity. Qed.

(** The [except] branch is taken only when the computation of lines 95-108
    raises, and then no variable of the loop has changed. *)
Lemma iteration_except_inv (L w : vec) (T : mat) (N : nat) (s s' : loop_state) :
  iteration L w T N s = Except s' ->
  compute_updates L w T N s = None /\ s' = s.
Proof.
  unfold iteration. intros H.
  destruct (compute_updates L w T N s) as [[[[c u_new] A_new] d] |] eqn:Hc.
  - exfalso. unfold compute_updates, bind in Hc.
    destruct (combined_terms T w (A s) N) as [c0 |]; [| discriminate].
    destruct (update_A L w (u s)) as [a0 |]; [| discriminate].
    destruct (residual (A s) a0 (u s) (update_u c0)) as [d0 |] eqn:Hr; [| discriminate].
    injection Hc as <- <- <- <-.
    unfold residual, bind in Hr.
    destruct (bvec fsub (A s) a0) as [dA |] eqn:HdA; [| discriminate].
    destruct (bvec fsub (u s) (update_u c0)) as [dU |] eqn:HdU; [| discriminate].
    destruct (track_best_A s (update_u c0) a0 d0) as [HA Hu].
    destruct (blend_after_residual (alpha_update (iter_count s)) _ _ _ HdA) as [ya Hya].
    destruct (blend_after_residual (alpha_update (iter_count s)) _ _ _ HdU) as [yu Hyu].
    rewrite HA, Hya in H. cbn [u set_A] in H. rewrite Hu, Hyu in H.
    destruct (50 <? _)%nat; discriminate.
  - injection H as <-. split; reflexivity.
Qed.

Lemma tol_lt_1 : tol < 1.
Proof. unfold tol. lra. Qed.

Lemma loop_cond_init (N : nat) : loop_cond (init_state N) = true.
Proof.
  unfold loop_cond, init_state, fgtb. cbn.
  rewrite (Rltb_true _ _ tol_lt_1). reflexivity.
Qed.

Lemma length_ones (N : nat) : length (ones N) = N.
Proof. apply repeat_length. Qed.

Lemma length_nan_to_num (v : vec) (x : fval) : length (nan_to_num v x) = length v.
Proof. unfold nan_to_num. apply length_map. Qed.

Lemma length_normalize (v : vec) : length (normalize v) = length v.
Proof. unfold normalize. apply length_map. Qed.

Lemma repair_length (L w : vec) :
  length (fst (fst (repair L w))) = length L /\
  length (snd (fst (repair L w))) = length w.
Proof.
  unfold repair. destruct (_ || _); cbn; rewrite ?length_nan_to_num; split; reflexivity.
Qed.

Lemma run_year_unfold (L w : vec) (T : mat) (N : nat) :
  run_year L w T N
  = option_map use_best
      (while_loop year_fuel (fst (prepared L w)) (snd (prepared L w)) T N (init_state N)).
Proof. unfold run_year, prepared. destruct (repair L w) as [[L1 w1] b]. reflexivity. Qed.

Lemma year_history_unfold (L w : vec) (T : mat) (N : nat) :
  year_history L w T N
  = loop_history year_fuel (fst (prepared L w)) (snd (prepared L w)) T N (init_state N).
Proof. unfold year_history, prepared. destruct (repair L w) as [[L1 w1] b]. reflexivity. Qed.

Lemma invert_year_unfold (L w : vec) (T : mat) (N : nat) :
  invert_year L w T N
  = if (length L =? 0)%nat || (length w =? 0)%nat then Raised
    else match run_year L w T N with
         | None => Raised
         | Some s =>
             if (length (A s) =? N)%nat && (length (u s) =? N)%nat
             then Done (mkOutput (A s) (u s) (iter_count s) (diff s)
                                 (snd (repair L w)))
             else Raised
         end.
Proof. unfold invert_year. destruct (repair L w) as [[L1 w1] b]. reflexivity. Qed.

(** A year whose first iteration raises: nothing was recorded, the initial
    vectors are written. *)
Lemma invert_year_first_raises (L w : vec) (T : mat) (N : nat) :
  (0 < N)%nat -> length L = N -> length w = N ->
  compute_updates (fst (prepared L w)) (snd (prepared L w)) T N (init_state N) = None ->
  invert_year L w T N
  = Done (mkOutput (ones N) (ones N) 0 (Fin 1) (snd (repair L w))).
Proof.
  intros HN HL Hw Hc. rewrite invert_year_unfold, run_year_unfold.
  rewrite HL, Hw.
  destruct (Nat.eqb_spec N 0) as [-> | _]; [lia |]. cbn [orb].
  unfold year_fuel. cbn [while_loop]. rewrite loop_cond_init.
  unfold iteration. rewrite Hc. cbn [option_map].
  unfold use_best, init_state. cbn.
  rewrite length_ones, Nat.eqb_refl. reflexivity.
Qed.

Lemma forallb_rows_map (f : fval -> fval) (c : nat) (m : mat) :
  forallb (fun r' => (length r' =? c)%nat) (map (map f) m)
  = forallb (fun r' => (length r' =? c)%nat) m.
Proof.
  induction m as [| x m IH]; [reflexivity |].
  cbn [map forallb]. now rewrite length_map, IH.
Qed.

Lemma shape_map (f : fval -> fval) (m : mat) : shape (map (map f) m) = shape m.
Proof.
  destruct m as [| x m]; [reflexivity |]. unfold shape. cbn [map].
  rewrite length_map, forallb_rows_map. cbn [length]. now rewrite length_map.
Qed.

Lemma shape_square (m : mat) : square m -> shape m = Some (length m, length m).
Proof.
  intros H. destruct m as [| x m]; [reflexivity |].
  apply shape_rect; [apply square_rect; exact H | cbn; lia].
Qed.

(** Lines 95-99 raise when [T] has neither [N] rows nor one row. *)
Lemma combined_terms_mismatch (T : mat) (w A0 : vec) (N M C : nat) :
  shape T = Some (M, C) -> length w = N -> length A0 = N ->
  (1 < N)%nat -> M <> N -> M <> 1%nat ->
  combined_terms T w A0 N = None.
Proof.
  intros HT Hw HA HN HMN HM1. unfold combined_terms, bind.
  rewrite bvec_same by (rewrite length_ones; exact Hw).
  rewrite bvec_same by congruence.
  rewrite bmat_column_row by (rewrite length_ones; lia).
  rewrite (bmat_mismatch fmul M C N 1); try assumption; try lia; try reflexivity.
  - unfold clipm, clipv. rewrite !shape_map. exact HT.
  - apply shape_rect; [| lia].
    replace N with (length (clipv (map (fun x => powZ x (sigma - 1))
                                       (zip_with fmul w (ones N))))) at 1.
    + apply rect_column.
    + unfold clipv. rewrite !length_map, zip_with_length;
        [exact Hw | rewrite length_ones; exact Hw].
Qed.

(** ** Facts on the comparisons *)

Ltac fcmp :=
  repeat match goal with
         | x : fval |- _ => destruct x
         end;
  cbn in *; unfold Rltb, Rleb in *;
  repeat match goal with
         | |- context [Rlt_dec ?a ?b] => destruct (Rlt_dec a b)
         | |- context [Rle_dec ?a ?b] => destruct (Rle_dec a b)
         | H : context [Rlt_dec ?a ?b] |- _ => destruct (Rlt_dec a b)
         | H : context [Rle_dec ?a ?b] |- _ => destruct (Rle_dec a b)
         end;
  try reflexivity; try discriminate; try contradiction; try (exfalso; lra);
  try lra.

Lemma fltb_not_nan_l (x y : fval) : fltb x y = true -> x <> NaN.
Proof. intros H E. subst x. discriminate. Qed.

Lemma fleb_refl (x : fval) : x <> NaN -> fleb x x = true.
Proof. intros H. destruct x; try reflexivity; [| contradiction]. fcmp. Qed.

Lemma fltb_fleb (x y : fval) : fltb x y = true -> fleb x y = true.
Proof. intros H. fcmp. Qed.

Lemma fleb_trans (x y z : fval) :
  fleb x y = true -> fleb y z = true -> fleb x z = true.
Proof. intros H1 H2. fcmp. Qed.

(** Nothing below a bound stays below a smaller bound. *)
Lemma fltb_false_lower (x b d : fval) :
  fltb x b = false -> fltb d b = true -> fltb x d = false.
Proof. intros H1 H2. fcmp. Qed.

Lemma fltb_irrefl (x : fval) : fltb x x = false.
Proof. fcmp. Qed.

Lemma fleb_fgtb (x y : fval) : fleb x y = true -> fgtb x y = false.
Proof. unfold fgtb. intros H. fcmp. Qed.

(** ** The body of the loop, case by case *)

Lemma iteration_cases (L w : vec) (T : mat) (N : nat) (s : loop_state) :
  (compute_updates L w T N s = None /\ iteration L w T N s = Except s) \/
  (exists c u_new A_new d a b,
      compute_updates L w T N s = Some (c, u_new, A_new, d) /\
      blend (alpha_update (iter_count s)) A_new (A s) = Some a /\
      blend (alpha_update (iter_count s)) u_new (u s) = Some b /\
      let s3 := after_iteration s u_new A_new d a b in
      iteration L w T N s
      = if (50 <? no_improvement_count s3)%nat
        then EarlyStop s3 else Continue (next_iter s3)).
Proof.
  destruct (iteration L w T N s) as [s' | s' | s'] eqn:Hit.
  3: { left. apply iteration_except_inv in Hit. destruct Hit as [Hc ->].
       split; [exact Hc | reflexivity]. }
  all: right; unfold iteration in Hit;
    destruct (compute_updates L w T N s) as [[[[c u_new] A_new] d] |] eqn:Hc;
      [| discriminate];
    destruct (track_best_A s u_new A_new d) as [HA Hu];
    rewrite HA in Hit;
    destruct (blend (alpha_update (iter_count s)) A_new (A s)) as [a |] eqn:Ha;
      [| discriminate];
    cbn [u set_A] in Hit; rewrite Hu in Hit;
    destruct (blend (alpha_update (iter_count s)) u_new (u s)) as [b |] eqn:Hb;
      [| discriminate];
    exists c, u_new, A_new, d, a, b;
    split; [first [reflexivity | assumption] |];
    split; [first [reflexivity | assumption] |];
    split; [first [reflexivity | assumption] |];
    cbn zeta; unfold after_iteration; symmetry; exact Hit.
Qed.

Lemma after_iteration_fields (s : loop_state) (u_new A_new : vec) (d : fval) (a b : vec) :
  let s3 := after_iteration s u_new A_new d a b in
  A s3 = a /\ u s3 = b /\ diff s3 = d /\ iter_count s3 = iter_count s /\
  best_diff s3 = best_diff (track_best s u_new A_new d) /\
  best_A s3 = best_A (track_best s u_new A_new d) /\
  best_u s3 = best_u (track_best s u_new A_new d) /\
  no_improvement_count s3 = no_improvement_count (track_best s u_new A_new d).
Proof.
  unfold after_iteration, set_u, set_A, track_best.
  destruct (fltb d (best_diff s)); cbn; repeat split; reflexivity.
Qed.

Lemma iteration_continue_inv (L w : vec) (T : mat) (N : nat) (s s' : loop_state) :
  iteration L w T N s = Continue s' ->
  iter_count s' = S (iter_count s) /\ (no_improvement_count s' <= 50)%nat.
Proof.
  intros H. destruct (iteration_cases L w T N s) as [[_ He] | Hc].
  - rewrite He in H. discriminate.
  - destruct Hc as (c & u_new & A_new & d & a & b & _ & _ & _ & Hit).
    cbn zeta in Hit. rewrite Hit in H.
    destruct (Nat.ltb_spec 50 (no_improvement_count (after_iteration s u_new A_new d a b)))
      as [Hlt | Hge]; [discriminate |].
    injection H as <-.
    destruct (after_iteration_fields s u_new A_new d a b) as (_ & _ & _ & Hic & _).
    unfold next_iter. cbn [iter_count no_improvement_count].
    split; [now rewrite Hic | exact Hge].
Qed.

Lemma iteration_earlystop_inv (L w : vec) (T : mat) (N : nat) (s s' : loop_state) :
  iteration L w T N s = EarlyStop s' ->
  iter_count s' = iter_count s /\ (50 < no_improvement_count s')%nat.
Proof.
  intros H. destruct (iteration_cases L w T N s) as [[_ He] | Hc].
  - rewrite He in H. discriminate.
  - destruct Hc as (c & u_new & A_new & d & a & b & _ & _ & _ & Hit).
    cbn zeta in Hit. rewrite Hit in H.
    destruct (Nat.ltb_spec 50 (no_improvement_count (after_iteration s u_new A_new d a b)))
      as [Hlt | Hge]; [| discriminate].
    injection H as <-.
    destruct (after_iteration_fields s u_new A_new d a b) as (_ & _ & _ & Hic & _).
    split; [exact Hic | exact Hlt].
Qed.

Lemma loop_cond_true (s : loop_state) :
  loop_cond s = true ->
  fgtb (diff s) (Fin tol) = true /\ (iter_count s < max_iter)%nat.
Proof.
  unfold loop_cond. intros H. apply andb_prop in H. destruct H as [H1 H2].
  split; [exact H1 | now apply Nat.ltb_lt].
Qed.

Lemma loop_cond_false (s : loop_state) :
  loop_cond s = false ->
  fgtb (diff s) (Fin tol) = false \/ (max_iter <= iter_count s)%nat.
Proof.
  unfold loop_cond. intros H. apply andb_false_iff in H. destruct H as [H | H].
  - left. exact H.
  - right. now apply Nat.ltb_ge.
Qed.

(** ** Termination of the loop *)

Lemma while_loop_total (L w : vec) (T : mat) (N : nat) (fuel : nat) :
  forall s : loop_state,
    (iter_count s <= max_iter)%nat ->
    (max_iter - iter_count s < fuel)%nat ->
    exists s_end,
      (forall fuel', (fuel <= fuel')%nat -> while_loop fuel' L w T N s = Some s_end) /\
      (iter_count s_end <= max_iter)%nat /\
      stopped L w T N s_end.
Proof.
  induction fuel as [| fuel IH]; intros s Hle Hfuel; [lia |].
  destruct (loop_cond s) eqn:Hcond.
  - destruct (loop_cond_true s Hcond) as [_ Hlt].
    destruct (iteration L w T N s) as [s1 | s1 | s1] eqn:Hit.
    + destruct (iteration_continue_inv L w T N s s1 Hit) as [Hic _].
      destruct (IH s1) as (s_end & Hrun & Hend); [lia | lia |].
      exists s_end. split; [| exact Hend].
      intros [| fuel'] Hf; [lia |]. cbn [while_loop]. rewrite Hcond, Hit.
      apply Hrun. lia.
    + destruct (iteration_earlystop_inv L w T N s s1 Hit) as [Hic Hno].
      exists s1. split; [| split].
      * intros [| fuel'] Hf; [lia |]. cbn [while_loop]. now rewrite Hcond, Hit.
      * lia.
      * right. right. left. exact Hno.
    + destruct (iteration_except_inv L w T N s s1 Hit) as [Hc ->].
      exists s. split; [| split].
      * intros [| fuel'] Hf; [lia |]. cbn [while_loop]. now rewrite Hcond, Hit.
      * exact Hle.
      * right. right. right. exact Hc.
  - exists s. split; [| split].
    + intros [| fuel'] Hf; [lia |]. cbn [while_loop]. now rewrite Hcond.
    + exact Hle.
    + destruct (loop_cond_false s Hcond) as [H | H].
      * left. exact H.
      * right. left. lia.
Qed.

(** ** Tracking of the best iterate *)

Lemma best_inv_ext (seen : list iter_event) (s s' : loop_state) :
  best_diff s' = best_diff s -> best_A s' = best_A s -> best_u s' = best_u s ->
  best_inv seen s -> best_inv seen s'.
Proof. unfold best_inv. intros -> -> ->. trivial. Qed.

Lemma best_inv_init (N : nat) : best_inv [] (init_state N).
Proof.
  unfold best_inv, init_state. cbn. repeat split; try discriminate; intros e [].
Qed.

Lemma track_best_step (seen : list iter_event) (s : loop_state) (c : mat)
      (u_new A_new : vec) (d : fval) :
  best_inv seen s ->
  let s1 := track_best s u_new A_new d in
  let e := mkEvent (A s) (u s) c A_new u_new d (best_diff s1) in
  best_inv (seen ++ [e]) s1 /\ fleb (best_diff s1) (best_diff s) = true.
Proof.
  intros (Hnan & Hlow & Hmono & Hpair) s1 e.
  subst e s1. unfold track_best. destruct (fltb d (best_diff s)) eqn:Hlt; cbn.
  - split; [| now apply fltb_fleb].
    pose proof (fltb_not_nan_l _ _ Hlt) as Hd.
    unfold best_inv. cbn. split; [exact Hd |]. split; [| split].
    + intros e' He'. apply in_app_or in He'. destruct He' as [He' | [<- | []]].
      * apply (fltb_false_lower _ (best_diff s)); auto.
      * cbn. apply fltb_irrefl.
    + intros e' He'. apply in_app_or in He'. destruct He' as [He' | [<- | []]].
      * apply (fleb_trans _ (best_diff s)); [now apply fltb_fleb | auto].
      * cbn. now apply fleb_refl.
    + eexists. split; [apply in_or_app; right; left; reflexivity |].
      cbn. repeat split.
  - split; [| now apply fleb_refl].
    unfold best_inv. cbn. split; [exact Hnan |]. split; [| split].
    + intros e' He'. apply in_app_or in He'. destruct He' as [He' | [<- | []]].
      * auto.
      * cbn. exact Hlt.
    + intros e' He'. apply in_app_or in He'. destruct He' as [He' | [<- | []]].
      * auto.
      * cbn. now apply fleb_refl.
    + destruct (best_A s), (best_u s); try assumption.
      destruct Hpair as (e0 & Hin & H0). exists e0.
      split; [apply in_or_app; now left | exact H0].
Qed.

Lemma compute_updates_residual (L w : vec) (T : mat) (N : nat) (s : loop_state)
      (c : mat) (u_new A_new : vec) (d : fval) :
  compute_updates L w T N s = Some (c, u_new, A_new, d) ->
  residual (A s) A_new (u s) u_new = Some d.
Proof.
  unfold compute_updates, bind. intros H.
  destruct (combined_terms T w (A s) N) as [c0 |]; [| discriminate].
  destruct (update_A L w (u s)) as [a0 |]; [| discriminate].
  destruct (residual (A s) a0 (u s) (update_u c0)) as [d0 |] eqn:Hr; [| discriminate].
  injection H as <- <- <- <-. exact Hr.
Qed.

Lemma residual_inv (a a_new b b_new : vec) (d : fval) :
  residual a a_new b b_new = Some d ->
  exists dA dU, bvec fsub a a_new = Some dA /\ bvec fsub b b_new = Some dU /\
                d = fadd (norm dA) (norm dU).
Proof.
  unfold residual, bind. intros H.
  destruct (bvec fsub a a_new) as [dA |]; [| discriminate].
  destruct (bvec fsub b b_new) as [dU |]; [| discriminate].
  injection H as <-. exists dA, dU. repeat split.
Qed.

(** The history of a loop against its final state. *)
Lemma loop_history_inv (L w : vec) (T : mat) (N : nat) (fuel : nat) :
  forall (s s_end : loop_state) (seen : list iter_event),
    best_inv seen s ->
    while_loop fuel L w T N s = Some s_end ->
    let H := loop_history fuel L w T N s in
    best_inv (seen ++ H) s_end /\
    non_increasing (map ev_best_diff H) /\
    (forall e, In e H -> fleb (ev_best_diff e) (best_diff s) = true) /\
    (forall e, In e H ->
               residual (ev_A e) (ev_A_new e) (ev_u e) (ev_u_new e) = Some (ev_diff e)).
Proof.
  induction fuel as [| fuel IH]; intros s s_end seen Hinv Hrun; [discriminate |].
  cbn [while_loop loop_history] in *.
  destruct (loop_cond s) eqn:Hcond.
  2: { injection Hrun as <-. cbn. rewrite app_nil_r.
       split; [exact Hinv |]. split; [constructor |]. split; intros e []. }
  destruct (iteration_cases L w T N s) as [[Hc Hit] | Hs].
  { rewrite Hit in Hrun. injection Hrun as <-. rewrite Hc. cbn. rewrite app_nil_r.
    split; [exact Hinv |]. split; [constructor |]. split; intros e []. }
  destruct Hs as (c & u_new & A_new & d & a & b & Hc & Ha & Hb & Hit).
  cbn zeta in Hit. rewrite Hc.
  pose proof (compute_updates_residual _ _ _ _ _ _ _ _ _ Hc) as Hres.
  destruct (track_best_step seen s c u_new A_new d Hinv) as [Hinv1 Hle].
  cbn zeta in Hinv1.
  destruct (after_iteration_fields s u_new A_new d a b)
    as (_ & _ & _ & _ & Hbd & HbA & Hbu & _).
  set (s3 := after_iteration s u_new A_new d a b) in *.
  set (e := mkEvent (A s) (u s) c A_new u_new d
                    (best_diff (track_best s u_new A_new d))) in *.
  assert (Hinv3 : best_inv (seen ++ [e]) s3)
    by (apply (best_inv_ext _ (track_best s u_new A_new d)); assumption).
  assert (Hnan3 : best_diff s3 <> NaN) by apply Hinv3.
  rewrite Hit in *.
  destruct (50 <? no_improvement_count s3)%nat.
  - injection Hrun as <-. cbn zeta. repeat split.
    + exact (proj1 Hinv3).
    + apply Hinv3.
    + apply Hinv3.
    + apply Hinv3.
    + cbn. repeat constructor.
    + intros e' [<- | []]. cbn. exact Hle.
    + intros e' [<- | []]. cbn. exact Hres.
  - assert (Hinv4 : best_inv (seen ++ [e]) (next_iter s3))
      by (apply (best_inv_ext _ s3); try reflexivity; exact Hinv3).
    destruct (IH (next_iter s3) s_end (seen ++ [e]) Hinv4 Hrun)
      as (Hend & Hsorted & Hbelow & Hresid).
    cbn zeta. rewrite <- app_assoc in Hend. cbn [app] in Hend.
    split; [exact Hend |]. split; [| split].
    + cbn [map]. constructor; [exact Hsorted |].
      apply Forall_forall. intros x Hx. apply in_map_iff in Hx.
      destruct Hx as (e' & <- & He'). cbn [ev_best_diff e].
      rewrite <- Hbd. apply (Hbelow e' He').
    + intros e' [<- | He'].
      * cbn. exact Hle.
      * apply (fleb_trans _ (best_diff s3)).
        -- apply (Hbelow e' He').
        -- rewrite Hbd. exact Hle.
    + intros e' [<- | He'].
      * cbn. exact Hres.
      * apply (Hresid e' He').
Qed.

(** ** Facts on the arithmetic *)

Lemma lo_pos : 0 < lo.
Proof. unfold lo. lra. Qed.

Lemma lo_le_hi : lo <= hi.
Proof. unfold lo, hi. lra. Qed.

Lemma fmul_1_l (x : fval) : fmul (Fin 1) x = x.
Proof.
  destruct x as [r | | |]; cbn; try reflexivity.
  - now rewrite Rmult_1_l.
  - unfold inf_times. rewrite Reqb_false by lra. now rewrite Rltb_true by lra.
  - unfold inf_times. rewrite Reqb_false by lra. now rewrite Rltb_true by lra.
Qed.

Lemma fmul_1_r (x : fval) : fmul x (Fin 1) = x.
Proof.
  destruct x as [r | | |]; cbn; try reflexivity.
  - now rewrite Rmult_1_r.
  - unfold inf_times. rewrite Reqb_false by lra. now rewrite Rltb_true by lra.
  - unfold inf_times. rewrite Reqb_false by lra. now rewrite Rltb_true by lra.
Qed.

Lemma in_range_fin (x : fval) : in_range x -> exists r, x = Fin r /\ lo <= r <= hi.
Proof. destruct x as [r | | |]; cbn; try contradiction. eauto. Qed.

Lemma in_range_pos (x : fval) : in_range x -> fin_pos x.
Proof.
  intros H. apply in_range_fin in H. destruct H as (r & -> & H).
  cbn. pose proof lo_pos. lra.
Qed.

Lemma clip_in_range (x : fval) : x <> NaN -> in_range (clip x lo hi).
Proof.
  pose proof lo_le_hi as Hlh.
  intros H. destruct x as [r | | |]; cbn; try contradiction.
  - apply (Rclip_bounds r lo hi Hlh).
  - apply (Rclip_bounds hi lo hi Hlh).
  - rewrite Rmin_left by exact Hlh. lra.
Qed.

Lemma powZ_notnan (x : fval) (n : Z) : x <> NaN -> powZ x n <> NaN.
Proof.
  intros H. unfold powZ. destruct (n =? 0)%Z; [discriminate |].
  destruct x as [r | | |]; try contradiction.
  - destruct (Reqb r 0 && (n <? 0)%Z); discriminate.
  - destruct (0 <? n)%Z; discriminate.
  - destruct (0 <? n)%Z; [destruct (Z.even n) |]; discriminate.
Qed.

Lemma fdiv_pos_nonneg (a b : fval) : fin_pos a -> fin_nonneg b -> fdiv a b <> NaN.
Proof.
  destruct a as [x | | |], b as [y | | |]; cbn; try contradiction.
  intros Hx Hy. unfold Reqb.
  destruct (Req_dec_T y 0); [| discriminate].
  destruct (Req_dec_T x 0); [lra |].
  rewrite Rltb_true by exact Hx. discriminate.
Qed.

Lemma powR_pos (r y : R) : 0 < r -> powR (Fin r) y = Fin (Rpower r y).
Proof.
  intros H. cbn. rewrite Rltb_false by lra. now rewrite Reqb_false by lra.
Qed.

Lemma powR_nonneg_notnan (x : fval) (y : R) : fin_nonneg x -> 0 < y -> powR x y <> NaN.
Proof.
  destruct x as [r | | |]; cbn; try contradiction. intros Hr Hy.
  rewrite Rltb_false by lra. unfold Reqb. destruct (Req_dec_T r 0).
  - rewrite Rltb_true by exact Hy. discriminate.
  - discriminate.
Qed.

Lemma exponent_A_pos : 0 < 1 / IZR (sigma - 1).
Proof. unfold sigma. cbn. lra. Qed.

Lemma powZ_nonneg (r : R) (n : Z) :
  0 <= r -> (0 < n)%Z -> exists p, powZ (Fin r) n = Fin p /\ 0 <= p.
Proof.
  intros Hr Hn. unfold powZ.
  destruct (Z.eqb_spec n 0) as [-> | _]; [lia |].
  destruct (Z.ltb_spec n 0) as [Hneg | _]; [lia |]. rewrite andb_false_r.
  exists (powerRZ r n). split; [reflexivity |].
  destruct n as [| p | p]; try lia. cbn [powerRZ]. apply pow_le. exact Hr.
Qed.

Lemma powZ_pos (r : R) (n : Z) :
  0 < r -> (0 < n)%Z -> exists p, powZ (Fin r) n = Fin p /\ 0 < p.
Proof.
  intros Hr Hn. unfold powZ.
  destruct (Z.eqb_spec n 0) as [-> | _]; [lia |].
  destruct (Z.ltb_spec n 0) as [Hneg | _]; [lia |]. rewrite andb_false_r.
  exists (powerRZ r n). split; [reflexivity |].
  apply powerRZ_lt. exact Hr.
Qed.

(** *** Sums and means of finite values *)

Lemma fsum_fin (v : vec) :
  Forall (fun x => isfinite x = true) v -> fsum v = Fin (Rsum v).
Proof.
  induction 1 as [| x v Hx Hv IH]; [reflexivity |].
  unfold fsum, Rsum in *. cbn [fold_right]. rewrite IH.
  destruct x; try discriminate. reflexivity.
Qed.

Lemma Rsum_bounds (a b : R) (v : vec) :
  Forall (fun x => a <= Rval x <= b) v ->
  INR (length v) * a <= Rsum v <= INR (length v) * b.
Proof.
  induction 1 as [| x v Hx Hv IH].
  - cbn. lra.
  - change (length (x :: v)) with (S (length v)). rewrite S_INR.
    unfold Rsum in *. cbn [fold_right]. lra.
Qed.

Lemma Rsum_nonneg (v : vec) : Forall fin_nonneg v -> 0 <= Rsum v.
Proof.
  induction 1 as [| x v Hx Hv IH]; [cbn; lra |].
  unfold Rsum in *. cbn [fold_right].
  destruct x; cbn in *; try contradiction. lra.
Qed.

Lemma Rsum_pos (v : vec) : Forall fin_nonneg v -> Exists fin_pos v -> 0 < Rsum v.
Proof.
  intros Hall Hex. induction Hall as [| x v Hx Hv IH]; [inversion Hex |].
  pose proof (Rsum_nonneg v Hv) as Hs.
  unfold Rsum in *. cbn [fold_right].
  destruct x as [r | | |]; cbn in Hx; try contradiction. cbn [Rval].
  inversion Hex as [? ? Hp | ? ? Hp]; subst.
  - cbn in Hp. lra.
  - specialize (IH Hp). lra.
Qed.

Lemma fin_nonneg_finite (v : vec) :
  Forall fin_nonneg v -> Forall (fun x => isfinite x = true) v.
Proof.
  intros H. eapply Forall_impl; [| exact H].
  intros x Hx. destruct x; cbn in *; try contradiction. reflexivity.
Qed.

Lemma fin_pos_nonneg (v : vec) : Forall fin_pos v -> Forall fin_nonneg v.
Proof.
  intros H. eapply Forall_impl; [| exact H].
  intros x Hx. destruct x; cbn in *; try contradiction. lra.
Qed.

Lemma Forall_pos_Exists (v : vec) : v <> [] -> Forall fin_pos v -> Exists fin_pos v.
Proof.
  intros Hne H. destruct H as [| x v Hx Hv]; [contradiction |]. now left.
Qed.

Lemma INR_length_pos (v : vec) : v <> [] -> 0 < INR (length v).
Proof.
  intros H. destruct v as [| x v]; [contradiction |].
  change (length (x :: v)) with (S (length v)). rewrite S_INR.
  pose proof (pos_INR (length v)). lra.
Qed.

(** The mean of a vector of non-negative numbers, one of them positive. *)
Lemma mean_pos (v : vec) :
  Forall fin_nonneg v -> Exists fin_pos v ->
  mean v = Fin (Rsum v / INR (length v)) /\ 0 < Rsum v / INR (length v).
Proof.
  intros Hall Hex.
  assert (Hne : v <> []) by (intros ->; inversion Hex).
  pose proof (INR_length_pos v Hne) as Hn.
  pose proof (Rsum_pos v Hall Hex) as Hs.
  unfold mean. rewrite (fsum_fin v (fin_nonneg_finite v Hall)).
  rewrite fdiv_fin by lra. split; [reflexivity |].
  apply Rdiv_lt_0_compat; assumption.
Qed.

Lemma in_range_Rval (v : vec) :
  Forall in_range v -> Forall (fun x => lo <= Rval x <= hi) v.
Proof.
  intros H. eapply Forall_impl; [| exact H].
  intros x Hx. destruct x; cbn in *; try contradiction. exact Hx.
Qed.

Lemma in_range_all_pos (v : vec) : Forall in_range v -> Forall fin_pos v.
Proof. intros H. eapply Forall_impl; [| exact H]. apply in_range_pos. Qed.

(** The mean of clipped values lies between the bounds. *)
Lemma mean_in_range (v : vec) : v <> [] -> Forall in_range v -> in_range (mean v).
Proof.
  intros Hne Hv.
  pose proof (INR_length_pos v Hne) as Hn.
  pose proof (Rsum_bounds lo hi v (in_range_Rval v Hv)) as [Hlo Hhi].
  unfold mean.
  rewrite (fsum_fin v (fin_nonneg_finite v (fin_pos_nonneg v (in_range_all_pos v Hv)))).
  rewrite fdiv_fin by lra. cbn. split.
  - apply Rmult_le_reg_r with (r := INR (length v)); [exact Hn |].
    unfold Rdiv. rewrite Rmult_assoc, Rinv_l by lra. lra.
  - apply Rmult_le_reg_r with (r := INR (length v)); [exact Hn |].
    unfold Rdiv. rewrite Rmult_assoc, Rinv_l by lra. lra.
Qed.

Lemma Rsum_div (m : R) (v : vec) :
  m <> 0 -> Forall fin_nonneg v ->
  Rsum (map (fun x => fdiv x (Fin m)) v) = Rsum v / m.
Proof.
  intros Hm Hv. induction Hv as [| x v Hx Hv IH].
  - cbn. field. exact Hm.
  - unfold Rsum in *. cbn [map fold_right]. rewrite IH.
    destruct x as [r | | |]; cbn in Hx; try contradiction.
    rewrite fdiv_fin by exact Hm. cbn [Rval]. field. exact Hm.
Qed.

(** [x / np.mean(x)]: positive entries stay positive and their mean
    becomes [1]. *)
Lemma divide_by_mean (v : vec) :
  v <> [] -> Forall fin_pos v ->
  normalized (length v) (map (fun x => fdiv x (mean v)) v).
Proof.
  intros Hne Hv.
  pose proof (fin_pos_nonneg v Hv) as Hnn.
  destruct (mean_pos v Hnn (Forall_pos_Exists v Hne Hv)) as [Hmean Hm].
  pose proof (INR_length_pos v Hne) as Hn.
  set (m := Rsum v / INR (length v)) in *.
  rewrite Hmean.
  assert (Hpos : Forall fin_pos (map (fun x => fdiv x (Fin m)) v)).
  { rewrite Forall_map. eapply Forall_impl; [| exact Hv].
    intros x Hx. destruct x as [r | | |]; cbn in Hx; try contradiction.
    rewrite fdiv_fin by lra. cbn. apply Rdiv_lt_0_compat; assumption. }
  split; [split |].
  - apply length_map.
  - exact Hpos.
  - unfold mean. rewrite (fsum_fin _ (fin_nonneg_finite _ (fin_pos_nonneg _ Hpos))).
    rewrite length_map, fdiv_fin by lra. f_equal.
    rewrite Rsum_div; [| lra | exact Hnn].
    unfold m. field. split; [lra |].
    pose proof (Rsum_pos v Hnn (Forall_pos_Exists v Hne Hv)). lra.
Qed.

(** ** The update when all the shapes agree *)

Lemma nth_v_zip_with (f : fval -> fval -> fval) (a b : vec) (i : nat) :
  (i < length a)%nat -> (i < length b)%nat ->
  nth_v (zip_with f a b) i = f (nth_v a i) (nth_v b i).
Proof. intros Ha Hb. unfold nth_v. now apply nth_zip_with. Qed.

Lemma nth_v_ones (N i : nat) : (i < N)%nat -> nth_v (ones N) i = Fin 1.
Proof.
  intros H. unfold nth_v, ones. apply nth_repeat_lt. exact H.
Qed.

Lemma rect_nth_row (r c : nat) (m : mat) (i : nat) :
  rect r c m -> (i < r)%nat -> length (nth i m []) = c.
Proof.
  intros [Hr Hc] Hi. rewrite Forall_forall in Hc. apply Hc.
  apply nth_In. lia.
Qed.

Lemma nth_m_clipm (r c : nat) (m : mat) (i j : nat) :
  rect r c m -> (i < r)%nat -> (j < c)%nat ->
  nth_m (clipm m) i j = clip (nth_m m i j) lo hi.
Proof.
  intros Hm Hi Hj. unfold clipm, clipv. apply nth_m_map.
  - destruct Hm as [Hr _]. lia.
  - rewrite (rect_nth_row r c m i Hm Hi). exact Hj.
Qed.

Lemma rect_clipm (r c : nat) (m : mat) : rect r c m -> rect r c (clipm m).
Proof. apply rect_map. Qed.

Lemma rect_zip2 (f : fval -> fval -> fval) (r c : nat) (a b : mat) :
  rect r c a -> rect r c b -> rect r c (zip_with (zip_with f) a b).
Proof.
  intros [Hra Hca] [Hrb Hcb]. split.
  - rewrite zip_with_length; congruence.
  - apply (Forall_zip_with _ _ _ _ _ _ (fun x y Hx Hy => eq_trans
             (zip_with_length f x y (eq_trans Hx (eq_sym Hy))) Hx) Hca Hcb).
Qed.

Lemma nth_m_zip2 (f : fval -> fval -> fval) (r c : nat) (a b : mat) (i j : nat) :
  rect r c a -> rect r c b -> (i < r)%nat -> (j < c)%nat ->
  nth_m (zip_with (zip_with f) a b) i j = f (nth_m a i j) (nth_m b i j).
Proof.
  intros Ha Hb Hi Hj. unfold nth_m.
  rewrite (nth_zip_with _ a b i [] [] []) by (destruct Ha, Hb; lia).
  apply nth_zip_with.
  - rewrite (rect_nth_row r c a i Ha Hi). exact Hj.
  - rewrite (rect_nth_row r c b i Hb Hi). exact Hj.
Qed.

Lemma rect_zip_col (f : fval -> fval -> fval) (r c : nat) (a : mat) (v : vec) :
  rect r c a -> length v = r ->
  rect r c (zip_with (fun x y => map (fun t => f t y) x) a v).
Proof.
  intros [Hr Hc] Hv. split.
  - rewrite zip_with_length; congruence.
  - apply (Forall_zip_with _ (fun x => length x = c) (fun _ => True)).
    + intros x y Hx _. now rewrite length_map.
    + exact Hc.
    + apply Forall_forall. trivial.
Qed.

Lemma nth_m_zip_col (f : fval -> fval -> fval) (r c : nat) (a : mat) (v : vec) (i j : nat) :
  rect r c a -> length v = r -> (i < r)%nat -> (j < c)%nat ->
  nth_m (zip_with (fun x y => map (fun t => f t y) x) a v) i j
  = f (nth_m a i j) (nth_v v i).
Proof.
  intros Ha Hv Hi Hj. unfold nth_m.
  rewrite (nth_zip_with _ a v i [] NaN []) by (destruct Ha; lia).
  change (nth j (map (fun t => f t (nth i v NaN)) (nth i a [])) NaN)
    with (nth_v (map (fun t => f t (nth i v NaN)) (nth i a [])) j).
  rewrite nth_v_map by (rewrite (rect_nth_row r c a i Ha Hi); exact Hj).
  reflexivity.
Qed.

Lemma rect_outer (f : fval -> fval -> fval) (o q : vec) :
  rect (length o) (length q) (map (fun x => map (f x) q) o).
Proof.
  split; [apply length_map |]. rewrite Forall_map. apply Forall_forall.
  intros x _. apply length_map.
Qed.

Lemma nth_m_outer (f : fval -> fval -> fval) (o q : vec) (i j : nat) :
  (i < length o)%nat -> (j < length q)%nat ->
  nth_m (map (fun x => map (f x) q) o) i j = f (nth_v o i) (nth_v q j).
Proof.
  intros Hi Hj. unfold nth_m.
  rewrite (nth_indep _ [] ((fun x => map (f x) q) NaN)) by (now rewrite length_map).
  rewrite (map_nth (fun x => map (f x) q) o NaN i).
  change (nth j (map (f (nth i o NaN)) q) NaN) with (nth_v (map (f (nth i o NaN)) q) j).
  now rewrite nth_v_map.
Qed.

Section GoodShapes.
Variables (N : nat) (T : mat) (L w A0 u0 : vec).
Hypothesis HN : (0 < N)%nat.
Hypothesis HT : rect N N T.
Hypothesis Hw : length w = N.
Hypothesis HA : length A0 = N.

Lemma length_term2 : length (term2_of w N) = N.
Proof.
  unfold term2_of, clipv. rewrite !length_map, zip_with_length.
  - exact Hw.
  - now rewrite length_ones.
Qed.

Lemma length_quot : length (zip_with fdiv A0 w) = N.
Proof. rewrite zip_with_length; congruence. Qed.

Lemma rect_term1 : rect N N (term1_of T).
Proof. unfold term1_of. apply rect_clipm, rect_map. exact HT. Qed.

Lemma rect_term3 : rect N N (term3_of w A0 N).
Proof.
  unfold term3_of. apply rect_clipm.
  pose proof (rect_outer fmul (ones N)
                (map (fun y => powZ y (sigma - 1)) (zip_with fdiv A0 w))) as H.
  rewrite length_ones, length_map, length_quot in H. exact H.
Qed.

Lemma rect_combined : rect N N (combined_of T w A0 N).
Proof.
  unfold combined_of. apply rect_clipm, rect_zip2.
  - apply rect_zip_col; [apply rect_term1 | apply length_term2].
  - apply rect_term3.
Qed.

(** Lines 95-99 do not raise, and give [combined_of]. *)
Lemma combined_terms_ok : combined_terms T w A0 N = Some (combined_of T w A0 N).
Proof.
  unfold combined_terms, bind.
  rewrite bvec_same by (now rewrite length_ones).
  rewrite bvec_same by congruence.
  rewrite bmat_column_row by (now rewrite length_ones).
  fold (term2_of w N). fold (term1_of T).
  rewrite (bmat_column fmul N N _ _ HN rect_term1 length_term2).
  fold (term3_of w A0 N).
  rewrite (bmat_same fmul N N); [reflexivity | exact HN | | apply rect_term3].
  apply rect_zip_col; [apply rect_term1 | apply length_term2].
Qed.

Ltac rect_tac :=
  repeat first
         [ assumption | apply rect_term1 | apply rect_term3 | apply length_term2
         | apply rect_zip2 | apply rect_zip_col | apply rect_map ].

(** The entries of [combined_of] are those of the spec. *)
Lemma combined_of_nth (i j : nat) :
  (i < N)%nat -> (j < N)%nat ->
  nth_m (combined_of T w A0 N) i j = combined_spec T w A0 i j.
Proof.
  intros Hi Hj. unfold combined_of, combined_spec.
  rewrite (nth_m_clipm N N) by rect_tac.
  rewrite (nth_m_zip2 fmul N N) by rect_tac.
  rewrite (nth_m_zip_col fmul N N) by rect_tac.
  f_equal. f_equal; [f_equal |].
  - unfold term1_of. rewrite (nth_m_clipm N N) by rect_tac.
    rewrite nth_m_map;
      [reflexivity | destruct HT; lia
       | rewrite (rect_nth_row N N T i HT Hi); exact Hj].
  - unfold term2_of, clipv.
    rewrite nth_v_map by
        (rewrite length_map, zip_with_length;
         [lia | now rewrite length_ones]).
    rewrite nth_v_map by
        (rewrite zip_with_length; [lia | now rewrite length_ones]).
    rewrite nth_v_zip_with by (rewrite ?length_ones; lia).
    rewrite nth_v_ones by exact Hi. now rewrite fmul_1_r.
  - unfold term3_of.
    rewrite (nth_m_clipm N N);
      [| pose proof (rect_outer fmul (ones N)
                      (map (fun y => powZ y (sigma - 1)) (zip_with fdiv A0 w))) as H;
         rewrite length_ones, length_map, length_quot in H; exact H
       | exact Hi | exact Hj].
    rewrite nth_m_outer by
        (rewrite ?length_ones, ?length_map, ?length_quot; assumption).
    rewrite nth_v_ones by exact Hi. rewrite fmul_1_l.
    rewrite nth_v_map by (rewrite length_quot; exact Hj).
    rewrite nth_v_zip_with by lia. reflexivity.
Qed.
End GoodShapes.

(** ** Invariants of the loop *)

Section LoopInvariant.
Variables (L w : vec) (T : mat) (N : nat).
Variable I : loop_state -> Prop.
Hypothesis I_step : forall s, I s -> I (outcome_state (iteration L w T N s)).

Lemma while_loop_inv (fuel : nat) :
  forall s s_end, I s -> while_loop fuel L w T N s = Some s_end -> I s_end.
Proof.
  induction fuel as [| fuel IH]; intros s s_end Hs Hrun; [discriminate |].
  cbn [while_loop] in Hrun. destruct (loop_cond s).
  - pose proof (I_step s Hs) as Hnext.
    destruct (iteration L w T N s) as [s1 | s1 | s1]; cbn in Hnext.
    + apply (IH s1); assumption.
    + now injection Hrun as <-.
    + now injection Hrun as <-.
  - now injection Hrun as <-.
Qed.

Variable P : iter_event -> Prop.
Hypothesis P_event :
  forall s c u_new A_new d,
    I s -> compute_updates L w T N s = Some (c, u_new, A_new, d) ->
    P (mkEvent (A s) (u s) c A_new u_new d
               (best_diff (track_best s u_new A_new d))).

Lemma loop_history_forall (fuel : nat) :
  forall s, I s -> Forall P (loop_history fuel L w T N s).
Proof.
  induction fuel as [| fuel IH]; intros s Hs; [constructor |].
  cbn [loop_history]. destruct (loop_cond s); [| constructor].
  destruct (compute_updates L w T N s) as [[[[c u_new] A_new] d] |] eqn:Hc;
    [| constructor].
  pose proof (P_event s c u_new A_new d Hs Hc) as He.
  pose proof (I_step s Hs) as Hnext.
  destruct (iteration L w T N s) as [s1 | s1 | s1]; cbn in Hnext.
  - constructor; [exact He | apply IH; exact Hnext].
  - constructor; [exact He | constructor].
  - constructor; [exact He | constructor].
Qed.
End LoopInvariant.

Lemma nth_map_seq {X : Type} (F : nat -> X) (N n : nat) (d : X) :
  (n < N)%nat -> nth n (map F (seq 0 N)) d = F n.
Proof.
  intros H. rewrite (nth_indep _ d (F 0%nat)) by (now rewrite length_map, length_seq).
  rewrite map_nth, seq_nth by exact H. reflexivity.
Qed.

Lemma vec_eq_seq (N : nat) (v : vec) (g : nat -> fval) :
  length v = N -> (forall i, (i < N)%nat -> nth_v v i = g i) ->
  v = map g (seq 0 N).
Proof.
  intros Hlen H. apply (nth_ext _ _ NaN NaN).
  - now rewrite length_map, length_seq.
  - intros n Hn. rewrite nth_map_seq by lia. apply H. lia.
Qed.

Lemma mat_eq_seq (N : nat) (c : mat) (g : nat -> nat -> fval) :
  rect N N c ->
  (forall i j, (i < N)%nat -> (j < N)%nat -> nth_m c i j = g i j) ->
  c = map (fun i => map (g i) (seq 0 N)) (seq 0 N).
Proof.
  intros Hc H. apply (nth_ext _ _ [] []).
  - rewrite length_map, length_seq. apply Hc.
  - intros n Hn. assert (HnN : (n < N)%nat) by (destruct Hc; lia).
    rewrite nth_map_seq by exact HnN.
    apply vec_eq_seq.
    + apply (rect_nth_row N N c n Hc HnN).
    + intros j Hj. apply (H n j HnN Hj).
Qed.

Lemma length_zip_N {X Y Z : Type} (f : X -> Y -> Z) (a : list X) (b : list Y) (N : nat) :
  length a = N -> length b = N -> length (zip_with f a b) = N.
Proof. intros Ha Hb. rewrite zip_with_length; congruence. Qed.

Ltac len_tac :=
  repeat first
         [ assumption | lia | rewrite length_map | rewrite length_scale
         | rewrite length_seq | rewrite length_ones | apply length_zip_N ].

Section GoodShapesUpdate.
Variables (N : nat) (T : mat) (L w : vec).
Hypothesis HN : (0 < N)%nat.
Hypothesis HT : rect N N T.
Hypothesis HL : length L = N.
Hypothesis Hw : length w = N.

Lemma combined_of_spec (A0 : vec) :
  length A0 = N ->
  combined_of T w A0 N
  = map (fun i => map (combined_spec T w A0 i) (seq 0 N)) (seq 0 N).
Proof.
  intros HA. apply mat_eq_seq.
  - apply rect_combined; assumption.
  - intros i j Hi Hj. apply combined_of_nth; assumption.
Qed.

Lemma update_u_spec (A0 : vec) :
  length A0 = N ->
  update_u (combined_of T w A0 N) = map (u_new_spec T w A0 N) (seq 0 N).
Proof.
  intros HA. rewrite combined_of_spec by exact HA.
  unfold update_u, clipv. rewrite !map_map. reflexivity.
Qed.

Lemma length_A_raw (u0 : vec) : length u0 = N -> length (A_raw_of L w u0) = N.
Proof.
  intros Hu. unfold A_raw_of, clipv. len_tac.
Qed.

Lemma update_A_ok (u0 : vec) :
  length u0 = N ->
  update_A L w u0
  = Some (map (fun x => fdiv x (mean (A_raw_of L w u0))) (A_raw_of L w u0)).
Proof.
  intros Hu. unfold update_A, bind.
  rewrite bvec_same by (rewrite length_map; congruence).
  rewrite bvec_same by
      (rewrite (length_zip_N fmul L _ N) by len_tac; rewrite length_map; congruence).
  reflexivity.
Qed.

Lemma A_raw_of_spec (u0 : vec) :
  length u0 = N -> A_raw_of L w u0 = map (A_raw_spec L w u0) (seq 0 N).
Proof.
  intros Hu. apply vec_eq_seq; [now apply length_A_raw |].
  intros i Hi. unfold A_raw_of, clipv, A_raw_spec.
  assert (Hz : length (zip_with fmul L (map (fun x => powZ x (2 * sigma - 1)) w)) = N)
    by len_tac.
  assert (Hzz : length (zip_with fmul
                          (zip_with fmul L (map (fun x => powZ x (2 * sigma - 1)) w))
                          (map (fun x => powZ x (sigma - 1)) u0)) = N)
    by len_tac.
  rewrite nth_v_map by (rewrite length_map, Hzz; exact Hi).
  rewrite nth_v_map by (rewrite Hzz; exact Hi).
  rewrite nth_v_zip_with by (rewrite ?Hz, ?length_map; lia).
  rewrite nth_v_zip_with by (rewrite ?length_map; lia).
  rewrite !nth_v_map by lia. reflexivity.
Qed.

  (** With shapes that agree, lines 95-108 do not raise. *)
Lemma compute_updates_ok (s : loop_state) :
  shape_inv N s ->
  let c := combined_of T w (A s) N in
  let u_new := update_u c in
  let A_new := map (fun x => fdiv x (mean (A_raw_of L w (u s)))) (A_raw_of L w (u s)) in
  length u_new = N /\ length A_new = N /\
  compute_updates L w T N s
  = Some (c, u_new, A_new,
          fadd (norm (zip_with fsub (A s) A_new)) (norm (zip_with fsub (u s) u_new))).
Proof.
  intros [HA Hu] c u_new A_new.
  assert (Hlu : length u_new = N).
  { unfold u_new, c. rewrite update_u_spec by exact HA.
    now rewrite length_map, length_seq. }
  assert (HlA : length A_new = N).
  { unfold A_new. rewrite length_map. now apply length_A_raw. }
  split; [exact Hlu |]. split; [exact HlA |].
  unfold compute_updates, bind.
  rewrite combined_terms_ok by assumption. fold c. fold u_new.
  rewrite update_A_ok by exact Hu. fold A_new.
  unfold residual, bind.
  rewrite !bvec_same by congruence. reflexivity.
Qed.

Lemma blend_ok (alpha : R) (x_new x : vec) :
  length x_new = N -> length x = N ->
  blend alpha x_new x
  = Some (zip_with fadd (scale alpha x_new) (scale (1 - alpha) x)) /\
  length (zip_with fadd (scale alpha x_new) (scale (1 - alpha) x)) = N.
Proof.
  intros H1 H2. unfold blend. split.
  - apply bvec_same. rewrite !length_scale. congruence.
  - len_tac.
Qed.

(** What an iteration does with shapes that agree. *)
Lemma iteration_ok (s : loop_state) :
  shape_inv N s ->
  exists c u_new A_new d a b,
    compute_updates L w T N s = Some (c, u_new, A_new, d) /\
    length u_new = N /\ length A_new = N /\
    a = zip_with fadd (scale (alpha_update (iter_count s)) A_new)
                      (scale (1 - alpha_update (iter_count s)) (A s)) /\
    b = zip_with fadd (scale (alpha_update (iter_count s)) u_new)
                      (scale (1 - alpha_update (iter_count s)) (u s)) /\
    length a = N /\ length b = N /\
    let s3 := after_iteration s u_new A_new d a b in
    iteration L w T N s
    = if (50 <? no_improvement_count s3)%nat
      then EarlyStop s3 else Continue (next_iter s3).
Proof.
  intros Hs. destruct (compute_updates_ok s Hs) as (Hlu & HlA & Hc).
  destruct Hs as [HA Hu].
  destruct (iteration_cases L w T N s) as [[Hn _] | Hcase]; [congruence |].
  destruct Hcase as (c & u_new & A_new & d & a & b & Hc' & Ha & Hb & Hit).
  rewrite Hc in Hc'. injection Hc' as <- <- <- <-.
  destruct (blend_ok (alpha_update (iter_count s)) _ (A s) HlA HA) as [Ha' Hla].
  destruct (blend_ok (alpha_update (iter_count s)) _ (u s) Hlu Hu) as [Hb' Hlb].
  rewrite Ha' in Ha. injection Ha as <-.
  rewrite Hb' in Hb. injection Hb as <-.
  do 6 eexists. split; [exact Hc |].
  repeat (split; [first [assumption | reflexivity] |]). exact Hit.
Qed.

Lemma shape_inv_step (s : loop_state) :
  shape_inv N s -> shape_inv N (outcome_state (iteration L w T N s)).
Proof.
  intros Hs.
  destruct (iteration_ok s Hs)
    as (c & u_new & A_new & d & a & b & _ & _ & _ & _ & _ & Hla & Hlb & Hit).
  cbn zeta in Hit. rewrite Hit.
  destruct (after_iteration_fields s u_new A_new d a b) as (HA3 & Hu3 & _).
  destruct (50 <? _)%nat; cbn [outcome_state]; unfold shape_inv, next_iter;
    cbn [A u]; rewrite HA3, Hu3; split; assumption.
Qed.
End GoodShapesUpdate.

(** ** The loop on usable data *)

Lemma fmul3_in_range (x y z : fval) :
  in_range x -> in_range y -> in_range z -> fmul (fmul x y) z <> NaN.
Proof.
  intros Hx Hy Hz. apply in_range_fin in Hx, Hy, Hz.
  destruct Hx as (a & -> & _), Hy as (b & -> & _), Hz as (c & -> & _).
  discriminate.
Qed.

Lemma fin_nonneg_notnan (x : fval) : fin_nonneg x -> x <> NaN.
Proof. destruct x; cbn; try contradiction. discriminate. Qed.

Lemma Forall_nth_v (P : fval -> Prop) (v : vec) (i : nat) :
  Forall P v -> (i < length v)%nat -> P (nth_v v i).
Proof. intros H Hi. unfold nth_v. apply Forall_nth; assumption. Qed.

Lemma no_nan_nth (N : nat) (T : mat) (i j : nat) :
  rect N N T -> no_nan T -> (i < N)%nat -> (j < N)%nat -> nth_m T i j <> NaN.
Proof.
  intros HT Hn Hi Hj. unfold nth_m.
  assert (Hrow : Forall (fun x => x <> NaN) (nth i T [])).
  { unfold no_nan in Hn. rewrite Forall_forall in Hn. apply Hn.
    apply nth_In. destruct HT; lia. }
  apply Forall_nth; [exact Hrow |].
  rewrite (rect_nth_row N N T i HT Hi). exact Hj.
Qed.

Lemma combined_spec_in_range (N : nat) (T : mat) (w A0 : vec) (i j : nat) :
  rect N N T -> no_nan T -> length w = N -> length A0 = N ->
  Forall fin_nonneg w -> Forall fin_pos A0 ->
  (i < N)%nat -> (j < N)%nat ->
  in_range (combined_spec T w A0 i j).
Proof.
  intros HT Hn Hlw HlA Hw HA Hi Hj. unfold combined_spec.
  apply clip_in_range. apply fmul3_in_range; apply clip_in_range; apply powZ_notnan.
  - apply (no_nan_nth N); assumption.
  - apply fin_nonneg_notnan. apply Forall_nth_v; [exact Hw | lia].
  - apply fdiv_pos_nonneg; apply Forall_nth_v; try assumption; lia.
Qed.

Lemma seq_nonempty (N : nat) (X : Type) (f : nat -> X) :
  (0 < N)%nat -> map f (seq 0 N) <> [].
Proof. intros H. destruct N; [lia |]. discriminate. Qed.

Lemma Forall_map_seq {X : Type} (P : X -> Prop) (f : nat -> X) (N : nat) :
  (forall i, (i < N)%nat -> P (f i)) -> Forall P (map f (seq 0 N)).
Proof.
  intros H. rewrite Forall_map. apply Forall_forall. intros i Hi.
  apply in_seq in Hi. apply H. lia.
Qed.

Lemma in_range_powR_clip (x : fval) (y : R) :
  in_range x -> in_range (clip (powR x y) lo hi).
Proof.
  intros Hx. apply in_range_fin in Hx. destruct Hx as (r & -> & Hr).
  apply clip_in_range. pose proof lo_pos. rewrite powR_pos by lra. discriminate.
Qed.

Lemma u_raw_spec_in_range (N : nat) (T : mat) (w A0 : vec) (i : nat) :
  (0 < N)%nat -> rect N N T -> no_nan T -> length w = N -> length A0 = N ->
  Forall fin_nonneg w -> Forall fin_pos A0 -> (i < N)%nat ->
  in_range (u_raw_spec T w A0 N i).
Proof.
  intros HN HT Hn Hlw HlA Hw HA Hi. unfold u_raw_spec.
  apply in_range_powR_clip. apply mean_in_range.
  - apply seq_nonempty. exact HN.
  - apply Forall_map_seq. intros j Hj.
    apply (combined_spec_in_range N); assumption.
Qed.

Lemma normalized_of_in_range (N : nat) (v : vec) :
  (0 < N)%nat -> length v = N -> Forall in_range v ->
  normalized N (map (fun x => fdiv x (mean v)) v).
Proof.
  intros HN Hl Hv. rewrite <- Hl. apply divide_by_mean.
  - intros ->. cbn in Hl. lia.
  - apply in_range_all_pos. exact Hv.
Qed.

Lemma update_u_normalized (N : nat) (T : mat) (w A0 : vec) :
  (0 < N)%nat -> rect N N T -> no_nan T -> length w = N -> length A0 = N ->
  Forall fin_nonneg w -> Forall fin_pos A0 ->
  normalized N (update_u (combined_of T w A0 N)).
Proof.
  intros HN HT Hn Hlw HlA Hw HA.
  rewrite combined_of_spec by assumption. unfold update_u.
  match goal with
  | |- normalized N (map _ ?v0) =>
      replace v0 with (map (u_raw_spec T w A0 N) (seq 0 N))
        by (unfold clipv; rewrite !map_map; reflexivity)
  end.
  apply normalized_of_in_range.
  - exact HN.
  - now rewrite length_map, length_seq.
  - apply Forall_map_seq. intros i Hi.
    apply (u_raw_spec_in_range N); assumption.
Qed.

Lemma A_raw_spec_in_range (N : nat) (L w u0 : vec) (i : nat) :
  length L = N -> length w = N -> length u0 = N ->
  Forall fin_nonneg L -> Forall fin_nonneg w -> Forall fin_pos u0 ->
  (i < N)%nat -> in_range (A_raw_spec L w u0 i).
Proof.
  intros HlL Hlw Hlu HL Hw Hu Hi. unfold A_raw_spec.
  pose proof (Forall_nth_v _ L i HL ltac:(lia)) as Hl.
  pose proof (Forall_nth_v _ w i Hw ltac:(lia)) as Hwi.
  pose proof (Forall_nth_v _ u0 i Hu ltac:(lia)) as Hui.
  destruct (nth_v L i) as [l | | |]; cbn in Hl; try contradiction.
  destruct (nth_v w i) as [x | | |]; cbn in Hwi; try contradiction.
  destruct (nth_v u0 i) as [y | | |]; cbn in Hui; try contradiction.
  destruct (powZ_nonneg x (2 * sigma - 1) Hwi) as (p & -> & Hp);
    [unfold sigma; lia |].
  destruct (powZ_pos y (sigma - 1) Hui) as (q & -> & Hq);
    [unfold sigma; lia |].
  apply clip_in_range. apply powR_nonneg_notnan; [| apply exponent_A_pos].
  cbn. apply Rmult_le_pos; [apply Rmult_le_pos; assumption | lra].
Qed.

Lemma update_A_normalized (N : nat) (L w u0 : vec) :
  (0 < N)%nat -> length L = N -> length w = N -> length u0 = N ->
  Forall fin_nonneg L -> Forall fin_nonneg w -> Forall fin_pos u0 ->
  normalized N (map (fun x => fdiv x (mean (A_raw_of L w u0))) (A_raw_of L w u0)).
Proof.
  intros HN HlL Hlw Hlu HL Hw Hu.
  apply normalized_of_in_range.
  - exact HN.
  - apply (length_A_raw N); assumption.
  - rewrite (A_raw_of_spec N) by assumption.
    apply Forall_map_seq. intros i Hi.
    apply (A_raw_spec_in_range N); assumption.
Qed.

(** *** The residual is a finite number *)

Lemma fin_pos_finite (v : vec) : Forall fin_pos v -> Forall (fun x => isfinite x = true) v.
Proof. intros H. apply fin_nonneg_finite, fin_pos_nonneg, H. Qed.

Lemma norm_finite (v : vec) :
  Forall (fun x => isfinite x = true) v -> exists r, norm v = Fin r.
Proof.
  intros Hv. unfold norm.
  assert (Hsq : Forall fin_nonneg (map (fun x => fmul x x) v)).
  { rewrite Forall_map. eapply Forall_impl; [| exact Hv].
    intros x Hx. destruct x as [r | | |]; try discriminate. cbn. nra. }
  rewrite (fsum_fin _ (fin_nonneg_finite _ Hsq)).
  pose proof (Rsum_nonneg _ Hsq) as Hs.
  cbn. rewrite Rltb_false by lra. eauto.
Qed.

Lemma zip_fsub_finite (a b : vec) :
  Forall (fun x => isfinite x = true) a -> Forall (fun x => isfinite x = true) b ->
  Forall (fun x => isfinite x = true) (zip_with fsub a b).
Proof.
  apply Forall_zip_with. intros x y Hx Hy.
  destruct x, y; try discriminate. reflexivity.
Qed.

Lemma residual_finite (a a_new b b_new : vec) :
  Forall fin_pos a -> Forall fin_pos a_new -> Forall fin_pos b -> Forall fin_pos b_new ->
  exists r, fadd (norm (zip_with fsub a a_new)) (norm (zip_with fsub b b_new)) = Fin r.
Proof.
  intros Ha Han Hb Hbn.
  destruct (norm_finite (zip_with fsub a a_new)) as [r1 ->];
    [apply zip_fsub_finite; apply fin_pos_finite; assumption |].
  destruct (norm_finite (zip_with fsub b b_new)) as [r2 ->];
    [apply zip_fsub_finite; apply fin_pos_finite; assumption |].
  cbn. eauto.
Qed.

(** *** The blend keeps the estimates positive *)

Lemma alpha_update_bounds (k : nat) : 0 < alpha_update k < 1.
Proof.
  unfold alpha_update, min_alpha, initial_alpha.
  assert (Hs : 1 <= sqrt (1 + INR k)).
  { rewrite <- sqrt_1 at 1. apply sqrt_le_1_alt. pose proof (pos_INR k). lra. }
  assert (Hq : 0.1 / sqrt (1 + INR k) <= 0.1).
  { apply Rmult_le_reg_r with (r := sqrt (1 + INR k)); [lra |].
    unfold Rdiv. rewrite Rmult_assoc, Rinv_l by lra. nra. }
  split.
  - apply Rlt_le_trans with (r2 := 0.01); [lra | apply Rmax_l].
  - apply Rmax_lub_lt; lra.
Qed.

Lemma blend_pos (alpha : R) (x_new x : vec) :
  0 < alpha < 1 -> Forall fin_pos x_new -> Forall fin_pos x ->
  Forall fin_pos (zip_with fadd (scale alpha x_new) (scale (1 - alpha) x)).
Proof.
  intros Ha Hn Hx.
  apply (Forall_zip_with fadd fin_pos fin_pos fin_pos).
  - intros a b Hp Hq. destruct a, b; cbn in *; try contradiction. lra.
  - unfold scale. rewrite Forall_map. eapply Forall_impl; [| exact Hn].
    intros a Hp. destruct a; cbn in *; try contradiction. nra.
  - unfold scale. rewrite Forall_map. eapply Forall_impl; [| exact Hx].
    intros a Hp. destruct a; cbn in *; try contradiction. nra.
Qed.

Lemma normalized_ones (N : nat) : (0 < N)%nat -> normalized N (ones N).
Proof.
  intros HN.
  assert (Hpos : Forall fin_pos (ones N)).
  { unfold ones. apply Forall_forall. intros x Hx. apply repeat_spec in Hx.
    subst x. cbn. lra. }
  assert (Hne : ones N <> []) by (destruct N; [lia | discriminate]).
  split; [split; [apply length_ones | exact Hpos] |].
  destruct (mean_pos (ones N) (fin_pos_nonneg _ Hpos) (Forall_pos_Exists _ Hne Hpos))
    as [-> _].
  f_equal. rewrite length_ones.
  assert (Hs : Rsum (ones N) = INR N).
  { unfold ones. clear. induction N as [| n IH]; [reflexivity |].
    rewrite S_INR. unfold Rsum in *. cbn [repeat fold_right Rval]. rewrite IH. lra. }
  rewrite Hs. field. apply not_0_INR. lia.
Qed.

Section GoodData.
Variables (N : nat) (T : mat) (L w : vec).
Hypothesis HN : (0 < N)%nat.
Hypothesis HT : rect N N T.
Hypothesis HTn : no_nan T.
Hypothesis HlL : length L = N.
Hypothesis Hlw : length w = N.
Hypothesis HL : Forall fin_nonneg L.
Hypothesis Hw : Forall fin_nonneg w.

Lemma good_inv_init : good_inv N (init_state N).
Proof.
  destruct (normalized_ones N HN) as [Hp _].
  unfold good_inv, init_state. cbn. repeat split; apply Hp.
Qed.

Lemma good_inv_step (s : loop_state) :
  good_inv N s -> good_inv N (outcome_state (iteration L w T N s)).
Proof.
  intros (HA & Hu & Hbest).
  assert (Hs : shape_inv N s) by (split; [apply HA | apply Hu]).
  destruct (compute_updates_ok N T L w HN HT HlL Hlw s Hs) as (_ & _ & Hc).
  destruct (iteration_ok N T L w HN HT HlL Hlw s Hs)
    as (c & u_new & A_new & d & a & b & Hc' & Hlu & HlA & -> & -> & Hla & Hlb & Hit).
  rewrite Hc in Hc'. injection Hc' as <- <- <- <-.
  pose proof (update_u_normalized N T w (A s) HN HT HTn Hlw (proj1 HA) Hw (proj2 HA))
    as Hun.
  pose proof (update_A_normalized N L w (u s) HN HlL Hlw (proj1 Hu) HL Hw (proj2 Hu))
    as HAn.
  destruct (residual_finite (A s) _ (u s) _ (proj2 HA) (proj2 (proj1 HAn))
                            (proj2 Hu) (proj2 (proj1 Hun))) as [r Hd].
  pose proof (alpha_update_bounds (iter_count s)) as Halpha.
  pose proof (blend_pos _ _ (A s) Halpha (proj2 (proj1 HAn)) (proj2 HA)) as Hpa.
  pose proof (blend_pos _ _ (u s) Halpha (proj2 (proj1 Hun)) (proj2 Hu)) as Hpb.
  cbn zeta in Hit. rewrite Hit. clear Hit Hc.
  match goal with
  | |- context [after_iteration s ?un ?an ?dd ?aa ?bb] =>
      destruct (after_iteration_fields s un an dd aa bb)
        as (HA3 & Hu3 & _ & _ & Hbd3 & HbA3 & Hbu3 & _);
      set (s3 := after_iteration s un an dd aa bb) in *
  end.
  assert (Hgood : good_inv N s3).
  { unfold good_inv. rewrite HA3, Hu3, Hbd3, HbA3, Hbu3.
    split; [split; assumption |]. split; [split; assumption |].
    unfold track_best. rewrite Hd.
    destruct (fltb (Fin r) (best_diff s)) eqn:Hlt; cbn.
    - split; assumption.
    - destruct (best_A s), (best_u s); try contradiction; try assumption.
      destruct Hbest as (Hinf & _). rewrite Hinf in Hlt. discriminate. }
  destruct (50 <? no_improvement_count s3)%nat; cbn [outcome_state];
    [exact Hgood |].
  unfold good_inv, next_iter. cbn. exact Hgood.
Qed.

(** The state that the year continues from after lines 134-138. *)
Lemma use_best_normalized (s : loop_state) :
  good_inv N s -> normalized N (A (use_best s)) /\ normalized N (u (use_best s)).
Proof.
  intros (HA & Hu & Hbest). unfold use_best.
  destruct (best_A s), (best_u s); try contradiction; cbn.
  - exact Hbest.
  - destruct Hbest as (_ & -> & ->). split; apply normalized_ones; exact HN.
Qed.
End GoodData.

(** ** Trade costs: the entries *)

Lemma trade_cost_entry (D : mat) (phi : R) (i j : nat) :
  (i < length D)%nat -> (j < length (nth i D []))%nat ->
  nth_m (calculate_trade_costs D (Fin phi)) i j
  = fexp (clip (fmul (nth_m D i j) (Fin phi)) (-700) 700).
Proof.
  intros Hi Hj. unfold calculate_trade_costs.
  rewrite nth_m_map.
  - rewrite nth_m_map by assumption. reflexivity.
  - rewrite length_map. exact Hi.
  - rewrite (nth_indep _ [] (map (fun d => fmul d (Fin phi)) []))
      by (rewrite length_map; exact Hi).
    rewrite map_nth, length_map. exact Hj.
Qed.

Lemma calculate_trade_costs_shape (D : mat) (phi : fval) :
  length (calculate_trade_costs D phi) = length D /\
  (square D -> square (calculate_trade_costs D phi)).
Proof.
  unfold calculate_trade_costs. split.
  - rewrite !length_map. reflexivity.
  - unfold square. intros H. rewrite !length_map.
    rewrite !Forall_map. eapply Forall_impl; [| exact H].
    intros r Hr. cbn. rewrite !length_map. exact Hr.
Qed.

(** C4. For a square distance matrix with finite non-negative entries and
    a zero diagonal, and a finite [phi], every entry of the result of
    [calculate_trade_costs] is [exp(clip(phi * D[i][j], -700, 700))]; the
    diagonal entries are [1] and every entry is (finite and) positive; the
    result has the shape of [D]. *)
Theorem calculate_trade_costs_spec (D : mat) (phi : R) :
  square D ->
  (forall i j, (i < length D)%nat -> (j < length D)%nat -> fin_nonneg (nth_m D i j)) ->
  (forall i, (i < length D)%nat -> nth_m D i i = Fin 0) ->
  let T := calculate_trade_costs D (Fin phi) in
  length T = length D /\ square T /\
  forall i j, (i < length D)%nat -> (j < length D)%nat ->
    nth_m T i j = Fin (trade_cost_spec phi (Rval (nth_m D i j))) /\
    nth_m T i i = Fin 1 /\
    fin_pos (nth_m T i j).
Proof.
  intros Hsq Hfin Hdiag T.
  destruct (calculate_trade_costs_shape D (Fin phi)) as [Hlen Hsh].
  split; [exact Hlen |]. split; [exact (Hsh Hsq) |].
  intros i j Hi Hj. unfold T.
  assert (Hentry : forall a b, (a < length D)%nat -> (b < length D)%nat ->
            nth_m (calculate_trade_costs D (Fin phi)) a b
            = Fin (trade_cost_spec phi (Rval (nth_m D a b)))).
  { intros a b Ha Hb. rewrite trade_cost_entry;
      [| exact Ha | rewrite square_row by assumption; exact Hb].
    specialize (Hfin a b Ha Hb).
    destruct (nth_m D a b) as [d | | |]; cbn in Hfin; try contradiction.
    cbn. unfold trade_cost_spec, Rclip. rewrite (Rmult_comm d phi). reflexivity. }
  split; [apply Hentry; assumption |]. split.
  - rewrite Hentry by assumption. rewrite Hdiag by assumption. cbn.
    unfold trade_cost_spec. rewrite Rmult_0_r.
    rewrite Rclip_id by lra. rewrite exp_0. reflexivity.
  - rewrite Hentry by assumption. cbn. apply exp_pos.
Qed.

(** A witness of C4: the distance matrix of two locations 10 km apart. *)
Lemma calculate_trade_costs_spec_witness :
  let D := [[Fin 0; Fin 10]; [Fin 10; Fin 0]] in
  let T := calculate_trade_costs D (Fin 0.01) in
  length T = length D /\ square T /\
  forall i j, (i < length D)%nat -> (j < length D)%nat ->
    nth_m T i j = Fin (trade_cost_spec 0.01 (Rval (nth_m D i j))) /\
    nth_m T i i = Fin 1 /\
    fin_pos (nth_m T i j).
Proof.
  apply (calculate_trade_costs_spec [[Fin 0; Fin 10]; [Fin 10; Fin 0]] 0.01).
  - repeat constructor.
  - intros i j Hi Hj. cbn in Hi, Hj.
    destruct i as [| [| i]]; [| | lia];
      (destruct j as [| [| j]]; [| | lia]); cbn; lra.
  - intros i Hi. cbn in Hi. destruct i as [| [| i]]; [| | lia]; reflexivity.
Defined.

(** ** Trade costs and distance *)

Lemma trade_cost_entry_fin (D : mat) (phi d : R) (i j : nat) :
  (i < length D)%nat -> (j < length (nth i D []))%nat ->
  nth_m D i j = Fin d -> -700 <= phi * d <= 700 ->
  nth_m (calculate_trade_costs D (Fin phi)) i j = Fin (exp (phi * d)).
Proof.
  intros Hi Hj Hd Hr. rewrite trade_cost_entry by assumption.
  rewrite Hd. cbn. fold (Rclip (d * phi) (-700) 700).
  rewrite Rclip_id by lra. now rewrite (Rmult_comm d phi).
Qed.

(** C3, as the claim states it, fails.  With [phi = 0.01], the entry for a
    distance of 20 km is not smaller than the entry for 10 km. *)
Lemma trade_costs_decreasing_counterexample :
  let D1 := [[Fin 0; Fin 10]; [Fin 10; Fin 0]] in
  let D2 := [[Fin 0; Fin 20]; [Fin 20; Fin 0]] in
  let T1 := calculate_trade_costs D1 (Fin 0.01) in
  let T2 := calculate_trade_costs D2 (Fin 0.01) in
  fltb (nth_m D1 0 1) (nth_m D2 0 1) = true /\
  fltb (nth_m T2 0 1) (nth_m T1 0 1) = false.
Proof.
  intros D1 D2 T1 T2. split.
  - cbn. apply Rltb_true. lra.
  - unfold T1, T2.
    rewrite (trade_cost_entry_fin D2 0.01 20) by (cbn; try lia; try reflexivity; lra).
    rewrite (trade_cost_entry_fin D1 0.01 10) by (cbn; try lia; try reflexivity; lra).
    cbn. apply Rltb_false. apply Rle_not_lt. left. apply exp_increasing. lra.
Qed.

(** C3, amended.  For [phi > 0] the entry [T[i][j]] never decreases when
    the distance [D[i][j]] grows, whatever finite distances are compared;
    and it is strictly larger as soon as [phi * D[i][j]] has grown by
    [1e-9] at least within the clip range [[-700, 700]].  (A strict
    inequality for every pair of distances would not survive the rounding
    of [phi * D[i][j]] and of the exponential on doubles: neighbouring
    distances can get one and the same trade cost.) *)
Theorem trade_costs_nondecreasing (D1 D2 : mat) (phi d1 d2 : R) (i j : nat) :
  0 < phi ->
  (i < length D1)%nat -> (j < length (nth i D1 []))%nat ->
  (i < length D2)%nat -> (j < length (nth i D2 []))%nat ->
  nth_m D1 i j = Fin d1 -> nth_m D2 i j = Fin d2 ->
  d1 <= d2 ->
  let t1 := nth_m (calculate_trade_costs D1 (Fin phi)) i j in
  let t2 := nth_m (calculate_trade_costs D2 (Fin phi)) i j in
  fleb t1 t2 = true /\
  (-700 <= phi * d1 -> phi * d2 <= 700 -> phi * d1 + 1e-9 <= phi * d2 ->
   fltb t1 t2 = true).
Proof.
  intros Hphi Hi1 Hj1 Hi2 Hj2 H1 H2 Hle t1 t2. unfold t1, t2. split.
  - rewrite !trade_cost_entry by assumption. rewrite H1, H2. cbn.
    fold (Rclip (d1 * phi) (-700) 700). fold (Rclip (d2 * phi) (-700) 700).
    assert (Hm : d1 * phi <= d2 * phi) by (apply Rmult_le_compat_r; lra).
    assert (Hc : Rclip (d1 * phi) (-700) 700 <= Rclip (d2 * phi) (-700) 700).
    { unfold Rclip. apply Rle_min_compat_r. apply Rle_max_compat_r. exact Hm. }
    unfold Rleb. destruct (Rle_dec _ _) as [_ | Hn]; [reflexivity |].
    exfalso. apply Hn. destruct Hc as [Hc | Hc].
    + left. now apply exp_increasing.
    + right. now rewrite Hc.
  - intros Hlo Hhi Hgap.
    assert (Hm : phi * d1 < phi * d2) by lra.
    rewrite (trade_cost_entry_fin D1 phi d1) by (try assumption; lra).
    rewrite (trade_cost_entry_fin D2 phi d2) by (try assumption; lra).
    cbn. apply Rltb_true. apply exp_increasing. exact Hm.
Qed.

(** A witness of the amended C3: 10 km against 20 km at [phi = 0.01]. *)
Lemma trade_costs_nondecreasing_witness :
  let D1 := [[Fin 0; Fin 10]; [Fin 10; Fin 0]] in
  let D2 := [[Fin 0; Fin 20]; [Fin 20; Fin 0]] in
  let t1 := nth_m (calculate_trade_costs D1 (Fin 0.01)) 0 1 in
  let t2 := nth_m (calculate_trade_costs D2 (Fin 0.01)) 0 1 in
  fleb t1 t2 = true /\
  (-700 <= 0.01 * 10 -> 0.01 * 20 <= 700 -> 0.01 * 10 + 1e-9 <= 0.01 * 20 ->
   fltb t1 t2 = true).
Proof.
  apply (trade_costs_nondecreasing
           [[Fin 0; Fin 10]; [Fin 10; Fin 0]] [[Fin 0; Fin 20]; [Fin 20; Fin 0]]
           0.01 10 20 0 1); cbn; try lia; try reflexivity; lra.
Defined.

(** ** A trade-cost matrix of the wrong size *)

Lemma prepared_length (L w : vec) :
  length (fst (prepared L w)) = length L /\ length (snd (prepared L w)) = length w.
Proof.
  unfold prepared. cbn [fst snd]. rewrite !length_normalize. apply repair_length.
Qed.

Lemma compute_updates_mismatch (L w : vec) (T : mat) (N : nat) :
  length w = N -> square T -> (1 < N)%nat -> length T <> N -> length T <> 1%nat ->
  compute_updates (fst (prepared L w)) (snd (prepared L w)) T N (init_state N) = None.
Proof.
  intros Hw HT HN HM HM1. unfold compute_updates.
  rewrite (combined_terms_mismatch T _ _ N (length T) (length T)); try assumption.
  - reflexivity.
  - apply shape_square. exact HT.
  - destruct (prepared_length L w) as [_ H]. congruence.
  - cbn. apply length_ones.
Qed.

Lemma invert_model_app (N : nat) (T : mat) (a b : list year_input) :
  invert_model N T (a ++ b)
  = match invert_model N T a, invert_model N T b with
    | Some x, Some y => Some (x ++ y)
    | _, _ => None
    end.
Proof.
  induction a as [| y a IH]; cbn [app invert_model].
  - destruct (invert_model N T b); reflexivity.
  - destruct (invert_year (Population y) (Wage y) T N) as [o |]; [| reflexivity].
    rewrite IH.
    destruct (invert_model N T a), (invert_model N T b); reflexivity.
Qed.

(** The matrix of [M] rows and [M] columns whose entries are all [1]. *)
Lemma square_repeat (x : fval) (M : nat) : square (repeat (repeat x M) M).
Proof.
  unfold square. rewrite repeat_length. apply Forall_forall.
  intros r Hr. apply repeat_spec in Hr. subst r. apply repeat_length.
Qed.

(** C2, as the claim states it, fails.  Two locations and a [3 x 3]
    trade-cost matrix: the call does not fail; the year ends with the
    all-ones columns, no iteration counted and [final_diff = 1]. *)
Lemma shape_mismatch_rejected_counterexample :
  let L := [Fin 1; Fin 2] in
  let w := [Fin 10; Fin 10] in
  let T := repeat (repeat (Fin 1) 3) 3 in
  length L = 2%nat /\ length w = 2%nat /\ square T /\ length T = 3%nat /\
  invert_year L w T 2 <> Raised /\
  invert_year L w T 2 = Done (mkOutput (ones 2) (ones 2) 0 (Fin 1) false).
Proof.
  intros L w T.
  assert (H : invert_year L w T 2
              = Done (mkOutput (ones 2) (ones 2) 0 (Fin 1) (snd (repair L w)))).
  { apply invert_year_first_raises; [lia | reflexivity | reflexivity |].
    apply compute_updates_mismatch; [reflexivity | | lia | cbn; lia | cbn; lia].
    apply (square_repeat (Fin 1) 3). }
  repeat split; try reflexivity.
  - apply (square_repeat (Fin 1) 3).
  - rewrite H. discriminate.
  - rewrite H. reflexivity.
Qed.

(** C2, amended.  For [N >= 2] locations and a square trade-cost matrix of
    [M] rows, [M <> N] and [M <> 1], the first iteration raises inside the
    [try] block and the exception is caught there: the loop ends with no
    iteration completed, the call does not fail, and the year is given the
    all-ones columns, [iterations = 0] and [final_diff = 1]. *)
Theorem shape_mismatch_caught (L w : vec) (T : mat) (N : nat) :
  length L = N -> length w = N -> square T ->
  (1 < N)%nat -> length T <> N -> length T <> 1%nat ->
  iteration (fst (prepared L w)) (snd (prepared L w)) T N (init_state N)
    = Except (init_state N) /\
  year_history L w T N = [] /\
  invert_year L w T N
    = Done (mkOutput (ones N) (ones N) 0 (Fin 1) (snd (repair L w))).
Proof.
  intros HL Hw HT HN HM HM1.
  pose proof (compute_updates_mismatch L w T N Hw HT HN HM HM1) as Hc.
  split; [| split].
  - unfold iteration. rewrite Hc. reflexivity.
  - rewrite year_history_unfold. unfold year_fuel. cbn [loop_history].
    rewrite loop_cond_init, Hc. reflexivity.
  - apply invert_year_first_raises; try assumption. lia.
Qed.

(** A witness of the amended C2: two locations, a [3 x 3] matrix. *)
Lemma shape_mismatch_caught_witness :
  let L := [Fin 1; Fin 2] in
  let w := [Fin 10; Fin 10] in
  let T := repeat (repeat (Fin 1) 3) 3 in
  iteration (fst (prepared L w)) (snd (prepared L w)) T 2 (init_state 2)
    = Except (init_state 2) /\
  year_history L w T 2 = [] /\
  invert_year L w T 2
    = Done (mkOutput (ones 2) (ones 2) 0 (Fin 1) (snd (repair L w))).
Proof.
  apply (shape_mismatch_caught [Fin 1; Fin 2] [Fin 10; Fin 10]
           (repeat (repeat (Fin 1) 3) 3) 2).
  - reflexivity.
  - reflexivity.
  - apply (square_repeat (Fin 1) 3).
  - lia.
  - cbn. lia.
  - cbn. lia.
Defined.

(** C10.  When the first iteration of a year raises, so that the loop ends
    with nothing recorded ([best_A] is still [None]), the all-ones vectors
    are written as the year's columns, the record of the year has
    [iterations = 0] and [final_diff = 1], and the other years are
    processed as they would be without it. *)
Theorem first_iteration_raises_defaults
        (N : nat) (T : mat) (pre post : list year_input) (y : year_input)
        (s' : loop_state) :
  (0 < N)%nat -> length (Population y) = N -> length (Wage y) = N ->
  iteration (fst (prepared (Population y) (Wage y)))
            (snd (prepared (Population y) (Wage y))) T N (init_state N)
    = Except s' ->
  best_A s' = None ->
  let o := mkOutput (ones N) (ones N) 0 (Fin 1)
                    (snd (repair (Population y) (Wage y))) in
  invert_year (Population y) (Wage y) T N = Done o /\
  invert_model N T (pre ++ y :: post)
  = match invert_model N T pre, invert_model N T post with
    | Some a, Some b => Some (a ++ (year y, o) :: b)
    | _, _ => None
    end.
Proof.
  intros HN HL Hw Hit Hbest o.
  apply iteration_except_inv in Hit. destruct Hit as [Hc _].
  assert (Hy : invert_year (Population y) (Wage y) T N = Done o)
    by (apply invert_year_first_raises; assumption).
  split; [exact Hy |].
  rewrite invert_model_app. cbn [invert_model]. rewrite Hy.
  destruct (invert_model N T pre) as [a |]; [| reflexivity].
  destruct (invert_model N T post) as [b |]; reflexivity.
Qed.

(** A witness of C10: the year 1980 of two locations, between two other
    years, with a [3 x 3] trade-cost matrix. *)
Lemma first_iteration_raises_defaults_witness :
  let T := repeat (repeat (Fin 1) 3) 3 in
  let y := mkInput 1980 [Fin 1; Fin 2] [Fin 10; Fin 10] in
  let pre := [mkInput 1975 [Fin 3; Fin 1] [Fin 5; Fin 10]] in
  let post := [mkInput 1985 [Fin 2; Fin 2] [Fin 10; Fin 20]] in
  let o := mkOutput (ones 2) (ones 2) 0 (Fin 1)
                    (snd (repair (Population y) (Wage y))) in
  invert_year (Population y) (Wage y) T 2 = Done o /\
  invert_model 2 T (pre ++ y :: post)
  = match invert_model 2 T pre, invert_model 2 T post with
    | Some a, Some b => Some (a ++ (year y, o) :: b)
    | _, _ => None
    end.
Proof.
  intros T y pre post.
  apply (first_iteration_raises_defaults 2 T pre post y (init_state 2)).
  - lia.
  - reflexivity.
  - reflexivity.
  - unfold iteration. rewrite compute_updates_mismatch; try reflexivity;
      try (cbn; lia).
    apply (square_repeat (Fin 1) 3).
  - reflexivity.
Defined.

(** ** The three ways out of the loop *)

Lemma while_loop_stops_at_tol (L w : vec) (T : mat) (N : nat) (s : loop_state) (fuel : nat) :
  fleb (diff s) (Fin tol) = true -> while_loop (S fuel) L w T N s = Some s.
Proof.
  intros H. cbn [while_loop]. unfold loop_cond.
  rewrite (fleb_fgtb _ _ H). reflexivity.
Qed.

Lemma while_loop_stops_at_max_iter (L w : vec) (T : mat) (N : nat) (s : loop_state) (fuel : nat) :
  iter_count s = max_iter -> while_loop (S fuel) L w T N s = Some s.
Proof.
  intros H. cbn [while_loop]. unfold loop_cond. rewrite H, Nat.ltb_irrefl.
  now rewrite andb_false_r.
Qed.

Lemma while_loop_early_stop (L w : vec) (T : mat) (N : nat) (s : loop_state) (fuel : nat)
      (c : mat) (u_new A_new : vec) (d : fval) (a b : vec) :
  loop_cond s = true ->
  compute_updates L w T N s = Some (c, u_new, A_new, d) ->
  blend (alpha_update (iter_count s)) A_new (A s) = Some a ->
  blend (alpha_update (iter_count s)) u_new (u s) = Some b ->
  (50 < no_improvement_count (after_iteration s u_new A_new d a b))%nat ->
  while_loop (S fuel) L w T N s = Some (after_iteration s u_new A_new d a b).
Proof.
  intros Hcond Hc Ha Hb Hno. cbn [while_loop]. rewrite Hcond.
  destruct (iteration_cases L w T N s) as [[Hn _] | Hs]; [congruence |].
  destruct Hs as (c' & u' & A' & d' & a' & b' & Hc' & Ha' & Hb' & Hit).
  rewrite Hc in Hc'. injection Hc' as <- <- <- <-.
  rewrite Ha in Ha'. injection Ha' as <-.
  rewrite Hb in Hb'. injection Hb' as <-.
  cbn zeta in Hit. rewrite Hit.
  apply Nat.ltb_lt in Hno. rewrite Hno. reflexivity.
Qed.

Lemma use_best_fields (s : loop_state) :
  iter_count (use_best s) = iter_count s /\
  (forall a b, best_A s = Some a -> best_u s = Some b ->
     A (use_best s) = a /\ u (use_best s) = b /\ diff (use_best s) = best_diff s) /\
  (best_A s = None \/ best_u s = None -> use_best s = s).
Proof.
  unfold use_best. split; [| split].
  - destruct (best_A s), (best_u s); reflexivity.
  - intros a b -> ->. repeat split.
  - intros [-> | H]; [reflexivity |]. rewrite H. destruct (best_A s); reflexivity.
Qed.

(** C8.  The loop of a year terminates: from the initial state, [year_fuel]
    steps (and any larger number) reach one final state, after at most
    [max_iter] iterations, and the year carries on from it with the best
    iterate (no exception leaves the loop).  The loop stops when
    [diff <= tol] ([tol = 1e-6]), when [iter_count] has reached
    [max_iter = 1000], and when an iteration leaves
    [no_improvement_count > 50]. *)
Theorem year_loop_terminates (L w : vec) (T : mat) (N : nat) :
  let L' := fst (prepared L w) in
  let w' := snd (prepared L w) in
  (tol = 1e-6 /\ max_iter = 1000%nat) /\
  (exists s_end : loop_state,
      (forall fuel, (year_fuel <= fuel)%nat ->
                    while_loop fuel L' w' T N (init_state N) = Some s_end) /\
      (iter_count s_end <= max_iter)%nat /\
      stopped L' w' T N s_end /\
      run_year L w T N = Some (use_best s_end) /\
      iter_count (use_best s_end) = iter_count s_end /\
      (forall a b, best_A s_end = Some a -> best_u s_end = Some b ->
         A (use_best s_end) = a /\ u (use_best s_end) = b /\
         diff (use_best s_end) = best_diff s_end)) /\
  (forall s fuel, fleb (diff s) (Fin tol) = true ->
                  while_loop (S fuel) L' w' T N s = Some s) /\
  (forall s fuel, iter_count s = max_iter ->
                  while_loop (S fuel) L' w' T N s = Some s) /\
  (forall s fuel c u_new A_new d a b,
      loop_cond s = true ->
      compute_updates L' w' T N s = Some (c, u_new, A_new, d) ->
      blend (alpha_update (iter_count s)) A_new (A s) = Some a ->
      blend (alpha_update (iter_count s)) u_new (u s) = Some b ->
      (50 < no_improvement_count (after_iteration s u_new A_new d a b))%nat ->
      while_loop (S fuel) L' w' T N s = Some (after_iteration s u_new A_new d a b)).
Proof.
  intros L' w'. split; [split; reflexivity |]. split; [| split; [| split]].
  - destruct (while_loop_total L' w' T N year_fuel (init_state N))
      as (s_end & Hrun & Hic & Hstop).
    + unfold init_state. cbn [iter_count]. lia.
    + unfold year_fuel, init_state. cbn [iter_count]. lia.
    + exists s_end.
      destruct (use_best_fields s_end) as (H1 & H2 & _).
      repeat split; try assumption.
      * rewrite run_year_unfold. fold L' w'.
        rewrite (Hrun year_fuel) by lia. reflexivity.
      * apply (H2 a b); assumption.
      * apply (H2 a b); assumption.
      * apply (H2 a b); assumption.
  - intros s fuel. apply while_loop_stops_at_tol.
  - intros s fuel. apply while_loop_stops_at_max_iter.
  - intros s fuel c u_new A_new d a b. apply while_loop_early_stop.
Qed.

(** ** What a year writes *)

Lemma invert_year_done (L w : vec) (T : mat) (N : nat) (o : year_output) (s : loop_state) :
  run_year L w T N = Some s ->
  invert_year L w T N = Done o ->
  A_col o = A s /\ u_col o = u s /\ final_diff o = diff s /\
  iterations o = iter_count s /\ warned o = snd (repair L w) /\
  length (A s) = N /\ length (u s) = N.
Proof.
  intros Hrun H. rewrite invert_year_unfold, Hrun in H.
  destruct ((length L =? 0)%nat || (length w =? 0)%nat); [discriminate |].
  destruct ((length (A s) =? N)%nat && (length (u s) =? N)%nat) eqn:Hlen;
    [| discriminate].
  injection H as <-. cbn.
  apply andb_prop in Hlen. destruct Hlen as [H1 H2].
  apply Nat.eqb_eq in H1, H2. repeat split; assumption.
Qed.

(** C5.  In the loop of a year, the residual of every iteration is
    [||A - A_new|| + ||u - u_new||]; the best residuals recorded after the
    iterations never go up; and the pair that the year writes is the pair
    [(A_new, u_new)] of an iteration whose residual no other iteration of
    the year has beaten -- unless no iteration recorded a pair at all. *)
Theorem best_iterate_returned (L w : vec) (T : mat) (N : nat) :
  let H := year_history L w T N in
  (forall e, In e H ->
     exists dA dU,
       bvec fsub (ev_A e) (ev_A_new e) = Some dA /\
       bvec fsub (ev_u e) (ev_u_new e) = Some dU /\
       ev_diff e = fadd (norm dA) (norm dU)) /\
  non_increasing (map ev_best_diff H) /\
  exists s_out : loop_state,
    run_year L w T N = Some s_out /\
    (forall o, invert_year L w T N = Done o ->
       A_col o = A s_out /\ u_col o = u s_out /\ final_diff o = diff s_out) /\
    ((exists e, In e H /\
                A s_out = ev_A_new e /\ u s_out = ev_u_new e /\
                diff s_out = ev_diff e /\
                forall e', In e' H -> fltb (ev_diff e') (ev_diff e) = false)
     \/
     (best_A s_out = None /\ best_u s_out = None /\
      forall e, In e H -> fltb (ev_diff e) PInf = false)).
Proof.
  intros H. unfold H. rewrite year_history_unfold, run_year_unfold.
  set (L' := fst (prepared L w)). set (w' := snd (prepared L w)).
  destruct (while_loop_total L' w' T N year_fuel (init_state N))
    as (s_end & Hrun & _ & _).
  { unfold init_state. cbn [iter_count]. lia. }
  { unfold year_fuel, init_state. cbn [iter_count]. lia. }
  specialize (Hrun year_fuel (Nat.le_refl _)).
  destruct (loop_history_inv L' w' T N year_fuel (init_state N) s_end []
              (best_inv_init N) Hrun) as (Hinv & Hsorted & _ & Hres).
  cbn [app] in Hinv.
  split; [| split].
  - intros e He. apply residual_inv. apply (Hres e He).
  - exact Hsorted.
  - exists (use_best s_end). rewrite Hrun. split; [reflexivity |]. split.
    + intros o Ho.
      destruct (invert_year_done L w T N o (use_best s_end)) as (H1 & H2 & H3 & _).
      * rewrite run_year_unfold. fold L' w'. now rewrite Hrun.
      * exact Ho.
      * repeat split; assumption.
    + destruct Hinv as (_ & Hlow & _ & Hpair). unfold use_best.
      destruct (best_A s_end) as [a |] eqn:HA, (best_u s_end) as [b |] eqn:Hu;
        try contradiction.
      * left. destruct Hpair as (e & Hin & Ha & Hb & Hd). exists e. cbn.
        split; [exact Hin |]. split; [congruence |]. split; [congruence |].
        split; [congruence |].
        intros e' He'. rewrite Hd. apply (Hlow e' He').
      * right. split; [first [reflexivity | assumption] |].
        split; [first [reflexivity | assumption] |].
        intros e He. rewrite <- Hpair. apply (Hlow e He).
Qed.

(** ** Repair of the missing values *)








(** ** The update formulas *)

Lemma compute_updates_spec (L w : vec) (T : mat) (N : nat) (s : loop_state) :
  (0 < N)%nat -> rect N N T -> length L = N -> length w = N -> shape_inv N s ->
  exists d,
    compute_updates L w T N s
    = Some (map (fun i => map (combined_spec T w (A s) i) (seq 0 N)) (seq 0 N),
            map (u_new_spec T w (A s) N) (seq 0 N),
            map (A_new_spec L w (u s) N) (seq 0 N),
            d).
Proof.
  intros HN HT HL Hw Hs.
  destruct (compute_updates_ok N T L w HN HT HL Hw s Hs) as (_ & _ & Hc).
  destruct Hs as [HA Hu].
  rewrite Hc.
  rewrite update_u_spec by assumption.
  rewrite combined_of_spec by assumption.
  rewrite A_raw_of_spec with (N := N) by assumption. rewrite map_map.
  eexists. reflexivity.
Qed.

(** C1.  With [N] locations and an [N x N] trade-cost matrix, every
    iteration of the loop of a year, at current estimates [A] and [u] and
    with the normalized [L] and [w], computes
    [combined[i][j] = clip(clip(T[i][j]^(1-sigma)) * clip(w[i]^(sigma-1)) *
    clip((A[j]/w[j])^(sigma-1)))],
    [u_new[i] = clip((mean_j combined[i][j])^(1/(1-sigma)))] divided by the
    mean of these over [i], and
    [A_new[i] = clip((L[i] * w[i]^(2 sigma-1) * u[i]^(sigma-1))^(1/(sigma-1)))]
    divided by the mean of these over [i]. *)
Theorem update_formulas (L w : vec) (T : mat) (N : nat) :
  (0 < N)%nat -> rect N N T -> length L = N -> length w = N ->
  let L' := fst (prepared L w) in
  let w' := snd (prepared L w) in
  (forall s, shape_inv N s ->
     exists d,
       compute_updates L' w' T N s
       = Some (map (fun i => map (combined_spec T w' (A s) i) (seq 0 N)) (seq 0 N),
               map (u_new_spec T w' (A s) N) (seq 0 N),
               map (A_new_spec L' w' (u s) N) (seq 0 N),
               d)) /\
  Forall (fun e =>
            ev_combined e
            = map (fun i => map (combined_spec T w' (ev_A e) i) (seq 0 N)) (seq 0 N) /\
            ev_u_new e = map (u_new_spec T w' (ev_A e) N) (seq 0 N) /\
            ev_A_new e = map (A_new_spec L' w' (ev_u e) N) (seq 0 N))
         (year_history L w T N).
Proof.
  intros HN HT HL Hw L' w'.
  destruct (prepared_length L w) as [HL' Hw'].
  fold L' in HL'. fold w' in Hw'. rewrite HL in HL'. rewrite Hw in Hw'.
  split.
  - intros s Hs. apply compute_updates_spec; assumption.
  - rewrite year_history_unfold. fold L' w'.
    apply (loop_history_forall L' w' T N (shape_inv N)).
    + intros s Hs. apply shape_inv_step; assumption.
    + intros s c u_new A_new d Hs Hc.
      destruct (compute_updates_spec L' w' T N s HN HT HL' Hw' Hs) as [d' Hc'].
      rewrite Hc in Hc'. injection Hc' as -> -> -> _. cbn. repeat split.
    + split; cbn; apply length_ones.
Qed.

(** A witness of C1: two locations, a [2 x 2] matrix. *)
Lemma update_formulas_witness :
  let L := [Fin 1; Fin 2] in
  let w := [Fin 10; Fin 10] in
  let T := [[Fin 1; Fin 2]; [Fin 2; Fin 1]] in
  let L' := fst (prepared L w) in
  let w' := snd (prepared L w) in
  (forall s, shape_inv 2 s ->
     exists d,
       compute_updates L' w' T 2 s
       = Some (map (fun i => map (combined_spec T w' (A s) i) (seq 0 2)) (seq 0 2),
               map (u_new_spec T w' (A s) 2) (seq 0 2),
               map (A_new_spec L' w' (u s) 2) (seq 0 2),
               d)) /\
  Forall (fun e =>
            ev_combined e
            = map (fun i => map (combined_spec T w' (ev_A e) i) (seq 0 2)) (seq 0 2) /\
            ev_u_new e = map (u_new_spec T w' (ev_A e) 2) (seq 0 2) /\
            ev_A_new e = map (A_new_spec L' w' (ev_u e) 2) (seq 0 2))
         (year_history L w T 2).
Proof.
  apply (update_formulas [Fin 1; Fin 2] [Fin 10; Fin 10]
                         [[Fin 1; Fin 2]; [Fin 2; Fin 1]] 2).
  - lia.
  - split; [reflexivity | repeat constructor].
  - reflexivity.
  - reflexivity.
Defined.

(** ** Usable columns through the preprocessing *)

Lemma count_nan_zero_forall (v : vec) :
  count_nan v = 0%nat -> Forall (fun x => x <> NaN) v.
Proof.
  unfold count_nan. induction v as [| x v IH]; intros H; [constructor |].
  cbn in H. destruct x; cbn in H; try discriminate;
    (constructor; [discriminate | apply IH; exact H]).
Qed.

Lemma usable_without_nan (v : vec) :
  Forall nan_or_nonneg v -> Forall (fun x => x <> NaN) v -> Forall fin_nonneg v.
Proof.
  intros H1 H2. induction H1 as [| x v Hx Hv IH]; [constructor |].
  inversion H2 as [| ? ? Hn Hrest]; subst. constructor; [| apply IH; exact Hrest].
  destruct Hx as [-> | Hx]; [contradiction | exact Hx].
Qed.

Lemma filter_usable (v : vec) :
  usable_column v ->
  Forall fin_nonneg (filter (fun x => negb (isnan x)) v) /\
  Exists fin_pos (filter (fun x => negb (isnan x)) v).
Proof.
  intros [Hall Hex]. split.
  - apply Forall_forall. intros x Hx. apply filter_In in Hx. destruct Hx as [Hin Hnn].
    rewrite Forall_forall in Hall. destruct (Hall x Hin) as [-> | H];
      [discriminate | exact H].
  - apply Exists_exists in Hex. destruct Hex as (x & Hin & Hp).
    apply Exists_exists. exists x. split; [| exact Hp].
    apply filter_In. split; [exact Hin |].
    destruct x; cbn in Hp; try contradiction. reflexivity.
Qed.

Lemma nanmean_usable (v : vec) :
  usable_column v -> exists m, nanmean v = Fin m /\ 0 < m.
Proof.
  intros Hv. destruct (filter_usable v Hv) as [Hall Hex].
  destruct (mean_pos _ Hall Hex) as [Hm Hpos].
  unfold nanmean. rewrite Hm. eauto.
Qed.

Lemma nan_to_num_usable (v : vec) (m : R) :
  usable_column v -> 0 < m ->
  Forall fin_nonneg (nan_to_num v (Fin m)) /\ Exists fin_pos (nan_to_num v (Fin m)).
Proof.
  intros [Hall Hex] Hm. unfold nan_to_num. split.
  - rewrite Forall_map. eapply Forall_impl; [| exact Hall].
    intros x [-> | Hx]; [cbn; lra |].
    destruct x; cbn in Hx; try contradiction. exact Hx.
  - apply Exists_exists in Hex. destruct Hex as (x & Hin & Hp).
    apply Exists_exists. exists x. split; [| exact Hp].
    destruct x as [r | | |]; cbn in Hp; try contradiction.
    change (Fin r) with ((fun x => match x with
                                   | NaN => Fin m
                                   | PInf => Fin float_max
                                   | NInf => Fin (- float_max)
                                   | Fin _ => x
                                   end) (Fin r)).
    apply in_map. exact Hin.
Qed.

Lemma repair_usable (L w : vec) :
  usable_column L -> usable_column w ->
  (Forall fin_nonneg (fst (fst (repair L w))) /\
   Exists fin_pos (fst (fst (repair L w)))) /\
  (Forall fin_nonneg (snd (fst (repair L w))) /\
   Exists fin_pos (snd (fst (repair L w)))).
Proof.
  intros HL Hw. unfold repair.
  destruct ((0 <? count_nan L)%nat || (0 <? count_nan w)%nat) eqn:Hc; cbn [fst snd].
  - destruct (nanmean_usable L HL) as (mL & -> & HmL).
    destruct (nanmean_usable w Hw) as (mw & -> & Hmw).
    split; apply nan_to_num_usable; assumption.
  - apply orb_false_elim in Hc. destruct Hc as [H1 H2].
    apply Nat.ltb_ge in H1, H2.
    assert (E1 : count_nan L = 0%nat) by lia.
    assert (E2 : count_nan w = 0%nat) by lia.
    split; (split; [| first [apply HL | apply Hw]]).
    + apply usable_without_nan; [apply HL | now apply count_nan_zero_forall].
    + apply usable_without_nan; [apply Hw | now apply count_nan_zero_forall].
Qed.

Lemma normalize_nonneg (v : vec) :
  Forall fin_nonneg v -> Exists fin_pos v -> Forall fin_nonneg (normalize v).
Proof.
  intros Hall Hex. destruct (mean_pos v Hall Hex) as [Hm Hpos].
  unfold normalize. rewrite Hm, Forall_map.
  eapply Forall_impl; [| exact Hall].
  intros x Hx. destruct x as [r | | |]; cbn in Hx; try contradiction.
  rewrite fdiv_fin by lra. cbn.
  apply Rmult_le_pos; [exact Hx |]. left. apply Rinv_0_lt_compat. exact Hpos.
Qed.

Lemma prepared_usable (L w : vec) :
  usable_column L -> usable_column w ->
  Forall fin_nonneg (fst (prepared L w)) /\ Forall fin_nonneg (snd (prepared L w)).
Proof.
  intros HL Hw. destruct (repair_usable L w HL Hw) as [[H1 H2] [H3 H4]].
  unfold prepared. cbn [fst snd]. split; apply normalize_nonneg; assumption.
Qed.

(** ** A year on usable data *)

Lemma invert_year_good (L w : vec) (T : mat) (N : nat) :
  (0 < N)%nat -> rect N N T -> no_nan T ->
  length L = N -> length w = N ->
  usable_column L -> usable_column w ->
  exists o, invert_year L w T N = Done o /\
            normalized N (A_col o) /\ normalized N (u_col o).
Proof.
  intros HN HT HTn HlL Hlw HL Hw.
  destruct (prepared_length L w) as [HlL' Hlw'].
  destruct (prepared_usable L w HL Hw) as [HL' Hw'].
  set (L' := fst (prepared L w)) in *. set (w' := snd (prepared L w)) in *.
  rewrite HlL in HlL'. rewrite Hlw in Hlw'.
  destruct (while_loop_total L' w' T N year_fuel (init_state N))
    as (s_end & Hrun & _ & _).
  { unfold init_state. cbn [iter_count]. lia. }
  { unfold year_fuel, init_state. cbn [iter_count]. lia. }
  specialize (Hrun year_fuel (Nat.le_refl _)).
  assert (Hgood : good_inv N s_end).
  { apply (while_loop_inv L' w' T N (good_inv N)) with (fuel := year_fuel)
                                                       (s := init_state N).
    - intros s Hs. apply good_inv_step; assumption.
    - apply good_inv_init. exact HN.
    - exact Hrun. }
  destruct (use_best_normalized N HN s_end Hgood) as [HA Hu].
  rewrite invert_year_unfold, run_year_unfold. fold L' w'. rewrite Hrun.
  rewrite HlL, Hlw. destruct (Nat.eqb_spec N 0) as [-> | _]; [lia |].
  cbn [orb option_map].
  rewrite (proj1 (proj1 HA)), (proj1 (proj1 Hu)), Nat.eqb_refl. cbn [andb].
  eexists. split; [reflexivity |]. cbn. split; assumption.
Qed.

Lemma invert_model_forall (P : year_output -> Prop) (N : nat) (T : mat)
      (years : list year_input) :
  Forall (fun y => exists o, invert_year (Population y) (Wage y) T N = Done o /\ P o)
         years ->
  exists outs, invert_model N T years = Some outs /\
               map fst outs = map year years /\
               Forall (fun yo => P (snd yo)) outs.
Proof.
  induction 1 as [| y years (o & Ho & HP) Hrest (outs & Hm & Hy & Houts)].
  - exists []. repeat split. constructor.
  - exists ((year y, o) :: outs). cbn [invert_model]. rewrite Ho, Hm.
    split; [reflexivity |]. split; [cbn; now rewrite Hy |].
    constructor; assumption.
Qed.

(** *** Data within the range of the doubles *)

Lemma safe_usable (v : vec) : safe_column v -> usable_column v.
Proof.
  intros (_ & Hall & Hex). split.
  - eapply Forall_impl; [| exact Hall].
    intros x [-> | (r & -> & Hr)]; [now left | right; cbn; lra].
  - apply Exists_exists. apply Exists_exists in Hex.
    destruct Hex as (x & Hin & r & -> & Hr). exists (Fin r).
    split; [exact Hin | cbn; lra].
Qed.

Lemma safe_year_usable (N : nat) (y : year_input) : safe_year N y -> usable_year N y.
Proof.
  intros (H1 & H2 & H3 & H4). repeat split; try assumption;
    try (apply safe_usable; assumption).
Qed.

Lemma normalized_near_one (N : nat) (v : vec) : normalized N v -> mean_near_one v.
Proof.
  intros [_ Hm]. exists 1. split; [exact Hm |].
  rewrite Rminus_diag, Rabs_R0. unfold mean_tolerance. lra.
Qed.

(** C6, amended.  With [N >= 1] locations, an [N x N] trade-cost matrix
    without NaN, and in every year columns [L] and [w] whose entries are
    NaN or numbers between [0] and [1e200], one entry at least of each
    column not below [1e-200]: every year is processed, and its returned
    [A] and [u] each have mean [1] within the floating tolerance [1e-9].
    (The idealised arithmetic gives the means exactly; the bounds on the
    data are those that keep the sums and the means of the doubles from
    overflow and underflow, and the tolerance covers their rounding.) *)
Theorem normalization_invariant (N : nat) (T : mat) (years : list year_input) :
  (0 < N)%nat -> rect N N T -> no_nan T ->
  Forall (safe_year N) years ->
  exists outs,
    invert_model N T years = Some outs /\
    map fst outs = map year years /\
    Forall (fun yo => mean_near_one (A_col (snd yo)) /\
                      mean_near_one (u_col (snd yo))) outs.
Proof.
  intros HN HT HTn Hyears.
  apply (invert_model_forall
           (fun o => mean_near_one (A_col o) /\ mean_near_one (u_col o))).
  eapply Forall_impl; [| exact Hyears].
  intros y Hy. destruct (safe_year_usable N y Hy) as (HlL & Hlw & HL & Hw).
  destruct (invert_year_good _ _ T N HN HT HTn HlL Hlw HL Hw) as (o & Ho & HA & Hu).
  exists o. split; [exact Ho |].
  split; [apply (normalized_near_one N), HA | apply (normalized_near_one N), Hu].
Qed.

(** C7, amended.  With [N >= 1] locations, an [N x N] trade-cost matrix
    without NaN, and in every year columns [L] and [w] that may hold zeros
    and NaNs but otherwise numbers up to [1e200], with one entry at least
    of each column not below [1e-200] (so that no sum overflows and no
    mean underflows on doubles): in every year every [A[i]] and [u[i]]
    written is a finite number that is strictly positive. *)
Theorem positivity_invariant (N : nat) (T : mat) (years : list year_input) :
  (0 < N)%nat -> rect N N T -> no_nan T ->
  Forall (safe_year N) years ->
  exists outs,
    invert_model N T years = Some outs /\
    map fst outs = map year years /\
    Forall (fun yo =>
              length (A_col (snd yo)) = N /\ length (u_col (snd yo)) = N /\
              forall i, (i < N)%nat ->
                        fin_pos (nth_v (A_col (snd yo)) i) /\
                        fin_pos (nth_v (u_col (snd yo)) i)) outs.
Proof.
  intros HN HT HTn Hyears.
  apply (invert_model_forall
           (fun o => length (A_col o) = N /\ length (u_col o) = N /\
                     forall i, (i < N)%nat ->
                               fin_pos (nth_v (A_col o) i) /\
                               fin_pos (nth_v (u_col o) i))).
  eapply Forall_impl; [| exact Hyears].
  intros y Hy. destruct (safe_year_usable N y Hy) as (HlL & Hlw & HL & Hw).
  destruct (invert_year_good _ _ T N HN HT HTn HlL Hlw HL Hw)
    as (o & Ho & [[HlA HA] _] & [[Hlu Hu] _]).
  exists o. split; [exact Ho |]. split; [exact HlA |]. split; [exact Hlu |].
  intros i Hi. split; apply Forall_nth_v; try assumption; lia.
Qed.

(** ** A column without a positive entry *)

Lemma Rsum_zero (v : vec) : Forall is_zero v -> Rsum v = 0.
Proof.
  induction 1 as [| x v Hx Hv IH]; [reflexivity |].
  unfold Rsum in *. cbn [fold_right]. rewrite IH.
  destruct x; cbn in *; try contradiction. lra.
Qed.

Lemma is_zero_finite (v : vec) : Forall is_zero v -> Forall (fun x => isfinite x = true) v.
Proof.
  intros H. eapply Forall_impl; [| exact H].
  intros x Hx. destruct x; cbn in *; try contradiction. reflexivity.
Qed.

Lemma divide_zeros_by_zero (m : R) (v : vec) :
  m = 0 -> Forall is_zero v ->
  map (fun x => fdiv x (Fin m)) v = repeat NaN (length v).
Proof.
  intros -> Hv. induction Hv as [| x v Hx Hv IH]; [reflexivity |].
  cbn [map length repeat]. rewrite IH. f_equal.
  destruct x as [r | | |]; cbn in Hx; try contradiction. subst r.
  cbn. now rewrite !Reqb_true.
Qed.

(** The mean of a column of zeros is zero, and [0/0] is a NaN. *)
Lemma normalize_zeros (v : vec) :
  v <> [] -> Forall is_zero v -> normalize v = repeat NaN (length v).
Proof.
  intros Hne Hv. unfold normalize, mean.
  rewrite (fsum_fin v (is_zero_finite v Hv)), (Rsum_zero v Hv).
  pose proof (INR_length_pos v Hne) as Hn.
  rewrite fdiv_fin by lra.
  apply divide_zeros_by_zero; [unfold Rdiv; lra | exact Hv].
Qed.

Lemma zip_with_nan_l (f : fval -> fval -> fval) (N : nat) (b : vec) :
  (forall y, f NaN y = NaN) -> length b = N ->
  zip_with f (repeat NaN N) b = repeat NaN N.
Proof.
  intros Hf Hb. subst N. rewrite zip_with_repeat_l.
  induction b as [| y b IH]; [reflexivity |]. cbn. now rewrite Hf, IH.
Qed.

Lemma zip_with_nan_r (f : fval -> fval -> fval) (N : nat) (a : vec) :
  (forall x, f x NaN = NaN) -> length a = N ->
  zip_with f a (repeat NaN N) = repeat NaN N.
Proof.
  intros Hf Ha. subst N. rewrite zip_with_repeat_r.
  induction a as [| x a IH]; [reflexivity |]. cbn. now rewrite Hf, IH.
Qed.

Lemma map_nan (f : fval -> fval) (N : nat) :
  f NaN = NaN -> map f (repeat NaN N) = repeat NaN N.
Proof. intros Hf. induction N as [| n IH]; [reflexivity |]. cbn. now rewrite Hf, IH. Qed.

Lemma fsub_nan_r (x : fval) : fsub x NaN = NaN.
Proof. destruct x; reflexivity. Qed.

Lemma norm_nan (N : nat) : (0 < N)%nat -> norm (repeat NaN N) = NaN.
Proof. intros H. destruct N; [lia |]. reflexivity. Qed.

Lemma fadd_nan_l (x : fval) : fadd NaN x = NaN.
Proof. reflexivity. Qed.

(** The loop of a year whose normalized population is all NaN: one
    iteration, whose residual is a NaN, so that nothing is recorded and the
    loop condition fails; the amenities are left all NaN. *)
Lemma nan_population_loop (N : nat) (T : mat) (w : vec) :
  (0 < N)%nat -> rect N N T -> length w = N ->
  exists s, while_loop year_fuel (repeat NaN N) w T N (init_state N) = Some s /\
            A s = repeat NaN N /\ length (u s) = N /\
            best_A s = None /\ iter_count s = 1%nat /\ diff s = NaN.
Proof.
  intros HN HT Hw.
  assert (HL : length (repeat NaN N) = N) by apply repeat_length.
  assert (Hs0 : shape_inv N (init_state N)) by (split; cbn; apply length_ones).
  destruct (compute_updates_ok N T (repeat NaN N) w HN HT HL Hw _ Hs0) as (Hlu & _ & Hc).
  destruct (iteration_ok N T (repeat NaN N) w HN HT HL Hw _ Hs0)
    as (c & u_new & A_new & d & a & b & Hc' & _ & _ & Ha & Hb & _ & Hlb & Hit).
  rewrite Hc in Hc'. injection Hc' as <- <- <- <-. clear Hc.
  assert (HAraw : A_raw_of (repeat NaN N) w (ones N) = repeat NaN N).
  { unfold A_raw_of, clipv.
    rewrite (zip_with_nan_l fmul N) by (try reflexivity; now rewrite length_map).
    rewrite (zip_with_nan_l fmul N) by
        (try reflexivity; rewrite length_map; cbn; apply length_ones).
    rewrite !map_nan; reflexivity. }
  rewrite HAraw in Ha, Hit. rewrite map_nan in Ha, Hit by reflexivity.
  rewrite (zip_with_nan_r fsub N) in Hit by (try apply fsub_nan_r; apply length_ones).
  rewrite (norm_nan N HN), fadd_nan_l in Hit.
  unfold scale in Ha. rewrite map_nan in Ha by reflexivity.
  rewrite (zip_with_nan_l fadd N) in Ha
    by (try reflexivity; rewrite length_map; apply length_ones).
  subst a. cbn zeta in Hit.
  unfold after_iteration, track_best in Hit. cbn [best_diff init_state fltb] in Hit.
  unfold set_u, set_A, next_iter in Hit.
  cbn [A u diff iter_count no_improvement_count best_diff best_A best_u Nat.ltb Nat.leb] in Hit.
  eexists. split.
  - unfold year_fuel, max_iter. cbn [while_loop]. rewrite loop_cond_init.
    rewrite Hit. unfold loop_cond. cbn [diff fgtb fltb andb]. reflexivity.
  - cbn [A u diff iter_count best_A]. repeat split. exact Hlb.
Qed.

Lemma invert_year_nan_population (L w : vec) (T : mat) (N : nat) :
  (0 < N)%nat -> rect N N T -> length L = N -> length w = N ->
  fst (prepared L w) = repeat NaN N ->
  exists o, invert_year L w T N = Done o /\
            A_col o = repeat NaN N /\ iterations o = 1%nat /\ final_diff o = NaN.
Proof.
  intros HN HT HlL Hlw HL'.
  destruct (prepared_length L w) as [_ Hlw']. rewrite Hlw in Hlw'.
  destruct (nan_population_loop N T (snd (prepared L w)) HN HT Hlw')
    as (s & Hrun & HA & Hlu & Hbest & Hic & Hd).
  rewrite invert_year_unfold, run_year_unfold, HL', Hrun.
  rewrite HlL, Hlw. destruct (Nat.eqb_spec N 0) as [-> | _]; [lia |].
  cbn [orb option_map].
  destruct (use_best_fields s) as (_ & _ & Hsame).
  rewrite (Hsame (or_introl Hbest)).
  rewrite HA, repeat_length, Hlu, Nat.eqb_refl. cbn [andb].
  eexists. split; [reflexivity |]. cbn. repeat split; assumption.
Qed.

Ltac column_tac :=
  repeat match goal with
         | |- Forall _ (_ :: _) => apply Forall_cons
         | |- Forall _ [] => apply Forall_nil
         | |- nan_or_nonneg NaN => left; reflexivity
         | |- nan_or_nonneg (Fin _) => right; cbn; lra
         | |- usable_column _ => split
         | |- Exists fin_pos (Fin _ :: _) => apply Exists_cons_hd; cbn; lra
         | |- usable_year _ _ =>
             split; [reflexivity |]; split; [reflexivity |]; split;
             cbn [Population Wage]
         | |- safe_entry NaN => left; reflexivity
         | |- safe_entry (Fin ?r) => right; exists r; split; [reflexivity | lra]
         | |- safe_column _ => split; [cbn; lia |]; split
         | |- Exists large_entry (Fin ?r :: _) =>
             apply Exists_cons_hd; exists r; split; [reflexivity | lra]
         | |- safe_year _ _ =>
             split; [reflexivity |]; split; [reflexivity |]; split;
             cbn [Population Wage]
         end.

(** C6, as the claim states it, fails in a year whose population column
    holds no positive entry.  One location with population [0]: the mean of
    [L] is [0], the normalized [L] is [0/0], and the year ends after one
    iteration with [A = [NaN]], whose mean is a NaN: it is not [1], within
    no tolerance. *)
Lemma normalization_counterexample :
  let T := [[Fin 1]] in
  let years := [mkInput 1975 [Fin 0] [Fin 1]] in
  exists o, invert_model 1 T years = Some [(1975%Z, o)] /\
            A_col o = [NaN] /\ mean (A_col o) = NaN /\
            ~ mean_near_one (A_col o).
Proof.
  intros T years.
  destruct (invert_year_nan_population [Fin 0] [Fin 1] T 1)
    as (o & Ho & HA & _).
  - lia.
  - split; [reflexivity | repeat constructor].
  - reflexivity.
  - reflexivity.
  - change (fst (prepared [Fin 0] [Fin 1])) with (normalize [Fin 0]).
    apply (normalize_zeros [Fin 0]); [discriminate |].
    repeat constructor.
  - exists o. unfold years. cbn [invert_model Population Wage year].
    rewrite Ho. split; [reflexivity |]. split; [exact HA |].
    rewrite HA. split; [reflexivity |].
    intros (m & Hm & _). discriminate.
Qed.

(** A witness of the amended C6: three locations, a zero and a NaN in the
    population, a zero and a NaN in the wages. *)
Lemma normalization_invariant_witness :
  let T := [[Fin 1; Fin 2; Fin 3]; [Fin 2; Fin 1; Fin 2]; [Fin 3; Fin 2; Fin 1]] in
  let years := [mkInput 1975 [Fin 1; NaN; Fin 0] [Fin 10; Fin 0; NaN]] in
  exists outs,
    invert_model 3 T years = Some outs /\
    map fst outs = map year years /\
    Forall (fun yo => mean_near_one (A_col (snd yo)) /\
                      mean_near_one (u_col (snd yo))) outs.
Proof.
  intros T years.
  apply (normalization_invariant 3 T years).
  - lia.
  - split; [reflexivity | repeat constructor].
  - repeat constructor; discriminate.
  - unfold years. column_tac.
Defined.

(** C7, as the claim states it, fails on a population column that holds a
    NaN and a zero and nothing else: the NaN is replaced by the mean [0] of
    the other entry, the normalized column is [0/0], and the amenities that
    the year writes are NaN, which is not a positive number. *)
Lemma positivity_counterexample :
  let T := [[Fin 1; Fin 2]; [Fin 2; Fin 1]] in
  let years := [mkInput 1975 [NaN; Fin 0] [Fin 1; Fin 1]] in
  exists o, invert_model 2 T years = Some [(1975%Z, o)] /\
            nth_v (A_col o) 0 = NaN /\ ~ fin_pos (nth_v (A_col o) 0).
Proof.
  intros T years.
  destruct (invert_year_nan_population [NaN; Fin 0] [Fin 1; Fin 1] T 2)
    as (o & Ho & HA & _).
  - lia.
  - split; [reflexivity | repeat constructor].
  - reflexivity.
  - reflexivity.
  - change (fst (prepared [NaN; Fin 0] [Fin 1; Fin 1]))
      with (normalize [mean [Fin 0]; Fin 0]).
    assert (Hm : mean [Fin 0] = Fin ((0 + 0) / INR 1)).
    { unfold mean. cbn [fsum fold_right fadd length]. apply fdiv_fin. cbn. lra. }
    rewrite Hm. apply (normalize_zeros [Fin ((0 + 0) / INR 1); Fin 0]);
      [discriminate |].
    repeat constructor. cbn. unfold Rdiv. lra.
  - exists o. unfold years. cbn [invert_model Population Wage year].
    rewrite Ho. split; [reflexivity |]. rewrite HA. cbn. split; [reflexivity | tauto].
Qed.

(** A witness of the amended C7, on the data of the witness above. *)
Lemma positivity_invariant_witness :
  let T := [[Fin 1; Fin 2; Fin 3]; [Fin 2; Fin 1; Fin 2]; [Fin 3; Fin 2; Fin 1]] in
  let years := [mkInput 1975 [Fin 1; NaN; Fin 0] [Fin 10; Fin 0; NaN]] in
  exists outs,
    invert_model 3 T years = Some outs /\
    map fst outs = map year years /\
    Forall (fun yo =>
              length (A_col (snd yo)) = 3%nat /\ length (u_col (snd yo)) = 3%nat /\
              forall i, (i < 3)%nat ->
                        fin_pos (nth_v (A_col (snd yo)) i) /\
                        fin_pos (nth_v (u_col (snd yo)) i)) outs.
Proof.
  intros T years.
  apply (positivity_invariant 3 T years).
  - lia.
  - split; [reflexivity | repeat constructor].
  - repeat constructor; discriminate.
  - unfold years. column_tac.
Defined.

(** ** The distance matrix *)

Lemma sequence_some {X : Type} (l : list (option X)) (xs : list X) :
  sequence l = Some xs <-> l = map Some xs.
Proof.
  revert xs. induction l as [| o l IH]; intros xs; cbn.
  - split.
    + intros H. injection H as <-. reflexivity.
    + destruct xs; [reflexivity | discriminate].
  - destruct o as [x |]; cbn.
    + destruct (sequence l) as [ys |] eqn:Hs; cbn.
      * split.
        -- intros H. injection H as <-. cbn. f_equal. now apply IH.
        -- destruct xs as [| x' xs]; [discriminate |]. cbn. intros H.
           injection H as -> Hl. apply IH in Hl. congruence.
      * split; [discriminate |].
        destruct xs as [| x' xs]; [discriminate |]. cbn. intros H.
        injection H as _ Hl. apply IH in Hl. discriminate.
    + split; [discriminate |]. destruct xs; discriminate.
Qed.

Lemma sequence_none {X : Type} (l : list (option X)) :
  sequence l = None <-> In None l.
Proof.
  induction l as [| o l IH]; cbn.
  - split; [discriminate | intros []].
  - destruct o as [x |]; cbn.
    + destruct (sequence l) as [ys |]; cbn.
      * split; [discriminate |]. intros [H | H]; [discriminate |].
        apply IH in H. discriminate.
      * split; [| reflexivity]. intros _. right. now apply IH.
    + split; [| reflexivity]. intros _. now left.
Qed.

Lemma enumerate_length {X : Type} (l : list X) : length (enumerate l) = length l.
Proof. unfold enumerate. rewrite length_combine, length_seq. apply Nat.min_id. Qed.

Lemma enumerate_nth {X : Type} (l : list X) (i : nat) (d : X) :
  (i < length l)%nat -> nth i (enumerate l) (0%nat, d) = (i, nth i l d).
Proof.
  intros H. unfold enumerate. rewrite combine_nth by apply length_seq.
  now rewrite seq_nth.
Qed.

Lemma enumerate_In {X : Type} (l : list X) (i : nat) (x : X) :
  In (i, x) (enumerate l) -> (i < length l)%nat /\ nth_error l i = Some x.
Proof.
  unfold enumerate. intros H.
  apply (In_nth _ _ (0%nat, x)) in H. destruct H as (n & Hn & Hnth).
  rewrite length_combine, length_seq, Nat.min_id in Hn.
  rewrite combine_nth in Hnth by apply length_seq.
  rewrite seq_nth in Hnth by exact Hn. injection Hnth as <- Hx.
  split; [exact Hn |]. rewrite <- Hx. now apply nth_error_nth'.
Qed.

(** *** Centroids within bounds *)

Lemma half_is_inv2 : 0.5 = / 2.
Proof. lra. Qed.

Lemma overflow_threshold_bounds : 1e301 < overflow_threshold <= 1e310.
Proof. unfold overflow_threshold, float_max. split; lra. Qed.

Lemma overflow_small (r : R) :
  -1e301 <= r <= 1e301 -> overflow (Fin r) = Fin r.
Proof.
  intros Hr. pose proof overflow_threshold_bounds as Ht.
  unfold overflow, Rleb. destruct (Rle_dec _ _) as [H | _]; [| reflexivity].
  exfalso. assert (Rabs r <= 1e301) by (apply Rabs_le; lra). lra.
Qed.

Lemma float_pow2_small (r : R) :
  -2e150 <= r <= 2e150 -> float_pow2 (Fin r) = Some (Fin (Rsqr r)).
Proof.
  intros Hr. unfold float_pow2, powZ. cbn [Z.eqb Z.ltb Z.compare andb].
  rewrite andb_false_r.
  assert (E : powerRZ r 2 = Rsqr r)
    by (unfold powerRZ; change (Pos.to_nat 2) with 2%nat; unfold Rsqr; ring).
  rewrite E. assert (H0 : 0 <= Rsqr r) by apply Rle_0_sqr.
  assert (H1 : Rsqr r <= 4e300) by (unfold Rsqr; nra).
  rewrite overflow_small by lra. reflexivity.
Qed.

Lemma float_pow2_overflow (r : R) :
  1e155 <= Rabs r -> float_pow2 (Fin r) = None.
Proof.
  intros Hr. pose proof overflow_threshold_bounds as Ht.
  unfold float_pow2, powZ. cbn [Z.eqb Z.ltb Z.compare andb].
  rewrite andb_false_r.
  assert (E : powerRZ r 2 = Rsqr r)
    by (unfold powerRZ; change (Pos.to_nat 2) with 2%nat; unfold Rsqr; ring).
  rewrite E.
  assert (H1 : 1e310 <= Rsqr r).
  { rewrite (Rsqr_abs r). unfold Rsqr. pose proof (Rabs_pos r). nra. }
  unfold overflow, Rleb.
  destruct (Rle_dec _ _) as [_ | Hn].
  - rewrite Rltb_true by lra. reflexivity.
  - exfalso. apply Hn. rewrite Rabs_pos_eq by lra. lra.
Qed.

Lemma distance_bounded (p q : point) :
  bounded_point (Some p) -> bounded_point (Some q) ->
  distance p q = Some (Fin (km_between (coords (Some p)) (coords (Some q)))).
Proof.
  intros (a & b & Hpx & Hpy & Ha & Hb) (c & d & Hqx & Hqy & Hc & Hd).
  unfold distance, km_between, coords. rewrite Hpx, Hpy, Hqx, Hqy.
  cbn [fsub fneg fadd Rval fst snd].
  replace (a + - c) with (a - c) by lra. replace (b + - d) with (b - d) by lra.
  rewrite !overflow_small by lra. rewrite !float_pow2_small by lra.
  cbn [bind fadd].
  assert (Hs0 : 0 <= Rsqr (a - c) + Rsqr (b - d))
    by (apply Rplus_le_le_0_compat; apply Rle_0_sqr).
  assert (Hs1 : Rsqr (a - c) + Rsqr (b - d) <= 8e300) by (unfold Rsqr; nra).
  rewrite overflow_small by lra.
  clear Hs1. generalize dependent (Rsqr (a - c) + Rsqr (b - d)). intros s Hs0.
  assert (Hpow : powR (Fin s) 0.5 = Fin (sqrt s)).
  { destruct (Req_dec_T s 0) as [E | NE].
    - cbn. rewrite Rltb_false by lra. rewrite (Reqb_true _ _ E).
      rewrite Rltb_true by lra. now rewrite E, sqrt_0.
    - rewrite powR_pos by lra. f_equal. rewrite half_is_inv2.
      apply Rpower_sqrt. lra. }
  rewrite Hpow. f_equal. apply fdiv_fin. lra.
Qed.

(** The square of a difference that is too large for a double: line 153
    raises. *)
Lemma distance_overflow (p q : point) (a b : R) :
  px p = Fin a -> px q = Fin b -> 1e155 <= Rabs (a - b) <= 1e300 ->
  distance p q = None.
Proof.
  intros Hp Hq [Hlo Hhi]. unfold distance. rewrite Hp, Hq.
  cbn [fsub fneg fadd]. replace (a + - b) with (a - b) by lra.
  assert (Hr : -1e301 <= a - b <= 1e301).
  { assert (H : Rabs (a - b) <= 1e301) by lra.
    unfold Rabs in H. destruct (Rcase_abs (a - b)); lra. }
  rewrite overflow_small by exact Hr.
  now rewrite float_pow2_overflow.
Qed.

(** *** The matrix, cell by cell *)

Lemma sequence_map_some {X Y : Type} (f : X -> option Y) (g : X -> Y) (l : list X) :
  (forall x, In x l -> f x = Some (g x)) -> sequence (map f l) = Some (map g l).
Proof.
  intros H. apply sequence_some. rewrite map_map.
  apply map_ext_in. exact H.
Qed.

Lemma enumerate_In_intro {X : Type} (l : list X) (i : nat) (d : X) :
  (i < length l)%nat -> In (i, nth i l d) (enumerate l).
Proof.
  intros H. rewrite <- (enumerate_nth l i d H).
  apply nth_In. now rewrite enumerate_length.
Qed.

Lemma nth_map_enumerate {X Y : Type} (F : nat * X -> Y) (l : list X) (i : nat)
      (d : X) (d0 : Y) :
  (i < length l)%nat -> nth i (map F (enumerate l)) d0 = F (i, nth i l d).
Proof.
  intros H.
  rewrite (nth_indep _ d0 (F (0%nat, d))) by (now rewrite length_map, enumerate_length).
  rewrite map_nth. now rewrite enumerate_nth.
Qed.

Lemma no_raise_cell (cs : list (option point)) (i j : nat) (c1 c2 : option point) :
  Forall bounded_point cs \/ (length cs <= 1)%nat ->
  In (i, c1) (enumerate cs) -> In (j, c2) (enumerate cs) ->
  distance_cell i j c1 c2 = Some (cell_value i j c1 c2).
Proof.
  intros Hcs H1 H2. apply enumerate_In in H1, H2.
  destruct H1 as [Hi H1], H2 as [Hj H2].
  apply nth_error_In in H1, H2.
  unfold cell_value, distance_cell.
  destruct (Nat.eqb_spec i j) as [E | NE]; [reflexivity |].
  destruct Hcs as [Hb | Hle]; [| lia].
  rewrite Forall_forall in Hb.
  pose proof (Hb c1 H1) as Hb1. pose proof (Hb c2 H2) as Hb2.
  destruct c1 as [p |]; [| contradiction]. destruct c2 as [q |]; [| contradiction].
  now rewrite (distance_bounded p q Hb1 Hb2).
Qed.

(** With centroids within bounds (or with one row only) the matrix is
    built, square, and its cells are those of lines 149-157. *)
Lemma calculate_distance_matrix_ok (cs : list (option point)) :
  Forall bounded_point cs \/ (length cs <= 1)%nat ->
  exists D,
    calculate_distance_matrix cs = Some D /\
    rect (length cs) (length cs) D /\
    forall i j, (i < length cs)%nat -> (j < length cs)%nat ->
                nth_m D i j = cell_value i j (nth i cs None) (nth j cs None).
Proof.
  intros Hcs.
  set (row_of := fun ic1 : nat * option point =>
                   map (fun jc2 : nat * option point =>
                          cell_value (fst ic1) (fst jc2) (snd ic1) (snd jc2))
                       (enumerate cs)).
  exists (map row_of (enumerate cs)). split; [| split].
  - unfold calculate_distance_matrix. apply sequence_map_some.
    intros [i c1] H1. cbn [fst snd]. apply sequence_map_some.
    intros [j c2] H2. cbn [fst snd]. now apply (no_raise_cell cs).
  - split.
    + now rewrite length_map, enumerate_length.
    + rewrite Forall_map. apply Forall_forall. intros ic1 _.
      unfold row_of. now rewrite length_map, enumerate_length.
  - intros i j Hi Hj. unfold nth_m, row_of.
    rewrite (nth_map_enumerate _ cs i None [] Hi). cbn [fst snd].
    rewrite (nth_map_enumerate _ cs j None NaN Hj). reflexivity.
Qed.

(** A cell off the diagonal that raises: so does the function. *)
Lemma calculate_distance_matrix_raises (cs : list (option point)) (i j : nat) :
  (i < length cs)%nat -> (j < length cs)%nat ->
  distance_cell i j (nth i cs None) (nth j cs None) = None ->
  calculate_distance_matrix cs = None.
Proof.
  intros Hi Hj Hcell.
  unfold calculate_distance_matrix. apply sequence_none.
  apply in_map_iff. exists (i, nth i cs None). split.
  - cbn [fst snd]. apply sequence_none. apply in_map_iff.
    exists (j, nth j cs None). split; [exact Hcell | now apply enumerate_In_intro].
  - now apply enumerate_In_intro.
Qed.

Lemma km_between_self (a : R * R) : km_between a a = 0.
Proof.
  unfold km_between. rewrite !Rminus_diag, Rsqr_0, Rplus_0_r, sqrt_0.
  unfold Rdiv. apply Rmult_0_l.
Qed.

Lemma km_between_sym (a b : R * R) : km_between a b = km_between b a.
Proof.
  unfold km_between. rewrite (Rsqr_neg_minus (fst a)), (Rsqr_neg_minus (snd a)).
  reflexivity.
Qed.

Lemma km_between_nonneg (a b : R * R) : 0 <= km_between a b.
Proof.
  unfold km_between. apply Rmult_le_pos; [apply sqrt_pos | lra].
Qed.

Lemma cell_value_bounded (cs : list (option point)) (i j : nat) :
  Forall bounded_point cs -> (i < length cs)%nat -> (j < length cs)%nat ->
  cell_value i j (nth i cs None) (nth j cs None)
  = Fin (km_between (coords (nth i cs None)) (coords (nth j cs None))).
Proof.
  intros Hcs Hi Hj.
  assert (H1 : bounded_point (nth i cs None))
    by (rewrite Forall_forall in Hcs; apply Hcs, nth_In, Hi).
  assert (H2 : bounded_point (nth j cs None))
    by (rewrite Forall_forall in Hcs; apply Hcs, nth_In, Hj).
  unfold cell_value, distance_cell.
  destruct (Nat.eqb_spec i j) as [<- | NE].
  - now rewrite km_between_self.
  - destruct (nth i cs None) as [p |]; [| contradiction].
    destruct (nth j cs None) as [q |]; [| contradiction].
    now rewrite (distance_bounded p q H1 H2).
Qed.

Lemma bounded_not_missing (cs : list (option point)) :
  Forall bounded_point cs -> ~ In None cs.
Proof.
  intros H Hin. rewrite Forall_forall in H. exact (H None Hin).
Qed.

Lemma nth_m_out (r c : nat) (m : mat) (i j : nat) :
  rect r c m -> (r <= i)%nat \/ (c <= j)%nat -> nth_m m i j = NaN.
Proof.
  intros Hm Hout. unfold nth_m.
  destruct (Nat.lt_ge_cases i r) as [Hi | Hi].
  - apply nth_overflow. rewrite (rect_nth_row r c m i Hm Hi). lia.
  - rewrite (nth_overflow m []) by (destruct Hm; lia). now destruct j.
Qed.

(** ** Properties of the distance matrix *)

Lemma rect_symmetric (N : nat) (m : mat) :
  rect N N m ->
  (forall i j, (i < N)%nat -> (j < N)%nat -> nth_m m i j = nth_m m j i) ->
  symmetric m.
Proof.
  intros Hm H i j.
  destruct (Nat.lt_ge_cases i N) as [Hi | Hi], (Nat.lt_ge_cases j N) as [Hj | Hj].
  - now apply H.
  - rewrite (nth_m_out N N m i j Hm) by lia. now rewrite (nth_m_out N N m j i Hm) by lia.
  - rewrite (nth_m_out N N m i j Hm) by lia. now rewrite (nth_m_out N N m j i Hm) by lia.
  - rewrite (nth_m_out N N m i j Hm) by lia. now rewrite (nth_m_out N N m j i Hm) by lia.
Qed.

(** X1.  When the coordinates of every centroid are numbers of magnitude
    [1e150] at most, the distance matrix is built; it is square of the
    size of the table and symmetric, its entry [(i, j)] is the Euclidean
    distance of the centroids [i] and [j] divided by 1000, its diagonal is
    zero and no entry is negative. *)
Theorem distance_matrix_finite (cs : list (option point)) :
  Forall bounded_point cs ->
  exists D,
    calculate_distance_matrix cs = Some D /\
    rect (length cs) (length cs) D /\
    symmetric D /\
    forall i j, (i < length cs)%nat -> (j < length cs)%nat ->
      nth_m D i j = Fin (km_between (coords (nth i cs None)) (coords (nth j cs None))) /\
      nth_m D i i = Fin 0 /\
      fin_nonneg (nth_m D i j).
Proof.
  intros Hcs.
  destruct (calculate_distance_matrix_ok cs (or_introl Hcs))
    as (D & HD & Hrect & Hcell).
  assert (Hentry : forall i j, (i < length cs)%nat -> (j < length cs)%nat ->
            nth_m D i j
            = Fin (km_between (coords (nth i cs None)) (coords (nth j cs None)))).
  { intros i j Hi Hj. rewrite (Hcell i j Hi Hj). now apply cell_value_bounded. }
  exists D. split; [exact HD |]. split; [exact Hrect |]. split.
  - apply (rect_symmetric (length cs)); [exact Hrect |].
    intros i j Hi Hj. rewrite !Hentry by assumption. f_equal. apply km_between_sym.
  - intros i j Hi Hj. split; [now apply Hentry |]. split.
    + rewrite Hentry by assumption. now rewrite km_between_self.
    + rewrite Hentry by assumption. cbn. apply km_between_nonneg.
Qed.

Ltac point_tac :=
  repeat match goal with
         | |- Forall _ (_ :: _) => apply Forall_cons
         | |- Forall _ [] => apply Forall_nil
         | |- _ \/ bounded_point (Some _) => right
         | |- None = None \/ _ => left; reflexivity
         | |- bounded_point (Some (mkPoint (Fin ?x) (Fin ?y))) =>
             exists x, y; cbn [px py];
             split; [reflexivity |]; split; [reflexivity |]; split; lra
         end.

(** A witness of X1: two centroids 5 km apart. *)
Lemma distance_matrix_finite_witness :
  let cs := [Some (mkPoint (Fin 0) (Fin 0)); Some (mkPoint (Fin 3000) (Fin 4000))] in
  exists D,
    calculate_distance_matrix cs = Some D /\
    rect (length cs) (length cs) D /\
    symmetric D /\
    forall i j, (i < length cs)%nat -> (j < length cs)%nat ->
      nth_m D i j = Fin (km_between (coords (nth i cs None)) (coords (nth j cs None))) /\
      nth_m D i i = Fin 0 /\
      fin_nonneg (nth_m D i j).
Proof.
  apply (distance_matrix_finite
           [Some (mkPoint (Fin 0) (Fin 0)); Some (mkPoint (Fin 3000) (Fin 4000))]).
  point_tac.
Defined.

Lemma missing_dec {X : Type} (l : list (option X)) : In None l \/ ~ In None l.
Proof.
  induction l as [| [x |] l [IH | IH]].
  - right. intros [].
  - left. now right.
  - right. intros [H | H]; [discriminate | contradiction].
  - left. now left.
  - left. now left.
Qed.

(** X3.  On a table whose centroids, where there is one, have coordinates
    of magnitude [1e150] at most, [calculate_distance_matrix] raises
    exactly when the table has two rows at least and one of them has no
    centroid: the diagonal never looks at a centroid, every other cell
    looks at both of its centroids. *)
Theorem missing_centroid_raises (cs : list (option point)) :
  Forall (fun c => c = None \/ bounded_point c) cs ->
  (calculate_distance_matrix cs = None <-> (2 <= length cs)%nat /\ In None cs).
Proof.
  intros Hcs. split.
  - intros H.
    destruct (Nat.le_gt_cases 2 (length cs)) as [Hlen | Hlen].
    + split; [exact Hlen |].
      destruct (missing_dec cs) as [Hin | Hnot]; [exact Hin |].
      destruct (calculate_distance_matrix_ok cs) as (D & HD & _); [| congruence].
      left. rewrite Forall_forall in Hcs. apply Forall_forall. intros c Hc.
      destruct (Hcs c Hc) as [-> | Hb]; [contradiction | exact Hb].
    + destruct (calculate_distance_matrix_ok cs) as (D & HD & _); [right; lia |].
      congruence.
  - intros [Hlen Hin].
    apply (In_nth _ _ None) in Hin. destruct Hin as (k & Hk & Hnone).
    set (j := if (k =? 0)%nat then 1%nat else 0%nat).
    assert (Hj : (j < length cs)%nat) by (unfold j; destruct (k =? 0)%nat; lia).
    assert (Hjk : k <> j) by (unfold j; destruct (Nat.eqb_spec k 0); lia).
    apply (calculate_distance_matrix_raises cs k j Hk Hj).
    unfold distance_cell.
    destruct (Nat.eqb_spec k j); [contradiction |]. now rewrite Hnone.
Qed.

(** A witness of X3: a centroid and a row without one. *)
Lemma missing_centroid_raises_witness :
  let cs := [Some (mkPoint (Fin 0) (Fin 0)); None] in
  calculate_distance_matrix cs = None <-> (2 <= length cs)%nat /\ In None cs.
Proof.
  apply (missing_centroid_raises [Some (mkPoint (Fin 0) (Fin 0)); None]).
  point_tac.
Defined.

(** X19.  Two centroids whose [x] differ by [1e155] or more (and by
    [1e300] at most): the square of the difference is too large for a
    double, line 153 raises [OverflowError], and so does
    [calculate_distance_matrix], although no centroid is missing. *)
Theorem distance_overflow_raises (cs : list (option point)) (i j : nat)
        (p q : point) (a b : R) :
  i <> j ->
  nth_error cs i = Some (Some p) -> nth_error cs j = Some (Some q) ->
  px p = Fin a -> px q = Fin b ->
  1e155 <= Rabs (a - b) <= 1e300 ->
  calculate_distance_matrix cs = None.
Proof.
  intros Hij Hi Hj Hp Hq Hab.
  assert (Hi' : (i < length cs)%nat) by (apply nth_error_Some; congruence).
  assert (Hj' : (j < length cs)%nat) by (apply nth_error_Some; congruence).
  apply (calculate_distance_matrix_raises cs i j Hi' Hj').
  rewrite (nth_error_nth cs i None Hi), (nth_error_nth cs j None Hj).
  unfold distance_cell. destruct (Nat.eqb_spec i j); [contradiction |].
  now apply (distance_overflow p q a b).
Qed.

(** A witness of X19: the centroids [(1e200, 0)] and [(0, 0)]. *)
Lemma distance_overflow_raises_witness :
  calculate_distance_matrix
    [Some (mkPoint (Fin 1e200) (Fin 0)); Some (mkPoint (Fin 0) (Fin 0))] = None.
Proof.
  apply (distance_overflow_raises
           [Some (mkPoint (Fin 1e200) (Fin 0)); Some (mkPoint (Fin 0) (Fin 0))]
           0 1 (mkPoint (Fin 1e200) (Fin 0)) (mkPoint (Fin 0) (Fin 0)) 1e200 0).
  - lia.
  - reflexivity.
  - reflexivity.
  - reflexivity.
  - reflexivity.
  - rewrite Rabs_pos_eq by lra. lra.
Defined.

(** ** More on the trade costs *)

Lemma nth_m_map_total (f : fval -> fval) (m : mat) (i j : nat) :
  f NaN = NaN -> nth_m (map (map f) m) i j = f (nth_m m i j).
Proof.
  intros Hf. unfold nth_m.
  destruct (Nat.lt_ge_cases i (length m)) as [Hi | Hi].
  - destruct (Nat.lt_ge_cases j (length (nth i m []))) as [Hj | Hj].
    + now apply nth_m_map.
    + rewrite (nth_indep _ [] (map f [])) by (now rewrite length_map).
      rewrite map_nth.
      rewrite (nth_overflow (map f _)) by (now rewrite length_map).
      now rewrite (nth_overflow (nth i m [])).
  - rewrite (nth_overflow (map (map f) m)) by (now rewrite length_map).
    rewrite (nth_overflow m) by exact Hi. destruct j; cbn; now rewrite Hf.
Qed.

(** Every cell of the result, in range or not. *)
Lemma trade_cost_cell (D : mat) (phi : fval) (i j : nat) :
  nth_m (calculate_trade_costs D phi) i j
  = fexp (clip (fmul (nth_m D i j) phi) (-700) 700).
Proof.
  unfold calculate_trade_costs.
  rewrite nth_m_map_total by reflexivity.
  now rewrite nth_m_map_total by reflexivity.
Qed.

Lemma exp_le (a b : R) : a <= b -> exp a <= exp b.
Proof.
  intros [H | ->]; [left; now apply exp_increasing | right; reflexivity].
Qed.

Lemma ctc_rect (r c : nat) (D : mat) (phi : fval) :
  rect r c D -> rect r c (calculate_trade_costs D phi).
Proof. intros H. unfold calculate_trade_costs. now apply rect_map, rect_map. Qed.

(** X4.  The clip keeps the exponential from overflow and underflow: a
    cell of [T] is a NaN exactly when [phi * D[i][j]] is one, and
    otherwise, also when the product is infinite, it is a finite number
    between [exp(-700)] and [exp(700)]. *)
Theorem trade_costs_never_overflow (D : mat) (phi : fval) (i j : nat) :
  let x := fmul (nth_m D i j) phi in
  let t := nth_m (calculate_trade_costs D phi) i j in
  (x = NaN <-> t = NaN) /\ (x <> NaN -> bounded_cost t).
Proof.
  intros x t. unfold t. rewrite trade_cost_cell. fold x.
  assert (Hb : x <> NaN -> bounded_cost (fexp (clip x (-700) 700))).
  { intros Hx. unfold bounded_cost.
    destruct x as [r | | |]; try contradiction; cbn; eexists; (split; [reflexivity |]).
    - destruct (Rclip_bounds r (-700) 700) as [H1 H2]; [lra |].
      unfold Rclip in *. split; now apply exp_le.
    - rewrite Rmax_left by lra. rewrite Rmin_left by lra.
      split; [apply exp_le; lra | lra].
    - rewrite Rmin_left by lra. split; [lra | apply exp_le; lra]. }
  split; [split |].
  - intros ->. reflexivity.
  - intros Ht. destruct x; try reflexivity; discriminate.
  - exact Hb.
Qed.

(** X5.  The trade costs of a symmetric distance matrix are symmetric;
    and with [phi >= 0], a finite distance that is not negative gives a
    trade cost of [1] at least. *)
Theorem trade_costs_symmetric_iceberg (D : mat) (phi : R) :
  (symmetric D -> symmetric (calculate_trade_costs D (Fin phi))) /\
  (0 <= phi ->
   forall i j, fin_nonneg (nth_m D i j) ->
               exists t, nth_m (calculate_trade_costs D (Fin phi)) i j = Fin t /\ 1 <= t).
Proof.
  split.
  - intros Hs i j. rewrite !trade_cost_cell. now rewrite (Hs i j).
  - intros Hphi i j Hd. rewrite trade_cost_cell.
    destruct (nth_m D i j) as [d | | |]; cbn in Hd; try contradiction.
    cbn. eexists. split; [reflexivity |].
    rewrite <- exp_0. apply exp_le.
    fold (Rclip (d * phi) (-700) 700).
    assert (H0 : 0 <= d * phi) by (apply Rmult_le_pos; assumption).
    unfold Rclip. apply Rmin_glb; [| lra].
    apply Rle_trans with (r2 := d * phi); [exact H0 | apply Rmax_l].
Qed.

(** ** From the centroids to the inversion *)

Lemma trade_costs_of_finite (D : mat) (phi : R) (N : nat) :
  rect N N D ->
  (forall i j, (i < N)%nat -> (j < N)%nat -> fin_nonneg (nth_m D i j)) ->
  rect N N (calculate_trade_costs D (Fin phi)) /\
  no_nan (calculate_trade_costs D (Fin phi)).
Proof.
  intros HD Hfin. pose proof (ctc_rect N N D (Fin phi) HD) as HT.
  split; [exact HT |].
  unfold no_nan. apply Forall_forall. intros row Hrow.
  apply (In_nth _ _ []) in Hrow. destruct Hrow as (i & Hi & <-).
  destruct HT as [HlT HcT]. rewrite HlT in Hi.
  apply Forall_forall. intros t Ht.
  apply (In_nth _ _ NaN) in Ht. destruct Ht as (j & Hj & <-).
  rewrite (rect_nth_row N N _ i (conj HlT HcT) Hi) in Hj.
  change (nth j (nth i (calculate_trade_costs D (Fin phi)) []) NaN)
    with (nth_m (calculate_trade_costs D (Fin phi)) i j).
  rewrite trade_cost_cell. specialize (Hfin i j Hi Hj).
  destruct (nth_m D i j); cbn in Hfin; try contradiction. discriminate.
Qed.

(** X6.  Steps 2 and 3 of the pipeline on a table of [N >= 1] rows whose
    centroids have coordinates of magnitude [1e150] at most and whose
    years are within the range of the doubles: no step raises, the
    trade-cost matrix fits the table, and every year gets amenities and
    utilities that are positive and finite, with mean [1] within the
    tolerance [1e-9]. *)
Theorem model_steps_usable (cs : list (option point)) (years : list year_input) :
  (0 < length cs)%nat ->
  Forall bounded_point cs ->
  Forall (safe_year (length cs)) years ->
  exists outs,
    model_steps cs years = Some outs /\
    map fst outs = map year years /\
    Forall (fun yo =>
              pos_vec (length cs) (A_col (snd yo)) /\ mean_near_one (A_col (snd yo)) /\
              pos_vec (length cs) (u_col (snd yo)) /\ mean_near_one (u_col (snd yo)))
           outs.
Proof.
  intros HN Hcs Hyears.
  destruct (calculate_distance_matrix_ok cs (or_introl Hcs))
    as (D & HD & Hrect & Hcell).
  unfold model_steps. rewrite HD. cbn [bind].
  destruct (trade_costs_of_finite D 0.01 (length cs) Hrect) as [HT HTn].
  { intros i j Hi Hj. rewrite (Hcell i j Hi Hj), cell_value_bounded by assumption.
    cbn. apply km_between_nonneg. }
  apply (invert_model_forall
           (fun o => pos_vec (length cs) (A_col o) /\ mean_near_one (A_col o) /\
                     pos_vec (length cs) (u_col o) /\ mean_near_one (u_col o))).
  eapply Forall_impl; [| exact Hyears].
  intros y Hy. destruct (safe_year_usable _ y Hy) as (HlL & Hlw & HL & Hw).
  destruct (invert_year_good _ _ _ _ HN HT HTn HlL Hlw HL Hw) as (o & Ho & HA & Hu).
  exists o. split; [exact Ho |].
  split; [apply HA |]. split; [apply (normalized_near_one _ _ HA) |].
  split; [apply Hu | apply (normalized_near_one _ _ Hu)].
Qed.

(** A witness of X6: two locations 5 km apart, one year with a missing
    wage and a zero population. *)
Lemma model_steps_usable_witness :
  let cs := [Some (mkPoint (Fin 0) (Fin 0)); Some (mkPoint (Fin 3000) (Fin 4000))] in
  let years := [mkInput 1975 [Fin 5; Fin 0] [Fin 10; NaN]] in
  exists outs,
    model_steps cs years = Some outs /\
    map fst outs = map year years /\
    Forall (fun yo =>
              pos_vec (length cs) (A_col (snd yo)) /\ mean_near_one (A_col (snd yo)) /\
              pos_vec (length cs) (u_col (snd yo)) /\ mean_near_one (u_col (snd yo)))
           outs.
Proof.
  intros cs years. apply (model_steps_usable cs years).
  - cbn. lia.
  - unfold cs. point_tac.
  - unfold years, cs. cbn [length]. column_tac.
Defined.

(** ** More on the preprocessing *)

Lemma count_nan_pos (v : vec) : (0 < count_nan v)%nat <-> In NaN v.
Proof.
  unfold count_nan. induction v as [| x v IH]; cbn [filter length In].
  - split; [lia | intros []].
  - destruct x; cbn [isnan length]; rewrite ?IH.
    + split; [now right | intros [E | H]; [discriminate | exact H]].
    + split; [now right | intros [E | H]; [discriminate | exact H]].
    + split; [now right | intros [E | H]; [discriminate | exact H]].
    + split; [now left | lia].
Qed.

(** X7.  The warning on missing values is printed exactly in the years
    where [L] or [w] holds a NaN; in the other years the repair changes
    nothing, whatever else the columns hold. *)
Theorem repair_warns_iff_nan (L w : vec) :
  (snd (repair L w) = true <-> In NaN L \/ In NaN w) /\
  (~ In NaN L -> ~ In NaN w -> repair L w = (L, w, false)).
Proof.
  unfold repair.
  destruct (Nat.ltb_spec 0 (count_nan L)) as [HL | HL];
    destruct (Nat.ltb_spec 0 (count_nan w)) as [Hw | Hw]; cbn [orb snd].
  - split; [split; [intros _; left; now apply count_nan_pos | reflexivity] |].
    intros H. exfalso. apply H. now apply count_nan_pos.
  - split; [split; [intros _; left; now apply count_nan_pos | reflexivity] |].
    intros H. exfalso. apply H. now apply count_nan_pos.
  - split; [split; [intros _; right; now apply count_nan_pos | reflexivity] |].
    intros _ H. exfalso. apply H. now apply count_nan_pos.
  - split; [| reflexivity]. split; [discriminate |].
    intros [H | H]; apply count_nan_pos in H; lia.
Qed.

Lemma normalize_mean_one (v : vec) :
  Forall fin_nonneg v -> Exists fin_pos v -> mean (normalize v) = Fin 1.
Proof.
  intros Hall Hex.
  destruct (mean_pos v Hall Hex) as [Hm Hpos].
  pose proof (normalize_nonneg v Hall Hex) as Hnn.
  assert (Hne : v <> []) by (intros ->; inversion Hex).
  pose proof (INR_length_pos v Hne) as Hn.
  pose proof (Rsum_pos v Hall Hex) as Hs.
  unfold mean at 1. rewrite (fsum_fin _ (fin_nonneg_finite _ Hnn)).
  rewrite length_normalize, fdiv_fin by lra. f_equal.
  unfold normalize. rewrite Hm.
  rewrite Rsum_div; [| lra | exact Hall]. field. split; lra.
Qed.

(** X8.  For columns within the range of the doubles (entries NaN or
    numbers between [0] and [1e200], one entry at least not below
    [1e-200], a million entries at most) the vectors that enter the loop
    have the length of the columns, hold finite numbers that are not
    negative, and have mean [1] within the tolerance [1e-9]. *)
Theorem prepared_mean_one (L w : vec) :
  safe_column L -> safe_column w ->
  let L' := fst (prepared L w) in
  let w' := snd (prepared L w) in
  length L' = length L /\ length w' = length w /\
  Forall fin_nonneg L' /\ Forall fin_nonneg w' /\
  mean_near_one L' /\ mean_near_one w'.
Proof.
  intros HsL Hsw L' w'.
  pose proof (safe_usable L HsL) as HL. pose proof (safe_usable w Hsw) as Hw.
  destruct (prepared_length L w) as [H1 H2].
  destruct (prepared_usable L w HL Hw) as [H3 H4].
  destruct (repair_usable L w HL Hw) as [[H5 H6] [H7 H8]].
  assert (HmL : mean L' = Fin 1)
    by (unfold L', prepared; cbn [fst]; now apply normalize_mean_one).
  assert (Hmw : mean w' = Fin 1)
    by (unfold w', prepared; cbn [snd]; now apply normalize_mean_one).
  assert (Hone : Rabs (1 - 1) <= mean_tolerance)
    by (rewrite Rminus_diag, Rabs_R0; unfold mean_tolerance; lra).
  repeat split; try assumption.
  - exists 1. now split.
  - exists 1. now split.
Qed.

(** A witness of X8. *)
Lemma prepared_mean_one_witness :
  let L := [Fin 1; NaN; Fin 0] in
  let w := [Fin 10; Fin 0; NaN] in
  let L' := fst (prepared L w) in
  let w' := snd (prepared L w) in
  length L' = length L /\ length w' = length w /\
  Forall fin_nonneg L' /\ Forall fin_nonneg w' /\
  mean_near_one L' /\ mean_near_one w'.
Proof.
  apply (prepared_mean_one [Fin 1; NaN; Fin 0] [Fin 10; Fin 0; NaN]); column_tac.
Defined.

(** *** A column of zeros and NaNs *)

Lemma fsum_nan_or_fin (v : vec) :
  Forall nan_or_zero v -> fsum v = NaN \/ (Forall is_zero v /\ fsum v = Fin 0).
Proof.
  induction 1 as [| x v Hx Hv IH].
  - right. split; [constructor | reflexivity].
  - unfold fsum in *. cbn [fold_right].
    destruct Hx as [-> | Hx]; [left; reflexivity |].
    destruct x as [r | | |]; cbn in Hx; try contradiction. subst r.
    destruct IH as [-> | [Hz ->]]; [left; reflexivity |].
    right. split; [constructor; [reflexivity | exact Hz] |].
    cbn. f_equal. lra.
Qed.

Lemma fdiv_nan_r (x : fval) : fdiv x NaN = NaN.
Proof. destruct x; reflexivity. Qed.

Lemma map_const_nan (f : fval -> fval) (v : vec) :
  (forall x, f x = NaN) -> map f v = repeat NaN (length v).
Proof.
  intros Hf. induction v as [| x v IH]; [reflexivity |].
  cbn. now rewrite Hf, IH.
Qed.

Lemma normalize_nan_or_zero (v : vec) :
  v <> [] -> Forall nan_or_zero v -> normalize v = repeat NaN (length v).
Proof.
  intros Hne Hv. destruct (fsum_nan_or_fin v Hv) as [Hs | [Hz _]].
  - unfold normalize, mean. rewrite Hs. cbn [fdiv].
    apply map_const_nan. apply fdiv_nan_r.
  - now apply normalize_zeros.
Qed.

Lemma nanmean_nan_or_zero (v : vec) :
  Forall nan_or_zero v -> nan_or_zero (nanmean v).
Proof.
  intros Hv. unfold nanmean, mean.
  assert (Hf : Forall is_zero (filter (fun x => negb (isnan x)) v)).
  { apply Forall_forall. intros x Hx. apply filter_In in Hx. destruct Hx as [Hin Hn].
    rewrite Forall_forall in Hv. destruct (Hv x Hin) as [-> | H];
      [discriminate | exact H]. }
  rewrite (fsum_fin _ (is_zero_finite _ Hf)), (Rsum_zero _ Hf).
  destruct (filter (fun x => negb (isnan x)) v) as [| y l] eqn:E.
  - left. cbn. now rewrite Reqb_true.
  - right. assert (Hn : 0 < INR (length (y :: l))) by (apply INR_length_pos; discriminate).
    rewrite fdiv_fin by lra. cbn. unfold Rdiv. lra.
Qed.

Lemma prepared_nan_or_zero (L w : vec) :
  L <> [] -> Forall nan_or_zero L ->
  fst (prepared L w) = repeat NaN (length L).
Proof.
  intros Hne HL. unfold prepared. cbn [fst].
  destruct (repair_length L w) as [Hlen _].
  rewrite <- Hlen. apply normalize_nan_or_zero.
  - intros E. rewrite E in Hlen. cbn in Hlen. destruct L; [contradiction | discriminate].
  - unfold repair. destruct (_ || _); cbn [fst].
    + unfold nan_to_num. rewrite Forall_map.
      pose proof (nanmean_nan_or_zero L HL) as Hm.
      eapply Forall_impl; [| exact HL].
      intros x [-> | Hx]; [exact Hm |].
      destruct x; cbn in Hx; try contradiction. now right.
    + exact HL.
Qed.

(** X9.  A year whose population column holds nothing but zeros and NaNs
    raises nothing: with [N >= 1] locations and an [N x N] matrix it ends
    after one iteration, and writes amenities that are all NaN, with
    [iterations = 1] and a NaN as [final_diff]. *)
Theorem empty_population_gives_nan (L w : vec) (T : mat) (N : nat) :
  (0 < N)%nat -> rect N N T -> length L = N -> length w = N ->
  Forall nan_or_zero L ->
  exists o, invert_year L w T N = Done o /\
            A_col o = repeat NaN N /\ iterations o = 1%nat /\ final_diff o = NaN.
Proof.
  intros HN HT HlL Hlw HL.
  apply invert_year_nan_population; try assumption.
  rewrite <- HlL. apply prepared_nan_or_zero; [| exact HL].
  intros ->. cbn in HlL. lia.
Qed.

(** A witness of X9: a zero and a NaN. *)
Lemma empty_population_gives_nan_witness :
  let T := [[Fin 1; Fin 2]; [Fin 2; Fin 1]] in
  exists o, invert_year [Fin 0; NaN] [Fin 10; Fin 20] T 2 = Done o /\
            A_col o = repeat NaN 2 /\ iterations o = 1%nat /\ final_diff o = NaN.
Proof.
  apply (empty_population_gives_nan [Fin 0; NaN] [Fin 10; Fin 20]
                                    [[Fin 1; Fin 2]; [Fin 2; Fin 1]] 2).
  - lia.
  - split; [reflexivity | repeat constructor].
  - reflexivity.
  - reflexivity.
  - constructor; [right; reflexivity |]. constructor; [left; reflexivity |]. constructor.
Defined.

(** ** The step size *)

Lemma sqrt_100 : sqrt 100 = 10.
Proof. replace 100 with (10 * 10) by lra. apply sqrt_square. lra. Qed.

(** X11.  The step size of the damped update starts at [0.1], never
    grows from one iteration to the next, stays between [0.01] and [0.1],
    and is [0.01] from the hundredth iteration on. *)
Theorem alpha_schedule :
  alpha_update 0 = 0.1 /\
  (forall k, 0.01 <= alpha_update k <= 0.1) /\
  (forall j k, (j <= k)%nat -> alpha_update k <= alpha_update j) /\
  (forall k, (99 <= k)%nat <-> alpha_update k = 0.01).
Proof.
  unfold alpha_update, min_alpha, initial_alpha.
  assert (Hs : forall k, 1 <= sqrt (1 + INR k)).
  { intros k. rewrite <- sqrt_1 at 1. apply sqrt_le_1_alt. pose proof (pos_INR k). lra. }
  assert (Hq : forall k x, 0 <= x -> (x <= 0.1 / sqrt (1 + INR k) <-> x * sqrt (1 + INR k) <= 0.1)).
  { intros k x Hx. pose proof (Hs k) as H1.
    assert (E : 0.1 / sqrt (1 + INR k) * sqrt (1 + INR k) = 0.1) by (field; lra).
    split; intros H.
    - rewrite <- E. apply Rmult_le_compat_r; lra.
    - apply Rmult_le_reg_r with (r := sqrt (1 + INR k)); [lra |]. now rewrite E. }
  assert (Hp : forall k, 0 < 0.1 / sqrt (1 + INR k) <= 0.1).
  { intros k. pose proof (Hs k) as H1. split.
    - apply Rdiv_lt_0_compat; lra.
    - apply Rmult_le_reg_r with (r := sqrt (1 + INR k)); [lra |].
      replace (0.1 / sqrt (1 + INR k) * sqrt (1 + INR k)) with 0.1 by (field; lra). nra. }
  split; [| split; [| split]].
  - cbn [INR]. rewrite Rplus_0_r, sqrt_1.
    replace (0.1 / 1) with 0.1 by lra. apply Rmax_right. lra.
  - intros k. split; [apply Rmax_l | apply Rmax_lub; [lra | apply Hp]].
  - intros j k Hjk. apply Rle_max_compat_l.
    assert (Hsq : sqrt (1 + INR j) <= sqrt (1 + INR k)).
    { apply sqrt_le_1_alt. apply le_INR in Hjk. lra. }
    pose proof (Hs j) as H1. pose proof (Hs k) as H2.
    unfold Rdiv. apply Rmult_le_compat_l; [lra |].
    apply Rinv_le_contravar; lra.
  - intros k. pose proof (Hs k) as H1. pose proof (Hp k) as H2. split.
    + intros Hk. apply Rmax_left.
      assert (H10 : 10 <= sqrt (1 + INR k)).
      { rewrite <- sqrt_100. apply sqrt_le_1_alt. apply le_INR in Hk.
        replace (INR 99) with 99 in Hk by (rewrite INR_IZR_INZ; reflexivity). lra. }
      apply Rmult_le_reg_r with (r := sqrt (1 + INR k)); [lra |].
      replace (0.1 / sqrt (1 + INR k) * sqrt (1 + INR k)) with 0.1 by (field; lra). nra.
    + intros E. destruct (Nat.le_gt_cases 99 k) as [Hk | Hk]; [exact Hk | exfalso].
      assert (Hlt : sqrt (1 + INR k) < 10).
      { rewrite <- sqrt_100. apply sqrt_lt_1_alt. apply lt_INR in Hk.
        pose proof (pos_INR k). split; [lra |].
        replace (INR 99) with 99 in Hk by (rewrite INR_IZR_INZ; reflexivity). lra. }
      assert (Hgt : 0.01 < 0.1 / sqrt (1 + INR k)).
      { apply Rmult_lt_reg_r with (r := sqrt (1 + INR k)); [lra |].
        replace (0.1 / sqrt (1 + INR k) * sqrt (1 + INR k)) with 0.1 by (field; lra). nra. }
      rewrite Rmax_right in E by lra. lra.
Qed.

(** ** The residual and the count of iterations that a year reports *)

Section LoopPost.
Variables (L w : vec) (T : mat) (N : nat).
Variables I Q : loop_state -> Prop.
Hypothesis I_exit : forall s, I s -> loop_cond s = false -> Q s.
Hypothesis I_step :
  forall s, I s -> loop_cond s = true ->
            match iteration L w T N s with
            | Continue s' => I s'
            | EarlyStop s' => Q s'
            | Except s' => Q s'
            end.

(** A rule for the loop: an invariant of the head of the loop, and what
    holds of the state that the loop is left with. *)
Lemma while_loop_post (fuel : nat) :
  forall s s_end, I s -> while_loop fuel L w T N s = Some s_end -> Q s_end.
Proof.
  induction fuel as [| fuel IH]; intros s s_end Hs Hrun; [discriminate |].
  cbn [while_loop] in Hrun. destruct (loop_cond s) eqn:Hcond.
  - pose proof (I_step s Hs Hcond) as Hnext.
    destruct (iteration L w T N s) as [s1 | s1 | s1].
    + apply (IH s1); assumption.
    + now injection Hrun as <-.
    + now injection Hrun as <-.
  - injection Hrun as <-. now apply I_exit.
Qed.
End LoopPost.

Lemma norm_nonneg (v : vec) :
  Forall (fun x => isfinite x = true) v -> exists r, norm v = Fin r /\ 0 <= r.
Proof.
  intros Hv. unfold norm.
  assert (Hsq : Forall fin_nonneg (map (fun x => fmul x x) v)).
  { rewrite Forall_map. eapply Forall_impl; [| exact Hv].
    intros x Hx. destruct x; try discriminate. cbn. nra. }
  rewrite (fsum_fin _ (fin_nonneg_finite _ Hsq)).
  pose proof (Rsum_nonneg _ Hsq) as Hs.
  cbn. rewrite Rltb_false by lra. eexists. split; [reflexivity | apply sqrt_pos].
Qed.

Lemma residual_nonneg (a a_new b b_new : vec) :
  Forall fin_pos a -> Forall fin_pos a_new -> Forall fin_pos b -> Forall fin_pos b_new ->
  exists r, fadd (norm (zip_with fsub a a_new)) (norm (zip_with fsub b b_new)) = Fin r /\
            0 <= r.
Proof.
  intros Ha Han Hb Hbn.
  destruct (norm_nonneg (zip_with fsub a a_new)) as (r1 & -> & H1);
    [apply zip_fsub_finite; apply fin_pos_finite; assumption |].
  destruct (norm_nonneg (zip_with fsub b b_new)) as (r2 & -> & H2);
    [apply zip_fsub_finite; apply fin_pos_finite; assumption |].
  cbn. eexists. split; [reflexivity | lra].
Qed.

Lemma track_best_head (s : loop_state) (u_new A_new : vec) (r : R) :
  0 <= r -> head_inv s ->
  let s1 := track_best s u_new A_new (Fin r) in
  (no_improvement_count s1 <= iter_count s)%nat /\
  exists b, best_diff s1 = Fin b /\ 0 <= b <= r.
Proof.
  intros Hr [_ [(_ & _ & Hb) | (Hno & b & r0 & Hb & _ & Hbr)]]; cbn zeta;
    unfold track_best; rewrite Hb.
  - cbn. split; [lia |]. exists r. split; [reflexivity | lra].
  - cbn [fltb]. unfold Rltb. destruct (Rlt_dec r b); cbn.
    + split; [lia |]. exists r. split; [reflexivity | lra].
    + split; [lia |]. exists b. split; [reflexivity | lra].
Qed.

Section Convergence.
Variables (N : nat) (T : mat) (L w : vec).
Hypothesis HN : (0 < N)%nat.
Hypothesis HT : rect N N T.
Hypothesis HTn : no_nan T.
Hypothesis HlL : length L = N.
Hypothesis Hlw : length w = N.
Hypothesis HL : Forall fin_nonneg L.
Hypothesis Hw : Forall fin_nonneg w.

Lemma head_inv_init : head_inv (init_state N).
Proof.
  unfold head_inv, init_state. cbn. split; [lia |]. left. repeat split.
Qed.

Lemma head_inv_exit (s : loop_state) :
  good_inv N s /\ head_inv s -> loop_cond s = false -> good_inv N s /\ end_inv s.
Proof.
  intros [Hg [Hmax Hh]] Hcond. split; [exact Hg |].
  destruct Hh as [(Hi & Hd & _) | (Hno & b & r & Hb & Hd & Hbr)].
  - exfalso. unfold loop_cond, fgtb in Hcond. rewrite Hi, Hd in Hcond.
    cbn in Hcond. rewrite (Rltb_true _ _ tol_lt_1) in Hcond. discriminate.
  - split; [lia |]. exists b. split; [exact Hb |]. split; [lra |].
    destruct (loop_cond_false s Hcond) as [Hf | Hf].
    + left. unfold fgtb in Hf. rewrite Hd in Hf. cbn in Hf.
      unfold Rltb in Hf. destruct (Rlt_dec tol r); [discriminate | lra].
    + right. unfold max_iter in Hf. lia.
Qed.

Lemma head_inv_step (s : loop_state) :
  good_inv N s /\ head_inv s -> loop_cond s = true ->
  match iteration L w T N s with
  | Continue s' => good_inv N s' /\ head_inv s'
  | EarlyStop s' => good_inv N s' /\ end_inv s'
  | Except s' => good_inv N s' /\ end_inv s'
  end.
Proof.
  intros [Hg Hh] Hcond.
  pose proof (good_inv_step N T L w HN HT HTn HlL Hlw HL Hw s Hg) as Hnext.
  destruct (loop_cond_true s Hcond) as [_ Hlt].
  destruct Hg as (HA & Hu & Hbest).
  assert (Hs : shape_inv N s) by (split; [apply HA | apply Hu]).
  destruct (compute_updates_ok N T L w HN HT HlL Hlw s Hs) as (_ & _ & Hc).
  destruct (iteration_ok N T L w HN HT HlL Hlw s Hs)
    as (c & u_new & A_new & d & a & b & Hc' & Hlu & HlA & -> & -> & Hla & Hlb & Hit).
  rewrite Hc in Hc'. injection Hc' as <- <- <- <-.
  pose proof (update_u_normalized N T w (A s) HN HT HTn Hlw (proj1 HA) Hw (proj2 HA))
    as Hun.
  pose proof (update_A_normalized N L w (u s) HN HlL Hlw (proj1 Hu) HL Hw (proj2 Hu))
    as HAn.
  destruct (residual_nonneg (A s) _ (u s) _ (proj2 HA) (proj2 (proj1 HAn))
                            (proj2 Hu) (proj2 (proj1 Hun))) as (r & Hd & Hr).
  cbn zeta in Hit. rewrite Hit in *. clear Hit Hc.
  rewrite Hd in *.
  match goal with
  | |- context [after_iteration s ?un ?an ?dd ?aa ?bb] =>
      destruct (after_iteration_fields s un an dd aa bb)
        as (_ & _ & Hd3 & Hi3 & Hbd3 & _ & _ & Hno3);
      destruct (track_best_head s un an r Hr Hh) as (Hno1 & b1 & Hb1 & Hbr1);
      set (s3 := after_iteration s un an dd aa bb) in *
  end.
  cbn zeta in Hno1, Hb1. rewrite <- Hno3 in Hno1. rewrite <- Hbd3 in Hb1.
  destruct (50 <? no_improvement_count s3)%nat eqn:Hes; cbn [outcome_state] in Hnext.
  - split; [exact Hnext |]. apply Nat.ltb_lt in Hes.
    unfold end_inv. rewrite Hi3. split; [lia |].
    exists b1. split; [exact Hb1 |]. split; [lra |]. right. lia.
  - split; [exact Hnext |]. apply Nat.ltb_ge in Hes.
    unfold head_inv, next_iter. cbn [iter_count no_improvement_count best_diff diff].
    rewrite Hi3. split; [lia |]. right. split; [lia |].
    exists b1, r. repeat split; try assumption; lra.
Qed.

Lemma loop_end_inv (s_end : loop_state) :
  while_loop year_fuel L w T N (init_state N) = Some s_end ->
  good_inv N s_end /\ end_inv s_end.
Proof.
  apply (while_loop_post L w T N (fun s => good_inv N s /\ head_inv s)
                         (fun s => good_inv N s /\ end_inv s)).
  - apply head_inv_exit.
  - apply head_inv_step.
  - split; [apply good_inv_init; exact HN | apply head_inv_init].
Qed.
End Convergence.

(** X12.  On data within the range of the doubles (N >= 1, an N x N
    matrix without NaN, columns whose entries are NaN or numbers between
    [0] and [1e200], one at least not below [1e-200]) the year reports
    between 1 and 1000 iterations and a residual that is a finite number
    and not negative; and a year that reports fewer than 51 iterations
    reports a residual within the tolerance. *)
Theorem reported_residual (L w : vec) (T : mat) (N : nat) :
  (0 < N)%nat -> rect N N T -> no_nan T ->
  length L = N -> length w = N ->
  safe_column L -> safe_column w ->
  exists o d, invert_year L w T N = Done o /\
              final_diff o = Fin d /\ 0 <= d /\
              (1 <= iterations o <= 1000)%nat /\
              (d <= tol \/ (51 <= iterations o)%nat).
Proof.
  intros HN HT HTn HlL Hlw HsL Hsw.
  pose proof (safe_usable L HsL) as HL. pose proof (safe_usable w Hsw) as Hw.
  destruct (invert_year_good L w T N HN HT HTn HlL Hlw HL Hw) as (o & Ho & _).
  destruct (prepared_length L w) as [HlL' Hlw'].
  destruct (prepared_usable L w HL Hw) as [HL' Hw'].
  rewrite HlL in HlL'. rewrite Hlw in Hlw'.
  destruct (while_loop_total (fst (prepared L w)) (snd (prepared L w)) T N
                             year_fuel (init_state N))
    as (s_end & Hrun & _ & _).
  { unfold init_state. cbn [iter_count]. lia. }
  { unfold year_fuel, init_state. cbn [iter_count]. lia. }
  specialize (Hrun year_fuel (Nat.le_refl _)).
  destruct (loop_end_inv N T _ _ HN HT HTn HlL' Hlw' HL' Hw' s_end Hrun)
    as [(_ & _ & Hbest) (Hit & b & Hb & Hb0 & Hconv)].
  assert (Hry : run_year L w T N = Some (use_best s_end))
    by (rewrite run_year_unfold, Hrun; reflexivity).
  destruct (invert_year_done L w T N o _ Hry Ho) as (_ & _ & Hfd & Hic & _).
  destruct (use_best_fields s_end) as (Hic' & Hsome & _).
  rewrite Hic' in Hic.
  destruct (best_A s_end) as [ba |] eqn:EA, (best_u s_end) as [bu |] eqn:Eu;
    try contradiction.
  - destruct (Hsome ba bu eq_refl eq_refl) as (_ & _ & Hdiff).
    exists o, b. rewrite Hfd, Hdiff, Hic. unfold max_iter in Hit.
    repeat split; try assumption; lia.
  - destruct Hbest as (Hinf & _). rewrite Hinf in Hb. discriminate.
Qed.

(** A witness of X12. *)
Lemma reported_residual_witness :
  let T := [[Fin 1; Fin 2]; [Fin 2; Fin 1]] in
  exists o d, invert_year [Fin 1; NaN] [Fin 10; Fin 20] T 2 = Done o /\
              final_diff o = Fin d /\ 0 <= d /\
              (1 <= iterations o <= 1000)%nat /\
              (d <= tol \/ (51 <= iterations o)%nat).
Proof.
  apply (reported_residual [Fin 1; NaN] [Fin 10; Fin 20]
                           [[Fin 1; Fin 2]; [Fin 2; Fin 1]] 2).
  - lia.
  - split; [reflexivity | repeat constructor].
  - repeat constructor; discriminate.
  - reflexivity.
  - reflexivity.
  - column_tac.
  - column_tac.
Defined.

(** ** A table of one location *)

Lemma normalized_1 (v : vec) : normalized 1 v -> v = [Fin 1].
Proof.
  intros [[Hl Hp] Hm]. destruct v as [| x [| y v]]; try discriminate.
  inversion Hp as [| ? ? Hx _]; subst.
  destruct x as [r | | |]; cbn in Hx; try contradiction.
  unfold mean, fsum in Hm. cbn [fold_right fadd length INR] in Hm.
  rewrite fdiv_fin in Hm by lra. injection Hm as Hm.
  f_equal. f_equal. lra.
Qed.

Lemma norm_zero_1 : norm (zip_with fsub [Fin 1] [Fin 1]) = Fin 0.
Proof.
  unfold norm, fsum. cbn. rewrite Rltb_false by lra. f_equal.
  replace ((1 + - (1)) * (1 + - (1)) + 0) with 0 by ring. apply sqrt_0.
Qed.

(** X13.  With one location the data do not matter: whatever the positive
    population, the positive wage and the trade cost (not a NaN) are, the
    year ends after one iteration and writes amenity [1], utility [1] and
    residual [0]. *)
Theorem single_location (l wv t : fval) :
  fin_pos l -> fin_pos wv -> t <> NaN ->
  invert_year [l] [wv] [[t]] 1 = Done (mkOutput [Fin 1] [Fin 1] 1 (Fin 0) false).
Proof.
  intros Hl Hwv Ht.
  destruct l as [x | | |]; cbn in Hl; try contradiction.
  destruct wv as [y | | |]; cbn in Hwv; try contradiction.
  assert (HT : rect 1 1 [[t]]) by (split; [reflexivity | repeat constructor]).
  assert (HTn : no_nan [[t]]) by (repeat constructor; exact Ht).
  assert (HL : usable_column [Fin x]).
  { split; [constructor; [right; cbn; lra | constructor] | left; exact Hl]. }
  assert (Hw : usable_column [Fin y]).
  { split; [constructor; [right; cbn; lra | constructor] | left; exact Hwv]. }
  destruct (prepared_length [Fin x] [Fin y]) as [HlL' Hlw'].
  destruct (prepared_usable _ _ HL Hw) as [HL' Hw'].
  assert (Hwarn : snd (repair [Fin x] [Fin y]) = false) by reflexivity.
  rewrite invert_year_unfold, run_year_unfold, Hwarn.
  remember (prepared [Fin x] [Fin y]) as p eqn:Ep. clear Ep Hwarn HL Hw.
  cbn [length] in HlL', Hlw'.
  assert (HN : (0 < 1)%nat) by lia.
  assert (Hs0 : shape_inv 1 (init_state 1)) by (split; reflexivity).
  destruct (compute_updates_ok 1 [[t]] (fst p) (snd p) HN HT HlL' Hlw' _ Hs0)
    as (_ & _ & Hc).
  destruct (iteration_ok 1 [[t]] (fst p) (snd p) HN HT HlL' Hlw' _ Hs0)
    as (c & u_new & A_new & d & a & b & Hc' & _ & _ & _ & _ & _ & _ & Hit).
  destruct (normalized_ones 1 HN) as [[_ Hp1] _].
  pose proof (update_u_normalized 1 [[t]] (snd p) (ones 1) HN HT HTn Hlw'
                                  eq_refl Hw' Hp1) as Hun.
  pose proof (update_A_normalized 1 (fst p) (snd p) (ones 1) HN HlL' Hlw'
                                  eq_refl HL' Hw' Hp1) as HAn.
  apply normalized_1 in Hun, HAn.
  rewrite Hc in Hc'. injection Hc' as _ Eu EA Ed. clear Hc.
  rewrite Hun in Eu, Ed. rewrite HAn in EA, Ed. subst u_new A_new.
  assert (Hd : d = Fin 0).
  { rewrite <- Ed.
    transitivity (fadd (norm (zip_with fsub [Fin 1] [Fin 1]))
                       (norm (zip_with fsub [Fin 1] [Fin 1]))); [reflexivity |].
    rewrite norm_zero_1. cbn [fadd]. f_equal. lra. }
  clear Ed. subst d.
  cbn zeta in Hit. unfold after_iteration, track_best in Hit.
  cbn [best_diff init_state fltb] in Hit. unfold set_u, set_A, next_iter in Hit.
  cbn [A u diff iter_count no_improvement_count best_diff best_A best_u Nat.ltb Nat.leb]
    in Hit.
  unfold year_fuel, max_iter. cbn [while_loop]. rewrite loop_cond_init, Hit.
  unfold loop_cond. cbn [diff fgtb fltb].
  rewrite Rltb_false by (unfold tol; lra). cbn [andb option_map].
  reflexivity.
Qed.

(** A witness of X13. *)
Lemma single_location_witness :
  invert_year [Fin 5] [Fin 3] [[Fin 1]] 1
  = Done (mkOutput [Fin 1] [Fin 1] 1 (Fin 0) false).
Proof.
  apply (single_location (Fin 5) (Fin 3) (Fin 1)).
  - cbn. lra.
  - cbn. lra.
  - discriminate.
Defined.

(** ** Shapes that broadcast where they should not *)

Lemma stretch_length {X : Type} (d : X) (n : nat) (l : list X) :
  length (stretch d n l) = n.
Proof.
  unfold stretch. destruct (Nat.eqb_spec (length l) n) as [H | H];
    [exact H | apply repeat_length].
Qed.

Lemma bvec_length (f : fval -> fval -> fval) (a b : vec) (n : nat) :
  bdim (length a) (length b) = Some n ->
  exists v, bvec f a b = Some v /\ length v = n.
Proof.
  intros H. unfold bvec. rewrite H. eexists. split; [reflexivity |].
  rewrite zip_with_length; rewrite !stretch_length; reflexivity.
Qed.

Lemma bvec_some_length (f : fval -> fval -> fval) (a b v : vec) :
  bvec f a b = Some v -> bdim (length a) (length b) = Some (length v).
Proof.
  unfold bvec. destruct (bdim (length a) (length b)) as [n |]; [| discriminate].
  intros H. injection H as <-.
  rewrite zip_with_length; rewrite !stretch_length; reflexivity.
Qed.

Lemma Forall_zip_with_all {X Y Z : Type} (f : X -> Y -> Z) (R : Z -> Prop)
      (a : list X) (b : list Y) :
  (forall x y, R (f x y)) -> Forall R (zip_with f a b).
Proof.
  intros HR. revert b. induction a as [| x a IH]; intros [| y b]; cbn;
    constructor; auto.
Qed.

Lemma bmat_rect (f : fval -> fval -> fval) (a b : mat) (ra ca rb cb r c : nat) :
  shape a = Some (ra, ca) -> shape b = Some (rb, cb) ->
  bdim ra rb = Some r -> bdim ca cb = Some c ->
  exists m, bmat f a b = Some m /\ rect r c m.
Proof.
  intros Ha Hb Hr Hc. unfold bmat. rewrite Ha, Hb, Hr, Hc.
  eexists. split; [reflexivity |]. split.
  - rewrite zip_with_length; rewrite !stretch_length; reflexivity.
  - apply Forall_zip_with_all. intros x y.
    rewrite zip_with_length; rewrite !stretch_length; reflexivity.
Qed.

Lemma bdim_one_or (M a b : nat) :
  one_or M a -> one_or M b ->
  exists n, bdim a b = Some n /\ one_or M n /\ (a = M \/ b = M -> n = M).
Proof.
  intros [-> | ->] [-> | ->].
  - exists 1%nat. rewrite bdim_same. split; [reflexivity |].
    split; [now left |]. intros [H | H]; exact H.
  - exists M. rewrite bdim_1_l. split; [reflexivity |]. split; [now right | reflexivity].
  - exists M. rewrite bdim_1_r. split; [reflexivity |]. split; [now right | reflexivity].
  - exists M. rewrite bdim_same. split; [reflexivity |]. split; [now right | reflexivity].
Qed.

Lemma length_update_u (c : mat) : length (update_u c) = length c.
Proof. unfold update_u, clipv. now rewrite !length_map. Qed.

Section WideMatrix.
Variables (M : nat) (T : mat) (L w : vec).
Hypothesis HM : (2 <= M)%nat.
Hypothesis HT : rect M M T.
Hypothesis HlL : length L = 1%nat.
Hypothesis Hlw : length w = 1%nat.

Lemma combined_terms_wide (A0 : vec) :
  one_or M (length A0) ->
  exists c, combined_terms T w A0 1 = Some c /\ length c = M.
Proof.
  intros HA. unfold combined_terms, bind.
  rewrite bvec_same by (rewrite length_ones; exact Hlw).
  destruct (bvec_length fdiv A0 w (length A0)) as (q & -> & Hq);
    [rewrite Hlw; apply bdim_1_r |].
  rewrite bmat_column_row by (rewrite length_ones; lia).
  match goal with
  | |- context [bmat fmul ?a ?b] =>
      destruct (bmat_rect fmul a b M M 1 1 M M) as (p & -> & Hp)
  end.
  { unfold clipm, clipv. rewrite !shape_map. apply shape_rect; [exact HT | lia]. }
  { apply shape_rect; [| lia].
    match goal with
    | |- rect 1 1 (column ?v) =>
        replace 1%nat with (length v) at 1; [apply rect_column |]
    end.
    unfold clipv. rewrite !length_map, zip_with_length; rewrite ?length_ones; congruence. }
  { apply bdim_1_r. }
  { apply bdim_1_r. }
  match goal with
  | |- context [bmat fmul p ?b] =>
      destruct (bmat_rect fmul p b M M 1 (length A0) M M) as (c & -> & Hc)
  end.
  { apply shape_rect; [exact Hp | lia]. }
  { apply shape_rect; [| lia]. apply rect_clipm. split; [reflexivity |].
    repeat constructor. now rewrite !length_map. }
  { apply bdim_1_r. }
  { destruct (bdim_one_or M M (length A0)) as (n & -> & _ & Hn);
      [now right | exact HA |]. now rewrite Hn by (now left). }
  exists (clipm c). split; [reflexivity |]. apply (rect_clipm M M c Hc).
Qed.

Lemma update_A_wide (u0 : vec) :
  exists a, update_A L w u0 = Some a /\ length a = length u0.
Proof.
  unfold update_A, bind.
  rewrite bvec_same by (rewrite length_map; congruence).
  match goal with
  | |- context [bvec fmul ?a ?b] =>
      destruct (bvec_length fmul a b (length u0)) as (lwu & -> & Hl)
  end.
  { rewrite zip_with_length by (rewrite length_map; congruence).
    rewrite HlL, length_map. apply bdim_1_l. }
  eexists. split; [reflexivity |]. unfold clipv. now rewrite !length_map.
Qed.

Lemma compute_updates_wide (s : loop_state) :
  one_or M (length (A s)) -> one_or M (length (u s)) ->
  exists c u_new A_new d,
    compute_updates L w T 1 s = Some (c, u_new, A_new, d) /\
    length u_new = M /\ length A_new = length (u s).
Proof.
  intros HA Hu. unfold compute_updates, bind.
  destruct (combined_terms_wide (A s) HA) as (c & -> & Hc).
  destruct (update_A_wide (u s)) as (a & -> & Ha).
  assert (Hun : length (update_u c) = M) by (now rewrite length_update_u).
  unfold residual, bind.
  destruct (bdim_one_or M (length (A s)) (length a)) as (n1 & H1 & _);
    [exact HA | rewrite Ha; exact Hu |].
  destruct (bvec_length fsub (A s) a n1 H1) as (dA & -> & _).
  destruct (bdim_one_or M (length (u s)) (length (update_u c))) as (n2 & H2 & _);
    [exact Hu | rewrite Hun; now right |].
  destruct (bvec_length fsub (u s) (update_u c) n2 H2) as (dU & -> & _).
  do 4 eexists. split; [reflexivity |]. split; assumption.
Qed.

Lemma wide_step (s : loop_state) :
  wide_head M s -> loop_cond s = true ->
  match iteration L w T 1 s with
  | Continue s' => wide_head M s'
  | EarlyStop s' => wide_end M s'
  | Except s' => wide_end M s'
  end.
Proof.
  intros (HA & Hbest & Hu) _.
  assert (Hu' : one_or M (length (u s)))
    by (destruct Hu as [[Hu _] | Hu]; [now left | now right]).
  destruct (compute_updates_wide s HA Hu')
    as (c & u_new & A_new & d & Hc & Hlu & HlA).
  destruct (iteration_cases L w T 1 s) as [[Hn _] | Hcase]; [congruence |].
  destruct Hcase as (c' & u' & A' & d' & a & b & Hc' & Ha & Hb & Hit).
  rewrite Hc in Hc'. injection Hc' as <- <- <- <-.
  cbn zeta in Hit. rewrite Hit. clear Hit.
  unfold blend in Ha, Hb.
  apply bvec_some_length in Ha, Hb. rewrite !length_scale in Ha, Hb.
  destruct (bdim_one_or M (length A_new) (length (A s))) as (n1 & H1 & Hn1 & _);
    [rewrite HlA; exact Hu' | exact HA |].
  rewrite H1 in Ha. injection Ha as Ha. subst n1.
  destruct (bdim_one_or M (length u_new) (length (u s))) as (n2 & H2 & _ & Hn2);
    [rewrite Hlu; now right | exact Hu' |].
  rewrite H2 in Hb. injection Hb as Hb. subst n2.
  specialize (Hn2 (or_introl Hlu)).
  destruct (after_iteration_fields s u_new A_new d a b)
    as (HA3 & Hu3 & _ & _ & _ & _ & Hbu3 & _).
  set (s3 := after_iteration s u_new A_new d a b) in *.
  assert (Hbest3 : forall bu, best_u s3 = Some bu -> length bu = M).
  { intros bu. rewrite Hbu3. unfold track_best.
    destruct (fltb d (best_diff s)); cbn [best_u].
    - intros E. injection E as <-. exact Hlu.
    - apply Hbest. }
  destruct (50 <? no_improvement_count s3)%nat.
  - split; [now rewrite Hu3 | exact Hbest3].
  - unfold wide_head, next_iter. cbn [A u best_u].
    rewrite HA3, Hu3. split; [exact Hn1 |]. split; [exact Hbest3 | now right].
Qed.

Lemma wide_exit (s : loop_state) :
  wide_head M s -> loop_cond s = false -> wide_end M s.
Proof.
  intros (_ & Hbest & [[_ Hc] | Hu]) Hcond; [congruence |].
  split; assumption.
Qed.

Lemma wide_init : wide_head M (init_state 1).
Proof.
  split; [now left |]. split; [discriminate |]. left.
  split; [reflexivity | apply loop_cond_init].
Qed.
End WideMatrix.

(** X14.  One location and a square trade-cost matrix of two rows or
    more: nothing raises inside the loop, the utilities get as many
    entries as the matrix has rows, and the year raises when the columns
    are written; so does [invert_model], whatever the other years are. *)
Theorem one_location_wide_matrix (T : mat) (y : year_input)
        (pre post : list year_input) :
  length (Population y) = 1%nat -> length (Wage y) = 1%nat ->
  square T -> (2 <= length T)%nat ->
  invert_year (Population y) (Wage y) T 1 = Raised /\
  invert_model 1 T (pre ++ y :: post) = None.
Proof.
  intros HlL Hlw HT HM.
  assert (Hy : invert_year (Population y) (Wage y) T 1 = Raised).
  { destruct (prepared_length (Population y) (Wage y)) as [HlL' Hlw'].
    rewrite HlL in HlL'. rewrite Hlw in Hlw'.
    set (L' := fst (prepared (Population y) (Wage y))) in *.
    set (w' := snd (prepared (Population y) (Wage y))) in *.
    destruct (while_loop_total L' w' T 1 year_fuel (init_state 1))
      as (s_end & Hrun & _ & _).
    { unfold init_state. cbn [iter_count]. lia. }
    { unfold year_fuel, init_state. cbn [iter_count]. lia. }
    specialize (Hrun year_fuel (Nat.le_refl _)).
    assert (Hend : wide_end (length T) s_end).
    { apply (while_loop_post L' w' T 1 (wide_head (length T)) (wide_end (length T)))
        with (fuel := year_fuel) (s := init_state 1).
      - apply wide_exit.
      - apply wide_step; try assumption. apply square_rect. exact HT.
      - apply wide_init.
      - exact Hrun. }
    destruct Hend as [Hu Hbest].
    rewrite invert_year_unfold, run_year_unfold. fold L' w'. rewrite Hrun.
    rewrite HlL, Hlw. cbn [Nat.eqb orb option_map].
    assert (Hlen : length (u (use_best s_end)) = length T).
    { unfold use_best. destruct (best_A s_end); [| exact Hu].
      destruct (best_u s_end) as [bu |]; [| exact Hu].
      cbn [u]. now apply Hbest. }
    rewrite Hlen. destruct (Nat.eqb_spec (length T) 1) as [E | _]; [lia |].
    now rewrite andb_false_r. }
  split; [exact Hy |].
  rewrite invert_model_app. cbn [invert_model]. rewrite Hy.
  destruct (invert_model 1 T pre); reflexivity.
Qed.

(** A witness of X14: one location, a [2 x 2] matrix. *)
Lemma one_location_wide_matrix_witness :
  let T := [[Fin 1; Fin 2]; [Fin 2; Fin 1]] in
  let y := mkInput 2020 [Fin 5] [Fin 3] in
  invert_year (Population y) (Wage y) T 1 = Raised /\
  invert_model 1 T ([] ++ y :: []) = None.
Proof.
  apply (one_location_wide_matrix [[Fin 1; Fin 2]; [Fin 2; Fin 1]]
                                  (mkInput 2020 [Fin 5] [Fin 3]) [] []).
  - reflexivity.
  - reflexivity.
  - repeat constructor.
  - cbn. lia.
Defined.

(** *** A matrix of one entry *)

Lemma zip_with_ext_r {X Y Z : Type} (f g : X -> Y -> Z) (Q : Y -> Prop)
      (a : list X) (b : list Y) :
  (forall x y, Q y -> f x y = g x y) ->
  Forall Q b -> zip_with f a b = zip_with g a b.
Proof.
  intros Hfg Hb. revert a. induction Hb as [| y b Hy Hb IH]; intros [| x a];
    cbn; try reflexivity.
  rewrite Hfg by assumption. f_equal. apply IH.
Qed.

(** A [1 x 1] matrix and a column. *)
Lemma bmat_scalar_column (f : fval -> fval -> fval) (c : fval) (v : vec) :
  (0 < length v)%nat ->
  bmat f [[c]] (column v) = Some (column (map (f c) v)).
Proof.
  intros Hpos. unfold bmat.
  rewrite (shape_rect (length v) 1 (column v)); [| apply rect_column | exact Hpos].
  cbn [shape forallb length]. rewrite bdim_1_l, bdim_same.
  rewrite stretch_single.
  rewrite stretch_same by (unfold column; now rewrite length_map).
  f_equal. unfold column at 1.
  replace (length v) with (length (map (fun x : fval => [x]) v)) by apply length_map.
  rewrite zip_with_repeat_l. unfold column. rewrite !map_map. reflexivity.
Qed.

(** A column and a matrix of as many rows. *)
Lemma bmat_column_l (f : fval -> fval -> fval) (r c : nat) (v : vec) (b : mat) :
  (0 < r)%nat -> length v = r -> rect r c b ->
  bmat f (column v) b = Some (zip_with (fun x y => map (f x) y) v b).
Proof.
  intros Hpos Hv Hb. unfold bmat.
  rewrite (shape_rect r 1 (column v)); [| rewrite <- Hv; apply rect_column | exact Hpos].
  rewrite (shape_rect r c b Hb Hpos).
  rewrite bdim_same, bdim_1_l.
  destruct Hb as [Hr Hc].
  rewrite !stretch_same by (unfold column; rewrite ?length_map; congruence).
  f_equal. unfold column. rewrite zip_with_map_l.
  apply zip_with_ext_r with (Q := fun y => length y = c); [| exact Hc].
  intros x y Hy. rewrite stretch_single. rewrite stretch_same by exact Hy.
  rewrite <- Hy. apply zip_with_repeat_l.
Qed.

Lemma zip_with_repeat_n {X Y Z : Type} (f : X -> Y -> Z) (x : X) (b : list Y) (n : nat) :
  length b = n -> zip_with f (repeat x n) b = map (f x) b.
Proof. intros <-. apply zip_with_repeat_l. Qed.

Lemma map_repeat {X Y : Type} (f : X -> Y) (x : X) (n : nat) :
  map f (repeat x n) = repeat (f x) n.
Proof. induction n as [| n IH]; cbn; [reflexivity | now rewrite IH]. Qed.

Lemma rect_repeat (x : fval) (N : nat) : rect N N (repeat (repeat x N) N).
Proof.
  split; [apply repeat_length |]. apply Forall_forall.
  intros r Hr. apply repeat_spec in Hr. subst r. apply repeat_length.
Qed.

Section ScalarMatrix.
Variables (N : nat) (t : fval) (L w : vec).
Hypothesis HN : (0 < N)%nat.
Hypothesis HlL : length L = N.
Hypothesis Hlw : length w = N.

(** Lines 95-99 with a [1 x 1] matrix: the entry is used for every pair
    of locations. *)
Lemma combined_terms_scalar (A0 : vec) :
  length A0 = N ->
  combined_terms [[t]] w A0 N = combined_terms (repeat (repeat t N) N) w A0 N.
Proof.
  intros HA.
  rewrite (combined_terms_ok N (repeat (repeat t N) N) w A0 HN (rect_repeat t N) Hlw HA).
  pose proof (length_term2 N w Hlw) as Hl2.
  pose proof (rect_term3 N w A0 Hlw HA) as Hr3.
  unfold combined_terms, bind.
  rewrite bvec_same by (now rewrite length_ones).
  rewrite bvec_same by congruence.
  rewrite bmat_column_row by (now rewrite length_ones).
  fold (term2_of w N). fold (term3_of w A0 N).
  cbn [map clipm clipv].
  rewrite bmat_scalar_column by (rewrite Hl2; exact HN).
  rewrite (bmat_column_l fmul N N) by (rewrite ?length_map; assumption).
  unfold combined_of, term1_of, clipm, clipv.
  rewrite !map_repeat. f_equal. f_equal.
  rewrite zip_with_repeat_n by exact Hl2. rewrite !zip_with_map_l.
  apply zip_with_ext_r with (Q := fun y => length y = N); [| apply Hr3].
  intros x y Hy. rewrite map_repeat. symmetry. now apply zip_with_repeat_n.
Qed.

Lemma iteration_scalar (s : loop_state) :
  shape_inv N s ->
  iteration L w [[t]] N s = iteration L w (repeat (repeat t N) N) N s.
Proof.
  intros [HA _]. unfold iteration, compute_updates.
  now rewrite combined_terms_scalar.
Qed.

Lemma while_loop_scalar (fuel : nat) :
  forall s, shape_inv N s ->
            while_loop fuel L w [[t]] N s
            = while_loop fuel L w (repeat (repeat t N) N) N s.
Proof.
  induction fuel as [| fuel IH]; intros s Hs; [reflexivity |].
  cbn [while_loop]. rewrite iteration_scalar by exact Hs.
  pose proof (shape_inv_step N (repeat (repeat t N) N) L w HN (rect_repeat t N)
                             HlL Hlw s Hs) as Hnext.
  destruct (loop_cond s); [| reflexivity].
  destruct (iteration L w (repeat (repeat t N) N) N s) as [s1 | s1 | s1];
    try reflexivity.
  apply IH. exact Hnext.
Qed.
End ScalarMatrix.

(** X15.  A trade-cost matrix of a single entry [t] is not rejected: for
    any number of locations [N >= 1] it broadcasts, and the year gives
    what it gives with the [N x N] matrix whose entries are all [t]. *)
Theorem scalar_trade_cost (L w : vec) (t : fval) (N : nat) :
  (0 < N)%nat -> length L = N -> length w = N ->
  invert_year L w [[t]] N = invert_year L w (repeat (repeat t N) N) N.
Proof.
  intros HN HlL Hlw.
  destruct (prepared_length L w) as [HlL' Hlw'].
  rewrite HlL in HlL'. rewrite Hlw in Hlw'.
  rewrite !invert_year_unfold, !run_year_unfold.
  rewrite (while_loop_scalar N t _ _ HN HlL' Hlw'); [reflexivity |].
  split; apply length_ones.
Qed.

(** A witness of X15. *)
Lemma scalar_trade_cost_witness :
  invert_year [Fin 1; Fin 2] [Fin 10; Fin 20] [[Fin 3]] 2
  = invert_year [Fin 1; Fin 2] [Fin 10; Fin 20] (repeat (repeat (Fin 3) 2) 2) 2.
Proof.
  apply (scalar_trade_cost [Fin 1; Fin 2] [Fin 10; Fin 20] (Fin 3) 2).
  - lia.
  - reflexivity.
  - reflexivity.
Defined.

(** ** The years together, and what is printed *)

(** X16.  The years stand or fall together: [invert_model] raises exactly
    when one of the years raises, whatever the other years give; when none
    does, it gives, in the order of the years, what each year gives on its
    own columns. *)
Theorem years_all_or_nothing (N : nat) (T : mat) (years : list year_input) :
  (invert_model N T years = None <->
   Exists (fun y => invert_year (Population y) (Wage y) T N = Raised) years) /\
  (forall outs, invert_model N T years = Some outs ->
     Forall2 (fun y yo => fst yo = year y /\
                          invert_year (Population y) (Wage y) T N = Done (snd yo))
             years outs).
Proof.
  induction years as [| y years [IH1 IH2]].
  - split.
    + split; [discriminate | intros H; inversion H].
    + intros outs H. injection H as <-. constructor.
  - cbn [invert_model].
    destruct (invert_year (Population y) (Wage y) T N) as [o |] eqn:Hy.
    + split.
      * destruct (invert_model N T years) as [outs |]; cbn [option_map].
        -- split; [discriminate |]. intros H. inversion H as [? ? Hr | ? ? Hr]; subst.
           ++ congruence.
           ++ apply IH1 in Hr. discriminate.
        -- split; [| reflexivity]. intros _. right. now apply IH1.
      * intros outs H. destruct (invert_model N T years) as [outs' |];
          [| discriminate].
        injection H as <-. constructor; [split; [reflexivity | exact Hy] |].
        now apply IH2.
    + split; [| discriminate]. split; [| reflexivity]. intros _. now left.
Qed.

(** X17.  A year that writes its columns counts at most [max_iter]
    iterations; the warning on the maximum of iterations is printed when
    the count is [max_iter], and the message that the year has converged
    in all other cases: also when the first iteration raised, where it
    reads 0 iterations and a residual of 1, which is above the
    tolerance. *)
Theorem converged_message (L w : vec) (T : mat) (N : nat) (o : year_output) :
  invert_year L w T N = Done o ->
  (iterations o <= max_iter)%nat /\
  (final_message o = MaxIterWarning <-> iterations o = max_iter) /\
  (final_message o = MaxIterWarning \/
   final_message o = Converged (iterations o) (final_diff o)) /\
  (compute_updates (fst (prepared L w)) (snd (prepared L w)) T N (init_state N) = None ->
   final_message o = Converged 0 (Fin 1) /\ fgtb (Fin 1) (Fin tol) = true).
Proof.
  intros Ho.
  destruct (while_loop_total (fst (prepared L w)) (snd (prepared L w)) T N
                             year_fuel (init_state N))
    as (s_end & Hrun & Hle & _).
  { unfold init_state. cbn [iter_count]. lia. }
  { unfold year_fuel, init_state. cbn [iter_count]. lia. }
  specialize (Hrun year_fuel (Nat.le_refl _)).
  assert (Hry : run_year L w T N = Some (use_best s_end))
    by (rewrite run_year_unfold, Hrun; reflexivity).
  destruct (invert_year_done L w T N o _ Hry Ho) as (_ & _ & Hfd & Hic & _).
  destruct (use_best_fields s_end) as (Hic' & _ & _).
  rewrite Hic' in Hic. rewrite <- Hic in Hle.
  unfold final_message.
  split; [exact Hle |]. split; [| split].
  - destruct (Nat.leb_spec max_iter (iterations o)) as [Hm | Hm]; split; intros E;
      try reflexivity; try discriminate; lia.
  - destruct (max_iter <=? iterations o)%nat; [now left | now right].
  - intros Hc.
    assert (HN : (length L =? 0)%nat || (length w =? 0)%nat = false).
    { rewrite invert_year_unfold in Ho.
      destruct ((length L =? 0)%nat || (length w =? 0)%nat); [discriminate | reflexivity]. }
    assert (Hend : s_end = init_state N).
    { unfold year_fuel in Hrun. cbn [while_loop] in Hrun.
      rewrite loop_cond_init in Hrun. unfold iteration in Hrun.
      rewrite Hc in Hrun. now injection Hrun as <-. }
    subst s_end. cbn in Hic, Hfd. rewrite Hic, Hfd.
    split; [reflexivity |].
    unfold fgtb. cbn. apply Rltb_true, tol_lt_1.
Qed.

(** A witness of X17: two locations and a [3 x 3] matrix. *)
Lemma converged_message_witness :
  let L := [Fin 1; Fin 2] in
  let w := [Fin 10; Fin 10] in
  let T := repeat (repeat (Fin 1) 3) 3 in
  let o := mkOutput (ones 2) (ones 2) 0 (Fin 1) false in
  (iterations o <= max_iter)%nat /\
  (final_message o = MaxIterWarning <-> iterations o = max_iter) /\
  (final_message o = MaxIterWarning \/
   final_message o = Converged (iterations o) (final_diff o)) /\
  (compute_updates (fst (prepared L w)) (snd (prepared L w)) T 2 (init_state 2) = None ->
   final_message o = Converged 0 (Fin 1) /\ fgtb (Fin 1) (Fin tol) = true).
Proof.
  intros L w T o.
  apply (converged_message L w T 2 o).
  apply invert_year_first_raises; [lia | reflexivity | reflexivity |].
  apply compute_updates_mismatch; [reflexivity | | lia | cbn; lia | cbn; lia].
  apply (square_repeat (Fin 1) 3).
Defined.

(** ** The names of the cities *)

Lemma str_replace_clean (old new : Z) (s : list Z) :
  old <> new -> ~ In old (str_replace old new s).
Proof.
  intros Hne Hin. unfold str_replace in Hin. apply in_map_iff in Hin.
  destruct Hin as (c & Hc & _).
  destruct (Z.eqb_spec c old) as [E | E]; congruence.
Qed.

Lemma str_replace_id (old new : Z) (s : list Z) :
  ~ In old s -> str_replace old new s = s.
Proof.
  intros Hin. unfold str_replace. rewrite <- (map_id s) at 2.
  apply map_ext_in. intros c Hc.
  destruct (Z.eqb_spec c old) as [E | E]; [subst; contradiction | reflexivity].
Qed.

Lemma nth_str_replace (old new : Z) (s : list Z) (i : nat) (d : Z) :
  (i < length s)%nat ->
  nth i (str_replace old new s) d
  = if (nth i s d =? old)%Z then new else nth i s d.
Proof.
  revert i. induction s as [| c s IH]; intros [| i] Hi; cbn [length] in Hi; try lia.
  - reflexivity.
  - cbn [str_replace map nth]. fold (str_replace old new s). apply IH. lia.
Qed.

(** X18.  [replace_small_ke_with_big_ke] leaves a value that is no string
    as it is; of a string it keeps the length and every character but the
    small ke, which becomes the big one, so that no small ke is left: a
    string without small ke is not changed, and applying the function
    twice is applying it once. *)
Theorem replace_small_ke_normal_form (X : Type) (text : pyvalue X) :
  let r := replace_small_ke_with_big_ke text in
  replace_small_ke_with_big_ke r = r /\
  (forall x, text = PyOther x -> r = text) /\
  (forall s, text = PyStr s ->
     exists s', r = PyStr s' /\ length s' = length s /\ ~ In small_ke s' /\
                (forall i, nth i s 0%Z <> small_ke -> nth i s' 0%Z = nth i s 0%Z) /\
                (forall i, (i < length s)%nat -> nth i s 0%Z = small_ke ->
                           nth i s' 0%Z = big_ke) /\
                (~ In small_ke s -> s' = s)).
Proof.
  assert (Hne : small_ke <> big_ke) by discriminate.
  destruct text as [s | x]; cbn zeta; cbn [replace_small_ke_with_big_ke].
  - split; [| split].
    + f_equal. apply str_replace_id. now apply str_replace_clean.
    + discriminate.
    + intros s0 E. injection E as <-.
      exists (str_replace small_ke big_ke s). split; [reflexivity |].
      split; [apply length_map |]. split; [now apply str_replace_clean |].
      split; [| split].
      * intros i Hi. unfold str_replace.
        destruct (Nat.lt_ge_cases i (length s)) as [Hlt | Hge].
        -- fold (str_replace small_ke big_ke s). rewrite nth_str_replace by exact Hlt.
           destruct (Z.eqb_spec (nth i s 0%Z) small_ke); [contradiction | reflexivity].
        -- rewrite !nth_overflow by (rewrite ?length_map; exact Hge). reflexivity.
      * intros i Hlt Hi. rewrite nth_str_replace by exact Hlt.
        rewrite Hi. reflexivity.
      * apply str_replace_id.
  - split; [reflexivity |]. split; [reflexivity | discriminate].
Qed.

